(** * Nighttime Light Regression Modeler: pixel-wise forecasting core

    A shallow embedding of [NighttimeLightModeller.processAlgorithm]
    (src/nighttimelight_modeller.py) together with the properties of its
    forecasting pipeline.

    Numeric model.  numpy/sklearn compute in IEEE floating point; here
    every finite float is a rational number ([Q]) and arithmetic is exact,
    so equalities between numbers are stated with [Qeq] ([==]).  The NaN
    used by the code as the "undefined" marker of the metric arrays is kept
    as a separate value ([nan]).  The square root, which has no rational
    counterpart, is a parameter of the development ([np_sqrt]).

    The pipeline is given twice.  [fit_and_forecast] and
    [processAlgorithm] work on rasters of finite numbers and on future
    years already parsed.  [processAlgorithm_files], further down, is the
    algorithm on what it is handed: the text of the years field, and
    rasters that may hold NaN and infinities; on finite rasters the two
    agree.

    Outside the model: rounding (including the float32 storage of the
    output arrays, which the properties that need it state as a
    condition), failures of the file system and of the QGIS and rasterio
    calls, the percentages and the texts sent to the feedback object, the
    scatter plot with its random sample, and the writing of the result
    files.  The sklearn and numpy functions the algorithm calls are
    modelled by their documented results in exact arithmetic. *)

From Stdlib Require Import QArith Qminmax Qabs ZArith Lia String.
From Stdlib Require Import Permutation.
From Stdlib Require Import Ascii DecimalString DecimalZ Lqa.
From stdpp Require Import base list.

Local Open Scope Q_scope.

(** ** Arrays and exceptions *)

(** A 1-D float array and a 2-D float array stored as a list of rows. *)
Abbreviation vec := (list Q).
Abbreviation matrix := (list (list Q)).

(** An entry of a float array that may hold NaN ([np.nan]). *)
Inductive fval : Type :=
| nan : fval
| num : Q -> fval.

Definition np_isnan (v : fval) : bool :=
  match v with nan => true | num _ => false end.

(** The exceptions that can leave [processAlgorithm]. *)
Inductive exn : Type :=
| QgsProcessingException : string -> exn
| ValueError : string -> exn.

Definition result (A : Type) : Type := (exn + A)%type.
Definition ok {A} (a : A) : result A := inr a.
Definition raise {A} (e : exn) : result A := inl e.
Definition bind {A B} (r : result A) (k : A -> result B) : result B :=
  match r with inl e => inl e | inr a => k a end.

Notation "'let*' x ':=' r 'in' k" := (bind r (fun x => k))
  (at level 10, x pattern, r at level 200, k at level 200).

(** ** numpy helpers *)

Definition Qsum (v : vec) : Q := foldr Qplus 0 v.

(** [np.mean] of a non-empty array. *)
Definition np_mean (v : vec) : Q := Qsum v / inject_Z (Z.of_nat (length v)).

Definition dot (u v : vec) : Q := Qsum (zip_with Qmult u v).
Definition vsub (u v : vec) : vec := zip_with Qminus u v.
Definition vscale (k : Q) (v : vec) : vec := map (Qmult k) v.
Definition sq (x : Q) : Q := x * x.

Definition np_min (v : vec) : Q :=
  match v with [] => 0 | x :: xs => foldl Qmin x xs end.
Definition np_max (v : vec) : Q :=
  match v with [] => 0 | x :: xs => foldl Qmax x xs end.

(** [np.arange(lo, lo + n)] *)
Definition np_arange (lo : Z) (n : nat) : list Z :=
  map (fun i => (lo + Z.of_nat i)%Z) (seq 0 n).

(** [a.reshape(-1,1)] of an integer vector, read as a float matrix. *)
Definition reshape_col (a : list Z) : matrix := map (fun z => [inject_Z z]) a.

(** Column [j] of a matrix and the list of all its columns. *)
Definition column (j : nat) (X : matrix) : vec := map (fun row => nth j row 0) X.
Definition n_features (X : matrix) : nat := length (hd [] X).
Definition columns (X : matrix) : list vec :=
  map (fun j => column j X) (seq 0 (n_features X)).

(** ** sklearn.preprocessing *)

Module preprocessing.

(** [_handle_zeros_in_scale]: a zero scale is replaced by 1. *)
Definition handle_zeros_in_scale (s : Q) : Q :=
  if Qeq_bool s 0 then 1 else s.

(** A fitted scaler for one feature column.  [MinMaxScaler] keeps
    [scale_] and [min_], [StandardScaler] keeps [mean_] and [scale_]. *)
Inductive Scaler : Type :=
| MinMaxScaler (scale_ min_ : Q)
| StandardScaler (mean_ scale_ : Q).

(** [MinMaxScaler().fit(y)] with the default feature range (0, 1). *)
Definition MinMaxScaler_fit (y : vec) : Scaler :=
  let data_min := np_min y in
  let data_max := np_max y in
  let data_range := data_max - data_min in
  let scale := (1 - 0) / handle_zeros_in_scale data_range in
  MinMaxScaler scale (0 - data_min * scale).

(** Population variance, as [StandardScaler] computes it. *)
Definition np_var (y : vec) : Q :=
  let m := np_mean y in np_mean (map (fun v => sq (v - m)) y).

(** [StandardScaler().fit(y)]; [np_sqrt] is the square root in use. *)
Definition StandardScaler_fit (np_sqrt : Q -> Q) (y : vec) : Scaler :=
  StandardScaler (np_mean y) (handle_zeros_in_scale (np_sqrt (np_var y))).

Definition transform (s : Scaler) (y : vec) : vec :=
  match s with
  | MinMaxScaler scale min_ => map (fun x => x * scale + min_) y
  | StandardScaler mean_ scale => map (fun x => (x - mean_) / scale) y
  end.

Definition inverse_transform (s : Scaler) (y : vec) : vec :=
  match s with
  | MinMaxScaler scale min_ => map (fun x => (x - min_) / scale) y
  | StandardScaler mean_ scale => map (fun x => x * scale + mean_) y
  end.

(** [PolynomialFeatures(degree=2)]: fitting records the number of input
    columns; a row (x1, ..., xn) is expanded to the bias 1, the inputs
    and all products xi * xj with i <= j.  Transforming a matrix with
    another number of columns raises [ValueError]. *)
Record PolynomialFeatures : Type := { n_features_in_ : nat }.

Definition PolynomialFeatures_fit (X : matrix) : PolynomialFeatures :=
  {| n_features_in_ := n_features X |}.

Fixpoint degree2 (row : vec) : vec :=
  match row with
  | [] => []
  | x :: xs => map (Qmult x) (x :: xs) ++ degree2 xs
  end.

Definition poly2_row (row : vec) : vec := 1 :: row ++ degree2 row.

Definition PolynomialFeatures_transform (p : PolynomialFeatures) (X : matrix)
  : result matrix :=
  if forallb (fun row => Nat.eqb (length row) (n_features_in_ p)) X
  then ok (map poly2_row X)
  else raise (ValueError "X has a different number of features than expected").

End preprocessing.

(** ** sklearn.metrics and sklearn.linear_model *)

(** [r2_score(y_true, y_pred)]: NaN below two samples; otherwise
    1 - SS_res / SS_tot, with the finite replacements sklearn uses when a
    sum of squares vanishes (1 for a perfect fit, 0 for a constant target
    that is not fitted perfectly). *)
Definition r2_score (y_true y_pred : vec) : fval :=
  if (length y_pred <? 2)%nat then nan
  else
    let numerator := Qsum (map sq (vsub y_true y_pred)) in
    let y_mean := np_mean y_true in
    let denominator := Qsum (map (fun v => sq (v - y_mean)) y_true) in
    if Qeq_bool numerator 0 then num 1
    else if Qeq_bool denominator 0 then num 0
    else num (1 - numerator / denominator).

Module linear_model.

(** The fitted state shared by the three estimators. *)
Record LinearModel : Type := { coef_ : vec; intercept_ : Q }.

(** [LinearModel.predict]: X @ coef_ + intercept_ *)
Definition predict (m : LinearModel) (X : matrix) : vec :=
  map (fun row => dot row (coef_ m) + intercept_ m) X.

(** [RegressorMixin.score] *)
Definition score (m : LinearModel) (X : matrix) (y : vec) : fval :=
  r2_score y (predict m X).

(** *** Minimum-norm least squares

    [scipy.linalg.lstsq] returns the least-squares solution of minimum
    Euclidean norm, i.e. pinv(A) @ y.  The pseudo-inverse is computed
    exactly, one column at a time (Greville's recursion); matrices are
    given by their columns. *)
Definition is_zero (v : vec) : bool := forallb (fun x => Qeq_bool x 0) v.

Definition lincomb (n : nat) (ks : vec) (vs : list vec) : vec :=
  foldr (fun kv acc => zip_with Qplus (vscale (fst kv) (snd kv)) acc)
        (replicate n 0) (zip ks vs).

Fixpoint greville (rcols : list vec) : list vec :=
  match rcols with
  | [] => []
  | a :: rest =>
      let P := greville rest in
      let d := map (fun row => dot row a) P in
      let c := vsub a (lincomb (length a) d rest) in
      let b := if is_zero c
               then vscale (/ (1 + dot d d)) (lincomb (length a) d P)
               else vscale (/ dot c c) c in
      b :: zip_with (fun row dj => vsub row (vscale dj b)) P d
  end.

Definition pinv (cols : list vec) : list vec := rev (greville (rev cols)).

Definition lstsq (cols : list vec) (y : vec) : vec :=
  map (fun row => dot row y) (pinv cols).

(** [_preprocess_data] with [fit_intercept=True]: centre every feature
    column and the target. *)
Definition centered (c : vec) : vec :=
  let m := np_mean c in map (fun v => v - m) c.

(** [LinearRegression().fit(X, y)] *)
Definition LinearRegression_fit (X : matrix) (y : vec) : LinearModel :=
  let cols := columns X in
  let X_offset := map np_mean cols in
  let y_offset := np_mean y in
  let coef := lstsq (map centered cols) (centered y) in
  {| coef_ := coef; intercept_ := y_offset - dot X_offset coef |}.

(** [Ridge(alpha).fit(X, y)]: solves (Xc'Xc + alpha I) w = Xc'yc. *)
Definition Ridge_fit (alpha : Q) (X : matrix) (y : vec) : LinearModel :=
  let cols := columns X in
  let X_offset := map np_mean cols in
  let y_offset := np_mean y in
  let Xc := map centered cols in
  let yc := centered y in
  let gram :=
    imap (fun i ci =>
            imap (fun j cj => dot ci cj + (if Nat.eqb i j then alpha else 0))
                 Xc) Xc in
  let coef := lstsq gram (map (fun c => dot c yc) Xc) in
  {| coef_ := coef; intercept_ := y_offset - dot X_offset coef |}.

(** [Lasso(alpha).fit(X, y)]: cyclic coordinate descent on
    (1 / (2 n)) |yc - Xc w|^2 + alpha |w|_1, started at w = 0 and run
    for at most [max_iter] sweeps.  A sweep that leaves [w] unchanged
    ends the iteration (the exact-arithmetic form of the tolerance
    test). *)
Definition fsign (f : Q) : Q :=
  if Qeq_bool f 0 then 0 else if Qle_bool 0 f then 1 else - (1).

Definition cd_update (l1_reg : Q) (Xc : list vec) (yc : vec)
           (w : vec) (ii : nat) : vec :=
  let c := nth ii Xc [] in
  let norm_col := dot c c in
  if Qeq_bool norm_col 0 then w
  else
    let w_ii := nth ii w 0 in
    let R := vsub yc (lincomb (length yc) w Xc) in
    let tmp := dot c R + w_ii * norm_col in
    <[ii := fsign tmp * Qmax (Qabs tmp - l1_reg) 0 / norm_col]> w.

Definition cd_sweep (l1_reg : Q) (Xc : list vec) (yc : vec) (w : vec) : vec :=
  foldl (cd_update l1_reg Xc yc) w (seq 0 (length Xc)).

Fixpoint cd_loop (max_iter : nat) (l1_reg : Q) (Xc : list vec) (yc : vec)
         (w : vec) : vec :=
  match max_iter with
  | O => w
  | S n =>
      let w' := cd_sweep l1_reg Xc yc w in
      if forallb (fun p => Qeq_bool (fst p) (snd p)) (zip w w') then w'
      else cd_loop n l1_reg Xc yc w'
  end.

Definition Lasso_fit (alpha : Q) (X : matrix) (y : vec) : LinearModel :=
  let cols := columns X in
  let X_offset := map np_mean cols in
  let y_offset := np_mean y in
  let Xc := map centered cols in
  let yc := centered y in
  let l1_reg := alpha * inject_Z (Z.of_nat (length y)) in
  let coef := cd_loop 1000 l1_reg Xc yc (replicate (length Xc) 0) in
  {| coef_ := coef; intercept_ := y_offset - dot X_offset coef |}.

(** The estimator objects the algorithm instantiates; [Ridge()] and
    [Lasso()] use the default strength alpha = 1. *)
Inductive Estimator : Type :=
| LinearRegression
| Ridge (alpha : Q)
| Lasso (alpha : Q).

Definition fit (e : Estimator) (X : matrix) (y : vec) : LinearModel :=
  match e with
  | LinearRegression => LinearRegression_fit X y
  | Ridge alpha => Ridge_fit alpha X y
  | Lasso alpha => Lasso_fit alpha X y
  end.

End linear_model.

(** ** The algorithm's inputs *)

(** What [rasterio.open(path)] gives for one input file: band 1 as a grid
    of rows and the dataset's NoData value ([None] when it declares
    none). *)
Record Raster : Type := { read1 : matrix; nodata : option Q }.

(** A map layer handed over by QGIS. *)
Record Layer : Type := { isValid : bool; dataSource : Raster }.

(** [model_name] and [norm_name] *)
Inductive ModelName : Type := Linear | Polynomial | Ridge | Lasso.
Inductive NormName : Type := NormNone | MinMax | Zscore.

(** The feedback object: [isCanceled fb idx] is the answer of
    [feedback.isCanceled()] at the top of loop iteration [idx].  Progress
    and log messages only go to the sink and are not modelled. *)
Record Feedback : Type := { isCanceled : nat -> bool }.

(** ** Stacking and masking *)

Definition has_shape (H W : nat) (g : matrix) : bool :=
  Nat.eqb (length g) H && forallb (fun row => Nat.eqb (length row) W) g.

(** [np.stack(arrays, axis=0)]: all arrays must have one shape.  A list
    of rows of unequal lengths is no numpy array and is rejected with
    them. *)
Definition np_stack (arrays : list matrix) : result (list matrix) :=
  match arrays with
  | [] => raise (ValueError "need at least one array to stack")
  | g :: _ =>
      if forallb (has_shape (length g) (n_features g)) arrays
      then ok arrays
      else raise (ValueError "all input arrays must have the same shape")
  end.

(** [data.shape[1:]] *)
Definition shape12 (data : list matrix) : nat * nat :=
  match data with
  | [] => (O, O)
  | g :: _ => (length g, n_features g)
  end.

(** [np.any(bs, axis=0)] for boolean grids of shape H x W. *)
Definition np_any_axis0 (H W : nat) (bs : list (list (list bool)))
  : list (list bool) :=
  foldr (zip_with (zip_with orb)) (replicate H (replicate W false)) bs.

(** [valid_mask], line 124. *)
Definition valid_mask_of (nodata_val : option Q) (H W : nat)
           (data : list matrix) : list (list bool) :=
  match nodata_val with
  | Some nd =>
      map (map negb)
          (np_any_axis0 H W (map (map (map (fun v => Qeq_bool v nd))) data))
  | None => replicate H (replicate W true)
  end.

(** [a.reshape((H, W))] of a flat array. *)
Fixpoint reshape2 (H W : nat) (v : vec) : matrix :=
  match H with
  | O => []
  | S H' => take W v :: reshape2 H' W (drop W v)
  end.

(** ** The pixel loop *)

Record Arrays : Type := {
  preds : list vec;        (* shape (n_future, n_pixels) *)
  r2_vals : list fval;     (* shape (n_pixels) *)
  rmse_vals : list fval    (* shape (n_pixels) *)
}.

(** Lines 128-130: the arrays the loop starts from. *)
Definition initial_arrays (n_future n_pixels : nat) : Arrays :=
  {| preds := replicate n_future (replicate n_pixels 0);
     r2_vals := replicate n_pixels nan;
     rmse_vals := replicate n_pixels nan |}.

(** [preds[:, idx] = pred] *)
Definition set_col (idx : nat) (pred : vec) (P : list vec) : list vec :=
  zip_with (fun row v => <[idx := v]> row) P pred.

(** The estimator picked from the dictionary at lines 156-159. *)
Definition select_model (model_name : ModelName) : linear_model.Estimator :=
  match model_name with
  | Linear => linear_model.LinearRegression
  | Polynomial => linear_model.LinearRegression
  | Ridge => linear_model.Ridge 1
  | Lasso => linear_model.Lasso 1
  end.

(** Lines 133-138: the feature matrices of the observed and the future
    years. *)
Definition expand_features (model_name : ModelName) (years future_years : matrix)
  : result (matrix * matrix) :=
  match model_name with
  | Polynomial =>
      let poly := preprocessing.PolynomialFeatures_fit years in
      let* years_feat := preprocessing.PolynomialFeatures_transform poly years in
      let* future_feat :=
        preprocessing.PolynomialFeatures_transform poly future_years in
      ok (years_feat, future_feat)
  | _ => ok (years, future_years)
  end.

(** Lines 115-117: [nodata_val] is read from the dataset opened from
    [paths[0]]. *)
Definition first_nodata (paths : list Raster) : option Q :=
  match paths with
  | src :: _ => nodata src
  | [] => None
  end.

(** Line 120: [years = np.arange(2013, 2013 + len(paths))]. *)
Definition observed_years (paths : list Raster) : list Z :=
  np_arange 2013 (length paths).

Section Pipeline.
Variable np_sqrt : Q -> Q.

(** Lines 146-154: the scaler (if any) and the normalised series. *)
Definition normalize (norm_name : NormName) (y : vec)
  : option preprocessing.Scaler * vec :=
  match norm_name with
  | MinMax =>
      let scaler := preprocessing.MinMaxScaler_fit y in
      (Some scaler, preprocessing.transform scaler y)
  | Zscore =>
      let scaler := preprocessing.StandardScaler_fit np_sqrt y in
      (Some scaler, preprocessing.transform scaler y)
  | NormNone => (None, y)
  end.

(** [scaler.inverse_transform(v) if scaler else v] *)
Definition denormalize (scaler : option preprocessing.Scaler) (v : vec) : vec :=
  match scaler with
  | Some s => preprocessing.inverse_transform s v
  | None => v
  end.

(** Lines 144-170 for one pixel series [y]: the forecast vector, R2 and
    RMSE. *)
Definition fit_pixel (model_name : ModelName) (norm_name : NormName)
           (years_feat future_feat : matrix) (y : vec) : vec * fval * fval :=
  let '(scaler, y_norm) := normalize norm_name y in
  let mdl := linear_model.fit (select_model model_name) years_feat y_norm in
  let y_pred_norm := linear_model.predict mdl years_feat in
  let y_pred := denormalize scaler y_pred_norm in
  let pred_norm := linear_model.predict mdl future_feat in
  let pred := denormalize scaler pred_norm in
  let r2 := linear_model.score mdl years_feat y_norm in
  let resid := vsub y_pred y in
  (pred, r2, num (np_sqrt (np_mean (map sq resid)))).

(** Lines 141-172: the loop over the pixel indices [idxs], with [break]
    on cancellation and [continue] on masked pixels. *)
Fixpoint pixel_loop (feedback : Feedback) (model_name : ModelName)
         (norm_name : NormName) (years_feat future_feat : matrix)
         (valid_flat : list bool) (flat : list vec)
         (idxs : list nat) (st : Arrays) : Arrays :=
  match idxs with
  | [] => st
  | idx :: rest =>
      if isCanceled feedback idx then st
      else if negb (nth idx valid_flat false) then
        pixel_loop feedback model_name norm_name years_feat future_feat
                   valid_flat flat rest st
      else
        let y := column idx flat in
        let '(pred, r2, rmse) :=
          fit_pixel model_name norm_name years_feat future_feat y in
        pixel_loop feedback model_name norm_name years_feat future_feat
                   valid_flat flat rest
                   {| preds := set_col idx pred (preds st);
                      r2_vals := <[idx := r2]> (r2_vals st);
                      rmse_vals := <[idx := rmse]> (rmse_vals st) |}
  end.

(** What the forecasting stage hands on: one grid per future year and
    the two flat metric arrays. *)
Record ForecastOutputs : Type := {
  pred_grids : list matrix;
  out_r2 : list fval;
  out_rmse : list fval
}.

(** Lines 113-175 on the opened rasters [paths]. *)
Definition fit_and_forecast (paths : list Raster) (future : list Z)
           (model_name : ModelName) (norm_name : NormName)
           (feedback : Feedback) : result ForecastOutputs :=
  let future_years := reshape_col future in
  let nodata_val := first_nodata paths in
  let arrays := map read1 paths in
  let* data := np_stack arrays in
  let years := reshape_col (observed_years paths) in
  let '(H, W) := shape12 data in
  let valid_mask := valid_mask_of nodata_val H W data in
  let flat := map (@concat Q) data in
  let n_pixels := (H * W)%nat in
  let n_future := length future_years in
  let st0 := initial_arrays n_future n_pixels in
  let* feats := expand_features model_name years future_years in
  let '(years_feat, future_feat) := feats in
  let st := pixel_loop feedback model_name norm_name years_feat future_feat
                       (concat valid_mask) flat (seq 0 n_pixels) st0 in
  ok {| pred_grids :=
          map (fun row => reshape2 H W (map (fun v => Qmax v 0) row)) (preds st);
        out_r2 := r2_vals st;
        out_rmse := rmse_vals st |}.

End Pipeline.

(** ** Metric summary, lines 183-188 *)

(** [a[~np.isnan(a)]] *)
Definition defined (a : list fval) : vec :=
  omap (fun v => match v with nan => None | num q => Some q end) a.

(** [a.mean()]: NaN (with a warning) on an empty array. *)
Definition ndarray_mean (a : vec) : fval :=
  match a with [] => nan | _ => num (np_mean a) end.

(** [a.min()] and [a.max()]: [ValueError] on an empty array. *)
Definition ndarray_min (a : vec) : result Q :=
  match a with
  | [] => raise (ValueError
            "zero-size array to reduction operation minimum which has no identity")
  | _ => ok (np_min a)
  end.

Definition ndarray_max (a : vec) : result Q :=
  match a with
  | [] => raise (ValueError
            "zero-size array to reduction operation maximum which has no identity")
  | _ => ok (np_max a)
  end.

Record Stats : Type := { s_mean : fval; s_min : Q; s_max : Q }.

Definition stats_line (a : vec) : result Stats :=
  let m := ndarray_mean a in
  let* lo := ndarray_min a in
  let* hi := ndarray_max a in
  ok {| s_mean := m; s_min := lo; s_max := hi |}.

Record Summary : Type := { r2_stats : Stats; rmse_stats : Stats; robust_pct : Q }.

Definition log_metrics (r2_vals rmse_vals : list fval) : result Summary :=
  let vr2 := defined r2_vals in
  let vrm := defined rmse_vals in
  let* l1 := stats_line vr2 in
  let* l2 := stats_line vrm in
  let robust :=
    100 * inject_Z (Z.of_nat (length (List.filter (fun v => Qle_bool (7 # 10) v) vr2)))
    / inject_Z (Z.of_nat (length vr2)) in
  ok {| r2_stats := l1; rmse_stats := l2; robust_pct := robust |}.

(** ** processAlgorithm

    The checks of lines 100 and 106, the forecast, and the metric log, on
    future years already parsed and on rasters of finite numbers; the
    exceptions of [int] and of the validation of sklearn are those of
    [processAlgorithm_files] below, which takes the text and rasters with
    NaN or infinities.  What follows the log in the source (plot, raster
    files, map layers) produces no value the properties below speak
    about. *)

Record Parameters : Type := {
  LAYER_LIST : list (option Layer);
  FUTURE_YEARS : list Z;      (* the years parsed from the text field *)
  MODEL_TYPE : ModelName;
  NORMALIZATION : NormName
}.

Record Outputs : Type := { forecast : ForecastOutputs; summary : Summary }.

Definition valid_layers (layers : list (option Layer)) : list Raster :=
  omap (fun l => match l with
                 | Some lyr => if isValid lyr then Some (dataSource lyr) else None
                 | None => None
                 end) layers.

Definition processAlgorithm (np_sqrt : Q -> Q) (parameters : Parameters)
           (feedback : Feedback) : result Outputs :=
  let paths := valid_layers (LAYER_LIST parameters) in
  if (length paths <? 2)%nat
  then raise (QgsProcessingException "Please select at least 2 input rasters.")
  else
    let future_years := FUTURE_YEARS parameters in
    if (length future_years =? 0)%nat
    then raise (QgsProcessingException "No valid future years provided.")
    else
      let* out := fit_and_forecast np_sqrt paths future_years
                                   (MODEL_TYPE parameters)
                                   (NORMALIZATION parameters) feedback in
      let* s := log_metrics (out_r2 out) (out_rmse out) in
      ok {| forecast := out; summary := s |}.


(** * Vocabulary of the properties *)

Definition shaped {A} (H W : nat) (g : list (list A)) : Prop :=
  length g = H /\ Forall (fun r => length r = W) g.

(** A pixel series is valid when none of its values equals the sentinel;
    without a sentinel every series is valid. *)
Definition series_valid (nodata_val : option Q) (y : vec) : bool :=
  match nodata_val with
  | Some nd => negb (existsb (fun v => Qeq_bool v nd) y)
  | None => true
  end.

(** The indices the loop gets past the cancellation check for. *)
Fixpoint visited (feedback : Feedback) (idxs : list nat) : list nat :=
  match idxs with
  | [] => []
  | idx :: rest =>
      if isCanceled feedback idx then [] else idx :: visited feedback rest
  end.

(** Entry [idx] of row [j] of a 2-D array. *)
Definition cell (P : list vec) (j idx : nat) : option Q :=
  match P !! j with Some row => row !! idx | None => None end.

(** The number of pixels, the flattened volume and the series of pixel
    [idx] (row-major) of an input list. *)
Definition n_pixels_of (paths : list Raster) : nat :=
  (fst (shape12 (map read1 paths)) * snd (shape12 (map read1 paths)))%nat.

Definition flat_of (paths : list Raster) : list vec :=
  map (@concat Q) (map read1 paths).

Definition pixel_series (paths : list Raster) (idx : nat) : vec :=
  column idx (flat_of paths).

(** The validity mask the algorithm computes for an input list. *)
Definition input_mask (paths : list Raster) : list (list bool) :=
  valid_mask_of (first_nodata paths)
                (fst (shape12 (map read1 paths)))
                (snd (shape12 (map read1 paths))) (map read1 paths).

(** A feedback object that never reports cancellation. *)
Definition never_canceled : Feedback := {| isCanceled := fun _ => false |}.

(** Cancellation reported from the check before pixel [k] on. *)
Definition canceled_from (k : nat) : Feedback :=
  {| isCanceled := fun idx => Nat.leb k idx |}.

(** A stand-in for the square root in concrete runs: exact on the squares
    of rationals, rounded down on the numerator otherwise. *)
Definition sqrt_floor (q : Q) : Q :=
  Z.sqrt (Qnum q * Zpos (Qden q)) # Qden q.

Definition scenario_A : list Raster :=
  [ {| read1 := [[1; 1]; [1; 1]]; nodata := None |};
    {| read1 := [[2; 2]; [2; 2]]; nodata := None |} ].

(** Scenario B: the last pixel of the first grid holds the sentinel 7. *)
Definition scenario_B : list Raster :=
  [ {| read1 := [[1; 1]; [1; 7]]; nodata := Some 7 |};
    {| read1 := [[2; 0]; [2; 2]]; nodata := Some 2 |} ].

(** A decreasing series whose raw linear forecast is negative. *)
Definition scenario_decreasing : list Raster :=
  [ {| read1 := [[5]]; nodata := None |};
    {| read1 := [[2]]; nodata := None |} ].

(** The value 0 is the sentinel of the second raster only. *)
Definition scenario_later_sentinel : list Raster :=
  [ {| read1 := [[1; 3]]; nodata := Some 7 |};
    {| read1 := [[2; 0]]; nodata := Some 0 |} ].

(** The scale a fitted scaler divides or multiplies by. *)
Definition scale_of (s : preprocessing.Scaler) : Q :=
  match s with
  | preprocessing.MinMaxScaler scale _ => scale
  | preprocessing.StandardScaler _ scale => scale
  end.

(** A series is degenerate for MinMax when its range is zero and for
    Z-score when its standard deviation is zero. *)
Definition non_degenerate (np_sqrt : Q -> Q) (norm_name : NormName) (y : vec)
  : Prop :=
  match norm_name with
  | MinMax => ~ np_max y - np_min y == 0
  | Zscore => ~ np_sqrt (preprocessing.np_var y) == 0
  | NormNone => True
  end.

(** The two metrics as the specification words them.  R2 is the
    coefficient of determination of the model on its training data, i.e.
    on the normalised series; RMSE is the root mean square of the
    difference between the de-normalised reconstruction and the observed
    series. *)
Definition r2_normalized_space (np_sqrt : Q -> Q) (model_name : ModelName)
           (norm_name : NormName) (years_feat : matrix) (y : vec) : fval :=
  let y_norm := snd (normalize np_sqrt norm_name y) in
  let mdl := linear_model.fit (select_model model_name) years_feat y_norm in
  r2_score y_norm (linear_model.predict mdl years_feat).

Definition rmse_original_units (np_sqrt : Q -> Q) (model_name : ModelName)
           (norm_name : NormName) (years_feat : matrix) (y : vec) : Q :=
  let scaler := fst (normalize np_sqrt norm_name y) in
  let y_norm := snd (normalize np_sqrt norm_name y) in
  let mdl := linear_model.fit (select_model model_name) years_feat y_norm in
  let reconstruction :=
    denormalize scaler (linear_model.predict mdl years_feat) in
  np_sqrt (np_mean (map sq (vsub reconstruction y))).

(** The expansion as the claim words it: the identity for Linear, Ridge
    and Lasso; for Polynomial the square of the time index appended as
    the second column. *)
Definition claimed_expansion (model_name : ModelName) (X : matrix) : matrix :=
  match model_name with
  | Polynomial => map (fun row => row ++ map sq row) X
  | _ => X
  end.

(** The rows PolynomialFeatures(degree=2) produces for a year column. *)
Definition bias_year_square (years : list Z) : matrix :=
  map (fun t => [1; inject_Z t; inject_Z t * inject_Z t]) years.

(** * The rest of the two algorithms *)

(** ** Python text operations

    Strings are sequences of bytes; the operations below are those of
    Python's [str] on text made of ASCII characters, the text the
    properties are stated for.  The interpreter's limit on the number of
    digits [int] and [str] convert (4300 since Python 3.11) is not part of
    the model; the properties keep below it. *)

Module py.

(** [c.isspace()] for an ASCII character: tab to carriage return, the four
    separators 28 to 31, and the space. *)
Definition isspace (c : ascii) : bool :=
  let n := nat_of_ascii c in
  (Nat.leb 9 n && Nat.leb n 13) || (Nat.leb 28 n && Nat.leb n 32).

Definition isdigit_char (c : ascii) : bool :=
  let n := nat_of_ascii c in Nat.leb 48 n && Nat.leb n 57.

Fixpoint all_chars (P : ascii -> bool) (s : string) : bool :=
  match s with
  | EmptyString => true
  | String c s' => P c && all_chars P s'
  end.

(** [s.isdigit()]: at least one character, all of them digits. *)
Definition isdigit (s : string) : bool :=
  match s with
  | EmptyString => false
  | _ => all_chars isdigit_char s
  end.

Fixpoint lstrip (s : string) : string :=
  match s with
  | EmptyString => EmptyString
  | String c s' => if isspace c then lstrip s' else s
  end.

Fixpoint rstrip (s : string) : string :=
  match s with
  | EmptyString => EmptyString
  | String c s' =>
      match rstrip s' with
      | EmptyString => if isspace c then EmptyString else String c EmptyString
      | r => String c r
      end
  end.

(** [s.strip()] *)
Definition strip (s : string) : string := rstrip (lstrip s).

(** [s.split(sep)] for a one-character separator: always at least one
    piece, empty pieces kept. *)
Fixpoint split (sep : ascii) (s : string) : list string :=
  match s with
  | EmptyString => [EmptyString]
  | String c s' =>
      if Ascii.eqb c sep then EmptyString :: split sep s'
      else match split sep s' with
           | piece :: pieces => String c piece :: pieces
           | [] => [String c EmptyString]
           end
  end.

(** [sep.join(pieces)] *)
Fixpoint join (sep : string) (pieces : list string) : string :=
  match pieces with
  | [] => EmptyString
  | [piece] => piece
  | piece :: rest => (piece ++ sep ++ join sep rest)%string
  end.

(** [str(z)] for an integer. *)
Definition str (z : Z) : string := NilZero.string_of_int (Z.to_int z).

Fixpoint remove_underscores (s : string) : string :=
  match s with
  | EmptyString => EmptyString
  | String c s' =>
      if Ascii.eqb c "_" then remove_underscores s'
      else String c (remove_underscores s')
  end.

(** The digits of an integer literal: digits with single underscores
    between them. *)
Fixpoint digits_with_underscores (prev_digit : bool) (s : string) : bool :=
  match s with
  | EmptyString => prev_digit
  | String c s' =>
      if isdigit_char c then digits_with_underscores true s'
      else if Ascii.eqb c "_" then prev_digit && digits_with_underscores false s'
      else false
  end.

(** The whitespace [int] skips around a literal ([Py_ISSPACE] of the
    interpreter): tab to carriage return and the space.  The separators 28
    to 31, which [isspace] and so [strip] count as whitespace, are not
    skipped. *)
Definition Py_ISSPACE (c : ascii) : bool :=
  let n := nat_of_ascii c in
  (Nat.leb 9 n && Nat.leb n 13) || Nat.eqb n 32.

Fixpoint skip_leading (s : string) : string :=
  match s with
  | EmptyString => EmptyString
  | String c s' => if Py_ISSPACE c then skip_leading s' else s
  end.

Fixpoint skip_trailing (s : string) : string :=
  match s with
  | EmptyString => EmptyString
  | String c s' =>
      match skip_trailing s' with
      | EmptyString => if Py_ISSPACE c then EmptyString else String c EmptyString
      | r => String c r
      end
  end.

(** [int(x)] in base 10: the whitespace of [Py_ISSPACE] around the literal
    is skipped, a sign may precede the digits; anything else is a
    [ValueError] (whose message Python ends with the quoted text). *)
Definition int (x : string) : result Z :=
  let s := skip_trailing (skip_leading x) in
  let '(negative, body) :=
    match s with
    | String c r =>
        if Ascii.eqb c "-" then (true, r)
        else if Ascii.eqb c "+" then (false, r)
        else (false, s)
    | EmptyString => (false, s)
    end in
  if digits_with_underscores false body then
    match NilEmpty.uint_of_string (remove_underscores body) with
    | Some d => ok (if negative then (- Z.of_uint d)%Z else Z.of_uint d)
    | None => raise (ValueError "invalid literal for int() with base 10")
    end
  else raise (ValueError "invalid literal for int() with base 10").

(** [range(lo, hi)] *)
Definition range (lo hi : Z) : list Z :=
  map (fun i => (lo + Z.of_nat i)%Z) (seq 0 (Z.to_nat (hi - lo))).

(** [l[i]] with Python's negative indices; [None] stands for
    [IndexError]. *)
Definition getitem {A} (l : list A) (i : Z) : option A :=
  let n := Z.of_nat (length l) in
  if ((0 <=? i) && (i <? n))%Z then l !! Z.to_nat i
  else if ((- n <=? i) && (i <? 0))%Z then l !! Z.to_nat (n + i)
  else None.

End py.

(** [[f(x) for x in l]] when [f] may raise. *)
Fixpoint result_map {A B} (f : A -> result B) (l : list A) : result (list B) :=
  match l with
  | [] => ok []
  | x :: rest =>
      let* y := f x in
      let* ys := result_map f rest in
      ok (y :: ys)
  end.

(** ** The future-years text, lines 104-107 *)

(** Line 105: the comma-separated pieces that are digit strings once
    stripped, converted with [int]. *)
Definition parse_future_years (fy_str : string) : result (list Z) :=
  result_map py.int
             (List.filter (fun x => py.isdigit (py.strip x))
                          (py.split "," fy_str)).

(** [processAlgorithm] from the text of the years field: the layer check
    of line 100 comes before the text is parsed. *)
Definition processAlgorithm_text (np_sqrt : Q -> Q)
           (layers : list (option Layer)) (fy_str : string)
           (model_type : ModelName) (normalization : NormName)
           (feedback : Feedback) : result Outputs :=
  let paths := valid_layers layers in
  if (length paths <? 2)%nat
  then raise (QgsProcessingException "Please select at least 2 input rasters.")
  else
    let* future_years := parse_future_years fy_str in
    processAlgorithm np_sqrt
                     {| LAYER_LIST := layers;
                        FUTURE_YEARS := future_years;
                        MODEL_TYPE := model_type;
                        NORMALIZATION := normalization |}
                     feedback.

(** ** Rasters with NaN or infinite values

    A float raster can hold NaN and the two infinities next to finite
    numbers, and so can the NoData value it declares.  [RasterFile] is
    what [rasterio.open(path)] gives then; [Raster] is the case in which
    every value is finite.  The arrays of the results hold finite numbers
    here as well: a series with a value that is not finite never reaches
    them, sklearn rejects it. *)

Inductive np_float : Type :=
| finite (q : Q)
| np_nan
| np_inf (negative : bool).

(** [a == b] on floats: NaN is equal to nothing, itself included. *)
Definition np_equal (a b : np_float) : bool :=
  match a, b with
  | finite x, finite y => Qeq_bool x y
  | np_inf s, np_inf t => Bool.eqb s t
  | _, _ => false
  end.

Record RasterFile : Type := {
  file_read1 : list (list np_float);
  file_nodata : option np_float
}.

Record FileLayer : Type := { file_isValid : bool; file_dataSource : RasterFile }.

Definition file_valid_layers (layers : list (option FileLayer)) : list RasterFile :=
  omap (fun l => match l with
                 | Some lyr =>
                     if file_isValid lyr then Some (file_dataSource lyr) else None
                 | None => None
                 end) layers.

(** [np.stack] and [data.shape[1:]] on these grids. *)
Definition file_stack (arrays : list (list (list np_float)))
  : result (list (list (list np_float))) :=
  match arrays with
  | [] => raise (ValueError "need at least one array to stack")
  | g :: _ =>
      if forallb (fun a =>
                    Nat.eqb (length a) (length g)
                    && forallb (fun row => Nat.eqb (length row) (length (hd [] g))) a)
                 arrays
      then ok arrays
      else raise (ValueError "all input arrays must have the same shape")
  end.

Definition file_shape12 (data : list (list (list np_float))) : nat * nat :=
  match data with
  | [] => (O, O)
  | g :: _ => (length g, length (hd [] g))
  end.

(** [valid_mask], line 124, with the comparison of floats. *)
Definition file_valid_mask_of (nodata_val : option np_float) (H W : nat)
           (data : list (list (list np_float))) : list (list bool) :=
  match nodata_val with
  | Some nd =>
      map (map negb)
          (np_any_axis0 H W (map (map (map (fun v => np_equal v nd))) data))
  | None => replicate H (replicate W true)
  end.

Definition file_first_nodata (paths : list RasterFile) : option np_float :=
  match paths with
  | src :: _ => file_nodata src
  | [] => None
  end.

(** The finite numbers of a series, when all its values are finite. *)
Fixpoint all_finite (y : list np_float) : option vec :=
  match y with
  | [] => Some []
  | finite q :: rest =>
      match all_finite rest with
      | Some v => Some (q :: v)
      | None => None
      end
  | _ :: _ => None
  end.

(** The input validation of sklearn ([check_array]): a series with a NaN
    or an infinity is refused with a [ValueError], by the estimator's
    [fit] or, for an infinity, already by the scaler.  The text of the
    message depends on the value found and on the version of sklearn. *)
Definition check_array (y : list np_float) : result vec :=
  match all_finite y with
  | Some v => ok v
  | None =>
      raise (ValueError
        "Input contains NaN, infinity or a value too large for dtype('float64').")
  end.

Section FilePipeline.
Variable np_sqrt : Q -> Q.

(** Lines 141-172 on these grids: as [pixel_loop], with the exception of
    the validation leaving the loop. *)
Fixpoint file_pixel_loop (feedback : Feedback) (model_name : ModelName)
         (norm_name : NormName) (years_feat future_feat : matrix)
         (valid_flat : list bool) (flat : list (list np_float))
         (idxs : list nat) (st : Arrays) : result Arrays :=
  match idxs with
  | [] => ok st
  | idx :: rest =>
      if isCanceled feedback idx then ok st
      else if negb (nth idx valid_flat false) then
        file_pixel_loop feedback model_name norm_name years_feat future_feat
                        valid_flat flat rest st
      else
        match check_array (map (fun row => nth idx row (finite 0)) flat) with
        | inl e => raise e
        | inr y =>
            let '(pred, r2, rmse) :=
              fit_pixel np_sqrt model_name norm_name years_feat future_feat y in
            file_pixel_loop feedback model_name norm_name years_feat future_feat
                            valid_flat flat rest
                            {| preds := set_col idx pred (preds st);
                               r2_vals := <[idx := r2]> (r2_vals st);
                               rmse_vals := <[idx := rmse]> (rmse_vals st) |}
        end
  end.

(** Lines 113-175. *)
Definition file_fit_and_forecast (paths : list RasterFile) (future : list Z)
           (model_name : ModelName) (norm_name : NormName)
           (feedback : Feedback) : result ForecastOutputs :=
  let future_years := reshape_col future in
  let nodata_val := file_first_nodata paths in
  let arrays := map file_read1 paths in
  let* data := file_stack arrays in
  let years := reshape_col (np_arange 2013 (length paths)) in
  let '(H, W) := file_shape12 data in
  let valid_mask := file_valid_mask_of nodata_val H W data in
  let flat := map (@concat np_float) data in
  let n_pixels := (H * W)%nat in
  let n_future := length future_years in
  let st0 := initial_arrays n_future n_pixels in
  let* feats := expand_features model_name years future_years in
  let '(years_feat, future_feat) := feats in
  let* st := file_pixel_loop feedback model_name norm_name years_feat
                             future_feat (concat valid_mask) flat
                             (seq 0 n_pixels) st0 in
  ok {| pred_grids :=
          map (fun row => reshape2 H W (map (fun v => Qmax v 0) row)) (preds st);
        out_r2 := r2_vals st;
        out_rmse := rmse_vals st |}.

(** Lines 96-188: the algorithm on the layers and the text it is given. *)
Definition processAlgorithm_files (layers : list (option FileLayer))
           (fy_str : string) (model_type : ModelName) (normalization : NormName)
           (feedback : Feedback) : result Outputs :=
  let paths := file_valid_layers layers in
  if (length paths <? 2)%nat
  then raise (QgsProcessingException "Please select at least 2 input rasters.")
  else
    let* future_years := parse_future_years fy_str in
    if (length future_years =? 0)%nat
    then raise (QgsProcessingException "No valid future years provided.")
    else
      let* out := file_fit_and_forecast paths future_years model_type
                                        normalization feedback in
      let* s := log_metrics (out_r2 out) (out_rmse out) in
      ok {| forecast := out; summary := s |}.

End FilePipeline.

(** A raster of finite values as a file, and the finite part of a value
    (0 for NaN and the infinities). *)
Definition as_file (r : Raster) : RasterFile :=
  {| file_read1 := map (map finite) (read1 r);
     file_nodata := option_map finite (nodata r) |}.

Definition as_file_layer (l : Layer) : FileLayer :=
  {| file_isValid := isValid l; file_dataSource := as_file (dataSource l) |}.

Definition finite_part (v : np_float) : Q :=
  match v with finite q => q | _ => 0 end.

(** The series of pixel [idx], its validity under the mask and the
    number of pixels, for these inputs. *)
Definition file_pixel_series (paths : list RasterFile) (idx : nat)
  : list np_float :=
  map (fun row => nth idx row (finite 0))
      (map (@concat np_float) (map file_read1 paths)).

Definition file_series_valid (nodata_val : option np_float)
           (y : list np_float) : bool :=
  match nodata_val with
  | Some nd => negb (existsb (fun v => np_equal v nd) y)
  | None => true
  end.

Definition file_n_pixels_of (paths : list RasterFile) : nat :=
  (fst (file_shape12 (map file_read1 paths))
   * snd (file_shape12 (map file_read1 paths)))%nat.

(** ** Progress reports, lines 171-172

    The indices at which the loop calls [feedback.setProgress]: the loop
    of [pixel_loop] with the arrays left out.  The call follows the fit,
    so a cancelled or masked iteration reports nothing; the percentage
    passed is a floating-point value and is not modelled. *)
Fixpoint progress_calls (feedback : Feedback) (valid_flat : list bool)
         (n_pixels : nat) (idxs : list nat) : list nat :=
  match idxs with
  | [] => []
  | idx :: rest =>
      if isCanceled feedback idx then []
      else if negb (nth idx valid_flat false) then
        progress_calls feedback valid_flat n_pixels rest
      else if Nat.eqb (idx mod (Nat.max 1 (n_pixels / 100))) 0 then
        idx :: progress_calls feedback valid_flat n_pixels rest
      else progress_calls feedback valid_flat n_pixels rest
  end.

(** ** The scatter-plot arrays, lines 191-193 *)

(** [a[mask]] for a boolean mask of the length of [a]. *)
Definition boolean_index {A} (a : list A) (mask : list bool) : list A :=
  map fst (List.filter snd (zip a mask)).

Record ScatterArrays : Type := {
  actual : vec;
  predicted : vec;
  sample_size : Z
}.

Definition scatter_arrays (paths : list Raster) (out : ForecastOutputs)
  : ScatterArrays :=
  let valid_flat := concat (input_mask paths) in
  let actual := boolean_index (concat (List.last (map read1 paths) [])) valid_flat in
  let predicted := boolean_index (concat (hd [] (pred_grids out))) valid_flat in
  {| actual := actual;
     predicted := predicted;
     sample_size := Z.min 10000 (Z.of_nat (length actual)) |}.

(** ** DownloadVIIRSAnnual, lines 71-72: the selected years *)

Module DownloadVIIRSAnnual.

(** [[str(y) for y in range(2014, 2026)]] *)
Definition years_all : list string := map py.str (py.range 2014 2026).

Inductive py_exn : Type :=
| IndexError : string -> py_exn
| Raised : exn -> py_exn.

(** [[int(years_all[i]) for i in years_idx]] *)
Fixpoint years_sel (years_idx : list Z) : py_exn + list Z :=
  match years_idx with
  | [] => inr []
  | i :: rest =>
      match py.getitem years_all i with
      | None => inl (IndexError "list index out of range")
      | Some s =>
          match py.int s with
          | inl e => inl (Raised e)
          | inr y =>
              match years_sel rest with
              | inl e => inl e
              | inr ys => inr (y :: ys)
              end
          end
      end
  end.

End DownloadVIIRSAnnual.

(** ** Vocabulary of the further properties *)

(** The loop gets past the cancellation check of pixel [idx]. *)
Definition reached (fb : Feedback) (idx : nat) : Prop :=
  forall i, (i <= idx)%nat -> isCanceled fb i = false.

(** The value of pixel [idx] (row-major) in the grid of future year
    number [j]. *)
Definition forecast_at (out : ForecastOutputs) (j idx : nat) : option Q :=
  match pred_grids out !! j with
  | Some grid => concat grid !! idx
  | None => None
  end.

(** The units of a pixel series under each normalisation: the scale [a]
    and the offset [b] for which
      original value = a * normalised value + b.
    MinMax: the range of the series (1 when the range is zero) and its
    minimum; Z-score: its standard deviation (1 when it is zero) and its
    mean; None: 1 and 0. *)
Definition unit_scale (np_sqrt : Q -> Q) (norm_name : NormName) (y : vec) : Q :=
  match norm_name with
  | NormNone => 1
  | MinMax =>
      if Qeq_bool (np_max y - np_min y) 0 then 1 else np_max y - np_min y
  | Zscore =>
      if Qeq_bool (np_sqrt (preprocessing.np_var y)) 0 then 1
      else np_sqrt (preprocessing.np_var y)
  end.

Definition unit_offset (norm_name : NormName) (y : vec) : Q :=
  match norm_name with
  | NormNone => 0
  | MinMax => np_min y
  | Zscore => np_mean y
  end.

(** [original] holds, entry by entry, the values of [normalised] mapped to
    original units. *)
Definition in_original_units (a b : Q) (original normalised : vec) : Prop :=
  Forall2 (fun o n => o == a * n + b) original normalised.

(** The feature rows of a list of years: the year alone for Linear, Ridge
    and Lasso; the bias, the year and its square for Polynomial. *)
Definition year_features (model_name : ModelName) (years : list Z) : matrix :=
  match model_name with
  | Polynomial => bias_year_square years
  | _ => map (fun t => [inject_Z t]) years
  end.

(** The finite numbers an array of dtype float32 holds without rounding:
    m * 2^e with |m| < 2^24 and -149 <= e <= 104. *)
Definition float32_exact (q : Q) : Prop :=
  exists m e : Z,
    (Z.abs m < 2 ^ 24)%Z /\ (-149 <= e <= 104)%Z /\
    q == inject_Z m * Qpower 2 e.

(** Three single-pixel rasters with the values 10, 20 and 30 (acquired,
    say, in 2020, 2021 and 2022). *)
Definition scenario_three_years : list Raster :=
  [ {| read1 := [[10]]; nodata := None |};
    {| read1 := [[20]]; nodata := None |};
    {| read1 := [[30]]; nodata := None |} ].

(** The first pixel of Scenario B with other neighbours. *)
Definition scenario_B_neighbours : list Raster :=
  [ {| read1 := [[1; 4]; [9; 3]]; nodata := Some 7 |};
    {| read1 := [[2; 8]; [0; 5]]; nodata := None |} ].

(** The four ASCII separators (file, group, record and unit separator,
    codes 28 to 31), and text that holds none of them. *)
Definition is_separator (c : ascii) : bool :=
  let n := nat_of_ascii c in Nat.leb 28 n && Nat.leb n 31.

Definition no_separator (s : string) : Prop :=
  py.all_chars (fun c => negb (is_separator c)) s = true.

(** A years text whose second piece is 2031 behind a unit separator. *)
Definition years_text_with_separator : string :=
  ("2030," ++ String (ascii_of_nat 31) "2031")%string.

(** Text the string model is exact for: ASCII characters only, and short
    enough for the interpreter's digit limit. *)
Definition ascii_text (s : string) : Prop :=
  py.all_chars (fun c => Nat.ltb (nat_of_ascii c) 128) s = true /\
  (Z.of_nat (String.length s) <= 4300)%Z.

(** Years that fit the 64-bit integers of the array [future_years]. *)
Definition years_in_int64 (fy_str : string) : Prop :=
  forall ys, parse_future_years fy_str = inr ys ->
             Forall (fun y => (y < 2 ^ 63)%Z) ys.

(** Scenario A as files. *)
Definition scenario_A_files : list (option FileLayer) :=
  map (fun r => Some {| file_isValid := true; file_dataSource := as_file r |})
      scenario_A.

(** Two rasters of two pixels that declare NaN as NoData value; the first
    pixel of the first raster is NaN. *)
Definition scenario_nan_nodata : list (option FileLayer) :=
  [ Some {| file_isValid := true;
            file_dataSource := {| file_read1 := [[np_nan; finite 1]];
                                  file_nodata := Some np_nan |} |};
    Some {| file_isValid := true;
            file_dataSource := {| file_read1 := [[finite 2; finite 3]];
                                  file_nodata := Some np_nan |} |} ].

(** * Properties *)

(** ** The library model on small inputs *)

(** Three points on the line y = 2 t - 4025: the forecast for 2016 is 7. *)
Example LinearRegression_line :
  map Qred (linear_model.predict
              (linear_model.fit linear_model.LinearRegression
                                (reshape_col [2013; 2014; 2015]%Z) [1; 3; 5])
              (reshape_col [2016%Z]))
  = [7].
Proof. vm_compute. reflexivity. Qed.

(** Ridge and Lasso with alpha = 1 on four points: the least-squares
    slope 4/5 is shrunk to 4/6 by Ridge and to (4 - 4)/5 = 0 by Lasso. *)
Example Ridge_Lasso_shrink :
  let X := reshape_col [2013; 2014; 2015; 2016]%Z in
  let y := [1; 2; 4; 3] in
  map Qred (linear_model.coef_ (linear_model.fit linear_model.LinearRegression X y))
  = [4 # 5] /\
  map Qred (linear_model.coef_ (linear_model.fit (linear_model.Ridge 1) X y))
  = [2 # 3] /\
  map Qred (linear_model.coef_ (linear_model.fit (linear_model.Lasso 1) X y))
  = [0].
Proof. vm_compute. repeat split; reflexivity. Qed.

(** A constant series under MinMax: the zero range is replaced by 1, the
    series is mapped to zeros and mapped back to itself. *)
Example MinMax_constant_series :
  let s := preprocessing.MinMaxScaler_fit [5; 5; 5] in
  map Qred (preprocessing.transform s [5; 5; 5]) = [0; 0; 0] /\
  map Qred (preprocessing.inverse_transform s (preprocessing.transform s [5; 5; 5]))
  = [5; 5; 5].
Proof. vm_compute. split; reflexivity. Qed.

(** ** Shapes and row-major flattening *)

Lemma shaped_nil {A} W : @shaped A 0 W [].
Proof. split; [reflexivity | constructor]. Qed.

Lemma shaped_cons_inv {A} H W (r : list A) g :
  shaped H W (r :: g) -> length r = W /\ shaped (pred H) W g.
Proof.
  intros [Hl Hr]. inversion Hr; subst. simpl. repeat split; auto.
Qed.

Lemma shaped_length_concat {A} H W (g : list (list A)) :
  shaped H W g -> length (concat g) = (H * W)%nat.
Proof.
  revert H. induction g as [|r g IH]; intros H Hs.
  - destruct Hs as [<- _]. reflexivity.
  - destruct (shaped_cons_inv _ _ _ _ Hs) as [Hr Hg].
    destruct Hs as [Hl _]. simpl in Hl. subst H.
    simpl. rewrite length_app, (IH _ Hg), Hr. simpl. lia.
Qed.

Lemma shaped_map {A B} (f : A -> B) H W g :
  shaped H W g -> shaped H W (map (map f) g).
Proof.
  intros [Hl Hr]. split.
  - now rewrite length_map.
  - apply Forall_map. eapply Forall_impl; [exact Hr|].
    intros r Hrl. simpl. now rewrite length_map.
Qed.

Lemma shaped_replicate {A} H W (x : A) : shaped H W (replicate H (replicate W x)).
Proof.
  split.
  - apply length_replicate.
  - apply Forall_replicate. apply length_replicate.
Qed.

Lemma shaped_zip_with {A} (f : A -> A -> A) H W a b :
  shaped H W a -> shaped H W b -> shaped H W (zip_with (zip_with f) a b).
Proof.
  revert H b. induction a as [|r a IH]; intros H b Ha Hb.
  - destruct Ha as [<- _]. apply shaped_nil.
  - destruct b as [|s b].
    + destruct Ha as [<- _], Hb as [Hb _]. discriminate.
    + destruct (shaped_cons_inv _ _ _ _ Ha) as [Hr Ha'].
      destruct (shaped_cons_inv _ _ _ _ Hb) as [Hs Hb'].
      destruct Ha as [Hl _]. simpl in Hl.
      split; simpl.
      * f_equal. destruct (IH _ _ Ha' Hb') as [-> _]. lia.
      * constructor.
        -- rewrite length_zip_with. lia.
        -- apply (IH _ _ Ha' Hb').
Qed.

Lemma concat_zip_with2 {A} (f : A -> A -> A) H W a b :
  shaped H W a -> shaped H W b ->
  concat (zip_with (zip_with f) a b) = zip_with f (concat a) (concat b).
Proof.
  revert H b. induction a as [|r a IH]; intros H b Ha Hb.
  - reflexivity.
  - destruct b as [|s b].
    + destruct Ha as [<- _], Hb as [Hb _]. discriminate.
    + destruct (shaped_cons_inv _ _ _ _ Ha) as [Hr Ha'].
      destruct (shaped_cons_inv _ _ _ _ Hb) as [Hs Hb'].
      simpl. rewrite (IH _ _ Ha' Hb').
      symmetry. apply zip_with_app. congruence.
Qed.

Lemma concat_replicate2 {A} H W (x : A) :
  concat (replicate H (replicate W x)) = replicate (H * W) x.
Proof.
  induction H as [|H IH]; [reflexivity|].
  simpl. rewrite IH. symmetry. apply replicate_add.
Qed.

Lemma concat_map_map {A B} (f : A -> B) (g : list (list A)) :
  concat (map (map f) g) = map f (concat g).
Proof. symmetry. apply concat_map. Qed.

Lemma has_shape_shaped H W g : has_shape H W g = true -> shaped H W g.
Proof.
  unfold has_shape. intros Hb.
  apply andb_prop in Hb as [Hl Hr].
  split.
  - now apply Nat.eqb_eq.
  - rewrite forallb_forall in Hr. apply List.Forall_forall.
    intros r Hin. apply Nat.eqb_eq. now apply Hr.
Qed.

Lemma np_stack_ok arrays data :
  np_stack arrays = inr data ->
  data = arrays /\ arrays <> [] /\
  Forall (shaped (fst (shape12 data)) (snd (shape12 data))) data.
Proof.
  unfold np_stack. destruct arrays as [|g rest]; [discriminate|].
  destruct (forallb _ _) eqn:Hall; [|discriminate].
  intros [= <-]. repeat split; [discriminate|].
  rewrite forallb_forall in Hall. apply List.Forall_forall.
  intros x Hin. simpl. apply has_shape_shaped. now apply Hall.
Qed.

Lemma reshape2_elem H W (v : vec) row x :
  In row (reshape2 H W v) -> In x row -> In x v.
Proof.
  revert v. induction H as [|H IH]; intros v; simpl; [tauto|].
  intros [Heq | Hin] Hx.
  - subst row. apply list_elem_of_In. apply list_elem_of_In in Hx.
    exact (subseteq_take W v x Hx).
  - specialize (IH _ Hin Hx).
    apply list_elem_of_In. apply list_elem_of_In in IH.
    exact (subseteq_drop W v x IH).
Qed.

Lemma concat_reshape2 H W (v : vec) :
  length v = (H * W)%nat -> concat (reshape2 H W v) = v.
Proof.
  revert v. induction H as [|H IH]; intros v Hl; simpl in *.
  - now destruct v.
  - rewrite IH; [apply take_drop|].
    rewrite length_drop. lia.
Qed.

(** ** The validity mask, pixel by pixel *)

Lemma existsb_map {A B} (f : B -> bool) (g : A -> B) l :
  existsb f (map g l) = existsb (fun x => f (g x)) l.
Proof. induction l as [|x l IH]; simpl; [reflexivity | now rewrite IH]. Qed.

Lemma shaped_np_any H W bs :
  Forall (shaped H W) bs -> shaped H W (np_any_axis0 H W bs).
Proof.
  induction 1 as [|b bs Hb _ IH]; simpl.
  - apply shaped_replicate.
  - now apply shaped_zip_with.
Qed.

Lemma concat_np_any H W bs :
  Forall (shaped H W) bs ->
  concat (np_any_axis0 H W bs)
  = foldr (zip_with orb) (replicate (H * W) false) (map (@concat bool) bs).
Proof.
  induction 1 as [|b bs Hb Hbs IH]; simpl.
  - apply concat_replicate2.
  - change (foldr (zip_with (zip_with orb)) (replicate H (replicate W false)) bs)
      with (np_any_axis0 H W bs).
    rewrite (concat_zip_with2 orb H W); auto using shaped_np_any.
    now rewrite IH.
Qed.

Lemma length_any_flat n (ls : list (list bool)) :
  Forall (fun l => length l = n) ls ->
  length (foldr (zip_with orb) (replicate n false) ls) = n.
Proof.
  induction 1 as [|l ls Hl _ IH]; simpl.
  - apply length_replicate.
  - rewrite length_zip_with, IH, Hl. lia.
Qed.

Lemma lookup_any_flat n (ls : list (list bool)) idx :
  Forall (fun l => length l = n) ls -> (idx < n)%nat ->
  foldr (zip_with orb) (replicate n false) ls !! idx
  = Some (existsb (fun l => nth idx l false) ls).
Proof.
  intros Hall Hidx. induction Hall as [|l ls Hl Hls IH]; simpl.
  - now apply lookup_replicate_2.
  - rewrite lookup_zip_with, IH.
    destruct (nth_lookup_or_length l idx false) as [-> | Hge]; [reflexivity | lia].
Qed.

Lemma valid_mask_flat nodata_val H W (data : list matrix) idx :
  Forall (shaped H W) data -> (idx < H * W)%nat ->
  concat (valid_mask_of nodata_val H W data) !! idx
  = Some (series_valid nodata_val (column idx (map (@concat Q) data))).
Proof.
  intros Hdata Hidx. destruct nodata_val as [nd|]; simpl.
  - rewrite concat_map_map, list_lookup_fmap.
    rewrite concat_np_any.
    2:{ apply Forall_map. eapply Forall_impl; [exact Hdata|].
        intros g Hg. simpl. now apply shaped_map. }
    rewrite lookup_any_flat; auto.
    2:{ apply Forall_map, Forall_map. eapply Forall_impl; [exact Hdata|].
        intros g Hg. simpl. apply shaped_length_concat. now apply shaped_map. }
    simpl. do 2 f_equal.
    unfold column. rewrite !existsb_map.
    induction Hdata as [|g data Hg _ IH]; simpl; [reflexivity|].
    rewrite IH. f_equal.
    rewrite concat_map_map.
    pose proof (shaped_length_concat _ _ _ Hg) as Hlen.
    destruct (nth_lookup_or_length (concat g) idx 0) as [Hl | Hge]; [|lia].
    erewrite nth_lookup_Some; [reflexivity|].
    now rewrite list_lookup_fmap, Hl.
  - rewrite concat_replicate2. now apply lookup_replicate_2.
Qed.

(** ** The pixel loop *)

Section LoopFacts.
Variable np_sqrt : Q -> Q.
Variable feedback : Feedback.
Variable model_name : ModelName.
Variable norm_name : NormName.
Variables years_feat future_feat : matrix.
Variable valid_flat : list bool.
Variable flat : list vec.

Local Abbreviation loop :=
  (pixel_loop np_sqrt feedback model_name norm_name years_feat future_feat
              valid_flat flat).
Local Abbreviation pixel idx :=
  (fit_pixel np_sqrt model_name norm_name years_feat future_feat
             (column idx flat)).

Lemma visited_incl idxs idx : In idx (visited feedback idxs) -> In idx idxs.
Proof.
  induction idxs as [|i rest IH]; simpl; [tauto|].
  destruct (isCanceled feedback i); simpl; [tauto|].
  intros [-> | Hin]; auto.
Qed.

Lemma denormalize_length s v : length (denormalize s v) = length v.
Proof.
  destruct s as [[? ?|? ?]|]; simpl; try reflexivity; apply length_map.
Qed.

Lemma fit_pixel_pred_length y :
  length (fst (fst (fit_pixel np_sqrt model_name norm_name
                              years_feat future_feat y)))
  = length future_feat.
Proof.
  unfold fit_pixel. destruct (normalize np_sqrt norm_name y) as [scaler y_norm].
  simpl. rewrite denormalize_length.
  unfold linear_model.predict. apply length_map.
Qed.

Lemma set_col_length idx pred P :
  length pred = length P -> length (set_col idx pred P) = length P.
Proof. intros Hl. unfold set_col. rewrite length_zip_with. lia. Qed.

Lemma set_col_cell_ne idx pred P j i :
  length pred = length P -> i <> idx ->
  cell (set_col idx pred P) j i = cell P j i.
Proof.
  intros Hl Hne. unfold cell, set_col. rewrite lookup_zip_with.
  destruct (P !! j) as [row|] eqn:Hrow; simpl; [|reflexivity].
  destruct (pred !! j) as [v|] eqn:Hv; simpl.
  - apply list_lookup_insert_ne. congruence.
  - apply lookup_ge_None in Hv. apply lookup_lt_Some in Hrow. lia.
Qed.

Lemma set_col_cell_eq idx pred P j row :
  P !! j = Some row -> (idx < length row)%nat -> length pred = length P ->
  cell (set_col idx pred P) j idx = pred !! j.
Proof.
  intros Hrow Hidx Hl. unfold cell, set_col. rewrite lookup_zip_with, Hrow.
  simpl. destruct (pred !! j) as [v|] eqn:Hv; simpl.
  - now apply list_lookup_insert_eq.
  - apply lookup_ge_None in Hv. apply lookup_lt_Some in Hrow. lia.
Qed.

Lemma set_col_row_lengths idx pred P :
  length pred = length P ->
  map (@length Q) (set_col idx pred P) = map (@length Q) P.
Proof.
  revert pred. induction P as [|row P IH]; intros [|v pred] Hl;
    simpl in *; try discriminate; try reflexivity.
  rewrite length_insert. f_equal. apply IH. lia.
Qed.

(** The loop never changes the shape of the three arrays. *)
Lemma pixel_loop_shape idxs st :
  length (preds st) = length future_feat ->
  let st' := loop idxs st in
  length (r2_vals st') = length (r2_vals st) /\
  length (rmse_vals st') = length (rmse_vals st) /\
  map (@length Q) (preds st') = map (@length Q) (preds st).
Proof.
  revert st. induction idxs as [|idx rest IH]; intros st Hp; simpl.
  - auto.
  - destruct (isCanceled feedback idx); [auto|].
    destruct (negb (nth idx valid_flat false)); [now apply IH|].
    pose proof (fit_pixel_pred_length (column idx flat)) as Hlen.
    destruct (pixel idx) as [[pred r2] rmse]. simpl in Hlen.
    match goal with |- context [loop rest ?s] => specialize (IH s) end.
    simpl in IH.
    rewrite set_col_length in IH by congruence.
    destruct (IH Hp) as (H1 & H2 & H3).
    rewrite H1, H2, H3, !length_insert.
    rewrite set_col_row_lengths by congruence. auto.
Qed.

(** A pixel that is not both visited and valid keeps its entries. *)
Lemma pixel_loop_untouched idxs st idx :
  length (preds st) = length future_feat ->
  ~ (In idx (visited feedback idxs) /\ nth idx valid_flat false = true) ->
  let st' := loop idxs st in
  r2_vals st' !! idx = r2_vals st !! idx /\
  rmse_vals st' !! idx = rmse_vals st !! idx /\
  forall j, cell (preds st') j idx = cell (preds st) j idx.
Proof.
  revert st. induction idxs as [|i rest IH]; intros st Hp Hnot; simpl.
  - auto.
  - simpl in Hnot. destruct (isCanceled feedback i); [auto|].
    destruct (nth i valid_flat false) eqn:Hv; simpl.
    + pose proof (fit_pixel_pred_length (column i flat)) as Hlen.
      destruct (pixel i) as [[pred r2] rmse]. simpl in Hlen.
      assert (Hne : i <> idx).
      { intros ->. apply Hnot. split; [now left | exact Hv]. }
      match goal with |- context [loop rest ?s] => specialize (IH s) end.
      simpl in IH. rewrite set_col_length in IH by congruence.
      destruct (IH Hp) as (H1 & H2 & H3).
      { intros [Hin Hval]. apply Hnot. split; [now right | exact Hval]. }
      rewrite H1, H2, !list_lookup_insert_ne by exact Hne.
      repeat split; auto.
      intros j. rewrite H3. apply set_col_cell_ne; congruence.
    + apply IH; [exact Hp|].
      intros [Hin Hval]. apply Hnot. split; [|exact Hval].
      right; exact Hin.
Qed.

(** A visited valid pixel holds the results of its own fit. *)
Lemma pixel_loop_fitted idxs st idx :
  NoDup idxs ->
  length (preds st) = length future_feat ->
  In idx (visited feedback idxs) -> nth idx valid_flat false = true ->
  (idx < length (r2_vals st))%nat -> (idx < length (rmse_vals st))%nat ->
  Forall (fun row => (idx < length row)%nat) (preds st) ->
  let st' := loop idxs st in
  r2_vals st' !! idx = Some (snd (fst (pixel idx))) /\
  rmse_vals st' !! idx = Some (snd (pixel idx)) /\
  forall j, (j < length future_feat)%nat ->
            cell (preds st') j idx = fst (fst (pixel idx)) !! j.
Proof.
  revert st. induction idxs as [|i rest IH];
    intros st Hnd Hp Hin Hval Hr2 Hrmse Hrows; simpl in *; [tauto|].
  apply NoDup_cons in Hnd as [Hfresh Hnd].
  destruct (isCanceled feedback i); [simpl in Hin; tauto|].
  destruct Hin as [-> | Hin].
  - rewrite Hval. simpl.
    pose proof (fit_pixel_pred_length (column idx flat)) as Hlen.
    destruct (pixel idx) as [[pred r2] rmse]. simpl in *.
    match goal with |- context [loop rest ?s] =>
      destruct (pixel_loop_untouched rest s idx) as (H1 & H2 & H3)
    end.
    { simpl. rewrite set_col_length; congruence. }
    { intros [Hin _]. apply Hfresh. apply list_elem_of_In.
      now apply visited_incl. }
    simpl in *. rewrite H1, H2, !list_lookup_insert_eq by assumption.
    repeat split; auto.
    intros j Hj. rewrite H3.
    destruct (lookup_lt_is_Some_2 (preds st) j) as [row Hrow]; [lia|].
    eapply set_col_cell_eq; eauto; [|congruence].
    rewrite List.Forall_forall in Hrows. apply Hrows.
    apply list_elem_of_In. eapply list_elem_of_lookup_2; eauto.
  - destruct (nth i valid_flat false) eqn:Hv; simpl.
    + pose proof (fit_pixel_pred_length (column i flat)) as Hlen.
      destruct (pixel i) as [[pred r2] rmse]. simpl in Hlen.
      apply IH; simpl; auto.
      * rewrite set_col_length; congruence.
      * now rewrite length_insert.
      * now rewrite length_insert.
      * apply List.Forall_forall. intros row Hrow.
        unfold set_col in Hrow.
        apply list_elem_of_In, list_elem_of_lookup in Hrow as [j Hj].
        rewrite lookup_zip_with in Hj.
        destruct (preds st !! j) as [row0|] eqn:Hrow0; simpl in Hj; [|discriminate].
        destruct (pred !! j) as [v|]; simpl in Hj; [|discriminate].
        injection Hj as <-. rewrite length_insert.
        rewrite List.Forall_forall in Hrows. apply Hrows.
        apply list_elem_of_In. eapply list_elem_of_lookup_2; eauto.
    + apply IH; auto.
Qed.

(** Cancellation at the check before pixel [a + k] leaves exactly the
    first [k] indices of [seq a n] visited. *)
Lemma visited_seq a n k :
  (k <= n)%nat ->
  (forall i, (a <= i < a + k)%nat -> isCanceled feedback i = false) ->
  ((k < n)%nat -> isCanceled feedback (a + k) = true) ->
  visited feedback (seq a n) = seq a k.
Proof.
  revert a k. induction n as [|n IH]; intros a k Hk Hno Hyes; simpl.
  - now replace k with O by lia.
  - destruct k as [|k].
    + rewrite Nat.add_0_r in Hyes. rewrite Hyes by lia. reflexivity.
    + rewrite Hno by lia. simpl. f_equal.
      apply IH; [lia | |].
      * intros i Hi. apply Hno. lia.
      * intros Hlt. replace (S a + k)%nat with (a + S k)%nat by lia.
        apply Hyes. lia.
Qed.

End LoopFacts.

(** ** From the loop to the outputs of [fit_and_forecast] *)

Lemma expand_features_lengths model_name ys fs yf ff :
  expand_features model_name ys fs = inr (yf, ff) ->
  length yf = length ys /\ length ff = length fs.
Proof.
  unfold expand_features, preprocessing.PolynomialFeatures_transform.
  destruct model_name; try (intros [= <- <-]; auto).
  destruct (forallb _ ys); simpl; [|discriminate].
  destruct (forallb _ fs); simpl; [|discriminate].
  intros [= <- <-]. now rewrite !length_map.
Qed.

Lemma fit_and_forecast_inv np_sqrt paths future model_name norm_name fb out :
  fit_and_forecast np_sqrt paths future model_name norm_name fb = inr out ->
  exists yf ff,
    np_stack (map read1 paths) = inr (map read1 paths) /\
    expand_features model_name (reshape_col (observed_years paths))
                    (reshape_col future) = inr (yf, ff) /\
    let H := fst (shape12 (map read1 paths)) in
    let W := snd (shape12 (map read1 paths)) in
    let st :=
      pixel_loop np_sqrt fb model_name norm_name yf ff
                 (concat (input_mask paths)) (flat_of paths)
                 (seq 0 (n_pixels_of paths))
                 (initial_arrays (length future) (n_pixels_of paths)) in
    out = {| pred_grids :=
               map (fun row => reshape2 H W (map (fun v => Qmax v 0) row))
                   (preds st);
             out_r2 := r2_vals st;
             out_rmse := rmse_vals st |}.
Proof.
  unfold fit_and_forecast, n_pixels_of, flat_of, input_mask.
  destruct (np_stack (map read1 paths)) as [e|data] eqn:Hstack; simpl; [discriminate|].
  destruct (np_stack_ok _ _ Hstack) as (-> & _ & _).
  destruct (shape12 (map read1 paths)) as [H W] eqn:Hshape.
  destruct (expand_features _ _ _) as [e|[yf ff]] eqn:Hfeat; simpl; [discriminate|].
  intros [= <-]. exists yf, ff. repeat split.
  unfold reshape_col. now rewrite length_map.
Qed.

Lemma loop_rows np_sqrt fb model_name norm_name yf ff valid_flat flat idxs n :
  let st' := pixel_loop np_sqrt fb model_name norm_name yf ff valid_flat flat
                        idxs (initial_arrays (length ff) n) in
  length (preds st') = length ff /\
  map (@length Q) (preds st') = replicate (length (preds st')) n.
Proof.
  destruct (pixel_loop_shape np_sqrt fb model_name norm_name yf ff
              valid_flat flat idxs (initial_arrays (length ff) n))
    as (_ & _ & H3).
  { simpl. apply length_replicate. }
  simpl in *.
  assert (Hl : length (preds (pixel_loop np_sqrt fb model_name norm_name yf ff
             valid_flat flat idxs (initial_arrays (length ff) n))) = length ff).
  { apply (f_equal (@length nat)) in H3.
    now rewrite !length_map, length_replicate in H3. }
  split; [exact Hl|].
  rewrite H3, Hl. clear.
  induction (length ff) as [|m IH]; simpl; [reflexivity|].
  now rewrite IH, length_replicate.
Qed.

(** Reading pixel [idx] of the floored and reshaped grids. *)
Lemma grid_lookup (P : list vec) H W j idx grid :
  map (@length Q) P = replicate (length P) (H * W)%nat ->
  map (fun row => reshape2 H W (map (fun v => Qmax v 0) row)) P !! j = Some grid ->
  concat grid !! idx
  = option_map (fun v => Qmax v 0) (cell P j idx).
Proof.
  intros Hlen Hj. rewrite list_lookup_fmap in Hj. unfold cell.
  destruct (P !! j) as [row|] eqn:Hrow; simpl in Hj; [|discriminate].
  injection Hj as <-.
  assert (Hl : length row = (H * W)%nat).
  { apply (f_equal (fun l => l !! j)) in Hlen.
    rewrite list_lookup_fmap, Hrow in Hlen. simpl in Hlen.
    apply lookup_lt_Some in Hrow.
    rewrite lookup_replicate_2 in Hlen by exact Hrow. congruence. }
  rewrite concat_reshape2 by (now rewrite length_map).
  rewrite list_lookup_fmap. now destruct (row !! idx).
Qed.

Lemma fit_and_forecast_shaped np_sqrt paths future model_name norm_name fb out :
  fit_and_forecast np_sqrt paths future model_name norm_name fb = inr out ->
  Forall (shaped (fst (shape12 (map read1 paths)))
                 (snd (shape12 (map read1 paths)))) (map read1 paths).
Proof.
  intros Hrun.
  destruct (fit_and_forecast_inv _ _ _ _ _ _ _ Hrun) as (yf & ff & Hst & _).
  now destruct (np_stack_ok _ _ Hst) as (_ & _ & Hsh).
Qed.

Lemma input_mask_lookup np_sqrt paths future model_name norm_name fb out idx :
  fit_and_forecast np_sqrt paths future model_name norm_name fb = inr out ->
  (idx < n_pixels_of paths)%nat ->
  nth idx (concat (input_mask paths)) false
  = series_valid (first_nodata paths) (pixel_series paths idx).
Proof.
  intros Hrun Hidx. apply nth_lookup_Some.
  apply valid_mask_flat; [|exact Hidx].
  eapply fit_and_forecast_shaped; eauto.
Qed.

Lemma out_lengths np_sqrt paths future model_name norm_name fb out :
  fit_and_forecast np_sqrt paths future model_name norm_name fb = inr out ->
  length (out_r2 out) = n_pixels_of paths /\
  length (out_rmse out) = n_pixels_of paths /\
  length (pred_grids out) = length future.
Proof.
  intros Hrun.
  destruct (fit_and_forecast_inv _ _ _ _ _ _ _ Hrun) as (yf & ff & _ & Hf & ->).
  destruct (expand_features_lengths _ _ _ _ _ Hf) as [_ Hff].
  unfold reshape_col in Hff. rewrite length_map in Hff. rewrite <- Hff.
  simpl.
  match goal with |- context [pixel_loop _ _ _ _ _ _ ?v ?f ?idxs ?s] =>
    destruct (pixel_loop_shape np_sqrt fb model_name norm_name yf ff v f idxs s)
      as (H1 & H2 & _); [simpl; apply length_replicate|];
    destruct (loop_rows np_sqrt fb model_name norm_name yf ff v f idxs
                        (n_pixels_of paths)) as (H3 & _)
  end.
  simpl in *. rewrite H1, H2, !length_replicate, length_map. auto.
Qed.

(** A pixel that was not both visited and valid keeps the defaults. *)
Lemma forecast_default np_sqrt paths future model_name norm_name fb out idx :
  fit_and_forecast np_sqrt paths future model_name norm_name fb = inr out ->
  (idx < n_pixels_of paths)%nat ->
  ~ (In idx (visited fb (seq 0 (n_pixels_of paths))) /\
     series_valid (first_nodata paths) (pixel_series paths idx) = true) ->
  out_r2 out !! idx = Some nan /\
  out_rmse out !! idx = Some nan /\
  Forall (fun grid => concat grid !! idx = Some 0) (pred_grids out).
Proof.
  intros Hrun Hidx Hnot.
  rewrite <- (input_mask_lookup _ _ _ _ _ _ _ _ Hrun Hidx) in Hnot.
  destruct (fit_and_forecast_inv _ _ _ _ _ _ _ Hrun) as (yf & ff & _ & Hf & ->).
  destruct (expand_features_lengths _ _ _ _ _ Hf) as [_ Hff].
  unfold reshape_col in Hff. rewrite length_map in Hff. rewrite <- Hff.
  simpl.
  match goal with |- context [pixel_loop _ _ _ _ _ _ ?v ?f ?idxs ?s] =>
    destruct (pixel_loop_untouched np_sqrt fb model_name norm_name yf ff
                v f idxs s idx) as (H1 & H2 & H3);
    [simpl; apply length_replicate | exact Hnot |];
    destruct (loop_rows np_sqrt fb model_name norm_name yf ff v f idxs
                        (n_pixels_of paths)) as (H4 & H5)
  end.
  simpl in *. rewrite H1, H2, !lookup_replicate_2 by exact Hidx.
  repeat split.
  apply List.Forall_forall. intros grid Hin.
  apply list_elem_of_In, list_elem_of_lookup in Hin as [j Hj].
  erewrite grid_lookup; [|exact H5|exact Hj].
  rewrite H3. unfold cell.
  apply lookup_lt_Some in Hj. rewrite length_map, H4 in Hj.
  rewrite lookup_replicate_2 by exact Hj.
  now rewrite lookup_replicate_2 by exact Hidx.
Qed.

(** A visited valid pixel holds the results of its own fit, floored at 0
    in the grids. *)
Lemma forecast_fitted np_sqrt paths future model_name norm_name fb out idx :
  fit_and_forecast np_sqrt paths future model_name norm_name fb = inr out ->
  (idx < n_pixels_of paths)%nat ->
  In idx (visited fb (seq 0 (n_pixels_of paths))) ->
  series_valid (first_nodata paths) (pixel_series paths idx) = true ->
  exists yf ff,
    expand_features model_name (reshape_col (observed_years paths))
                    (reshape_col future) = inr (yf, ff) /\
    let res := fit_pixel np_sqrt model_name norm_name yf ff
                         (pixel_series paths idx) in
    out_r2 out !! idx = Some (snd (fst res)) /\
    out_rmse out !! idx = Some (snd res) /\
    forall j grid, pred_grids out !! j = Some grid ->
      concat grid !! idx
      = option_map (fun v => Qmax v 0) (fst (fst res) !! j).
Proof.
  intros Hrun Hidx Hvis Hval.
  rewrite <- (input_mask_lookup _ _ _ _ _ _ _ _ Hrun Hidx) in Hval.
  destruct (fit_and_forecast_inv _ _ _ _ _ _ _ Hrun) as (yf & ff & _ & Hf & ->).
  exists yf, ff. split; [exact Hf|].
  destruct (expand_features_lengths _ _ _ _ _ Hf) as [_ Hff].
  unfold reshape_col in Hff. rewrite length_map in Hff. rewrite <- Hff.
  simpl.
  match goal with |- context [pixel_loop _ _ _ _ _ _ ?v ?f ?idxs ?s] =>
    destruct (pixel_loop_fitted np_sqrt fb model_name norm_name yf ff
                v f idxs s idx) as (H1 & H2 & H3);
    [ apply NoDup_seq | simpl; apply length_replicate | exact Hvis | exact Hval
    | simpl; now rewrite length_replicate
    | simpl; now rewrite length_replicate
    | simpl; apply Forall_replicate; now rewrite length_replicate | ];
    destruct (loop_rows np_sqrt fb model_name norm_name yf ff v f idxs
                        (n_pixels_of paths)) as (H4 & H5)
  end.
  simpl in *. unfold pixel_series. rewrite H1, H2. repeat split.
  intros j grid Hj.
  erewrite grid_lookup; [|exact H5|exact Hj].
  f_equal. apply H3.
  apply lookup_lt_Some in Hj. now rewrite length_map, H4 in Hj.
Qed.

(** The loop consults the feedback object only through the answers it
    gives at the indices it iterates over. *)
Lemma pixel_loop_ext np_sqrt fb fb' model_name norm_name yf ff valid_flat flat
      idxs st :
  (forall idx, In idx idxs -> isCanceled fb idx = isCanceled fb' idx) ->
  pixel_loop np_sqrt fb model_name norm_name yf ff valid_flat flat idxs st
  = pixel_loop np_sqrt fb' model_name norm_name yf ff valid_flat flat idxs st.
Proof.
  revert st. induction idxs as [|idx rest IH]; intros st Hagree; simpl.
  - reflexivity.
  - rewrite <- (Hagree idx) by (now left).
    destruct (isCanceled fb idx); [reflexivity|].
    destruct (negb (nth idx valid_flat false)).
    + apply IH. intros i Hi. apply Hagree. now right.
    + destruct (fit_pixel _ _ _ _ _ _) as [[pred r2] rmse].
      apply IH. intros i Hi. apply Hagree. now right.
Qed.

Lemma fit_and_forecast_ext np_sqrt paths future model_name norm_name fb fb' :
  (forall idx, isCanceled fb idx = isCanceled fb' idx) ->
  fit_and_forecast np_sqrt paths future model_name norm_name fb
  = fit_and_forecast np_sqrt paths future model_name norm_name fb'.
Proof.
  intros Hagree. unfold fit_and_forecast.
  destruct (np_stack (map read1 paths)) as [e|data]; simpl; [reflexivity|].
  destruct (shape12 data) as [H W].
  destruct (expand_features _ _ _) as [e|[yf ff]]; simpl; [reflexivity|].
  now rewrite (pixel_loop_ext np_sqrt fb fb') by auto.
Qed.

(** ** Scenario A *)

(** C1.  Two 2x2 grids, all 1 then all 2, observed in 2013 and 2014, no
    NoData value, model Linear, no normalisation, forecast year 2015, and
    a run that is not cancelled: the forecast succeeds with a single 2x2
    grid whose every pixel equals 3, and the R2 array holds 1.0 at each of
    the four pixels. *)
Theorem C1_scenario_A (np_sqrt : Q -> Q) (fb : Feedback) :
  (forall idx, isCanceled fb idx = false) ->
  observed_years scenario_A = [2013; 2014]%Z /\
  exists out grid,
    fit_and_forecast np_sqrt scenario_A [2015%Z] Linear NormNone fb = inr out /\
    pred_grids out = [grid] /\
    shaped 2 2 grid /\
    Forall (Forall (fun v => v == 3)) grid /\
    out_r2 out = [num 1; num 1; num 1; num 1].
Proof.
  intros Hno. split; [reflexivity|].
  rewrite (fit_and_forecast_ext np_sqrt _ _ _ _ fb never_canceled)
    by (intros idx; apply Hno).
  eexists. eexists. split; [vm_compute; reflexivity|].
  split; [reflexivity|]. split.
  - split; [reflexivity | repeat constructor].
  - split; [|reflexivity].
    repeat constructor.
Qed.

Lemma C1_scenario_A_witness :
  (forall idx, isCanceled never_canceled idx = false) /\
  observed_years scenario_A = [2013; 2014]%Z /\
  exists out grid,
    fit_and_forecast (fun q => q) scenario_A [2015%Z] Linear NormNone
                     never_canceled = inr out /\
    pred_grids out = [grid] /\
    shaped 2 2 grid /\
    Forall (Forall (fun v => v == 3)) grid /\
    out_r2 out = [num 1; num 1; num 1; num 1].
Proof.
  split; [reflexivity|].
  apply (C1_scenario_A (fun q => q) never_canceled). reflexivity.
Defined.

(** ** Validity and skipped pixels *)

Lemma series_valid_spec nodata_val (y : vec) :
  series_valid nodata_val y = true <->
  match nodata_val with
  | Some nd => Forall (fun v => ~ v == nd) y
  | None => True
  end.
Proof.
  destruct nodata_val as [nd|]; simpl; [|tauto].
  rewrite negb_true_iff. split.
  - intros Hex. apply List.Forall_forall. intros v Hin Heq.
    assert (existsb (fun v => Qeq_bool v nd) y = true); [|congruence].
    apply existsb_exists. exists v. split; [exact Hin|].
    now apply Qeq_bool_iff.
  - intros Hall. destruct (existsb _ y) eqn:Hex; [|reflexivity].
    apply existsb_exists in Hex as (v & Hin & Heq).
    rewrite List.Forall_forall in Hall.
    exfalso. apply (Hall v Hin). now apply Qeq_bool_iff.
Qed.

(** C2.  In a run of the forecast, the mask entry of pixel [idx] is true
    exactly when none of the values of its series equals the NoData
    sentinel (always, when there is no sentinel); and a pixel whose mask
    entry is false is skipped: it reads 0 in every floored prediction grid
    and NaN in the R2 and RMSE arrays. *)
Theorem C2_invalid_pixels_skipped
        np_sqrt paths future model_name norm_name fb out idx :
  fit_and_forecast np_sqrt paths future model_name norm_name fb = inr out ->
  (idx < n_pixels_of paths)%nat ->
  (nth idx (concat (input_mask paths)) false = true <->
   match first_nodata paths with
   | Some nd => Forall (fun v => ~ v == nd) (pixel_series paths idx)
   | None => True
   end) /\
  (nth idx (concat (input_mask paths)) false = false ->
   Forall (fun grid => concat grid !! idx = Some 0) (pred_grids out) /\
   out_r2 out !! idx = Some nan /\
   out_rmse out !! idx = Some nan).
Proof.
  intros Hrun Hidx.
  rewrite (input_mask_lookup _ _ _ _ _ _ _ _ Hrun Hidx).
  split; [apply series_valid_spec|].
  intros Hinvalid.
  destruct (forecast_default _ _ _ _ _ _ _ idx Hrun Hidx) as (H1 & H2 & H3).
  - intros [_ Hvalid]. congruence.
  - auto.
Qed.

Lemma C2_invalid_pixels_skipped_witness :
  exists out,
    fit_and_forecast (fun q => q) scenario_B [2015%Z; 2020%Z] Ridge Zscore
                     never_canceled = inr out /\
    (3 < n_pixels_of scenario_B)%nat /\
    nth 3 (concat (input_mask scenario_B)) false = false /\
    Forall (fun grid => concat grid !! 3%nat = Some 0) (pred_grids out) /\
    out_r2 out !! 3%nat = Some nan /\
    out_rmse out !! 3%nat = Some nan.
Proof.
  eexists. split; [vm_compute; reflexivity|].
  split; [vm_compute; lia|].
  split; [reflexivity|].
  eapply (C2_invalid_pixels_skipped (fun q => q) scenario_B [2015%Z; 2020%Z]
            Ridge Zscore never_canceled _ 3%nat).
  - vm_compute; reflexivity.
  - vm_compute; lia.
  - reflexivity.
Defined.

(** ** The non-negativity floor *)

(** C3.  Whatever the inputs, the model and the normalisation, every entry
    of every prediction grid returned by the forecast is at least 0. *)
Theorem C3_predictions_nonnegative
        np_sqrt paths future model_name norm_name fb out :
  fit_and_forecast np_sqrt paths future model_name norm_name fb = inr out ->
  Forall (Forall (Forall (fun v => 0 <= v))) (pred_grids out).
Proof.
  intros Hrun.
  destruct (fit_and_forecast_inv _ _ _ _ _ _ _ Hrun) as (yf & ff & _ & _ & ->).
  simpl. apply Forall_map. apply List.Forall_forall. intros prow _. simpl.
  apply List.Forall_forall. intros row Hrow.
  apply List.Forall_forall. intros v Hv.
  pose proof (reshape2_elem _ _ _ _ _ Hrow Hv) as Hin.
  apply in_map_iff in Hin as (raw & <- & _).
  apply Q.le_max_r.
Qed.

Lemma C3_predictions_nonnegative_witness :
  map Qred (fst (fst (fit_pixel (fun q => q) Linear NormNone
                        (reshape_col [2013; 2014]%Z) (reshape_col [2020%Z])
                        (pixel_series scenario_decreasing 0))))
  = [(-16) # 1] /\
  exists out,
    fit_and_forecast (fun q => q) scenario_decreasing [2020%Z] Linear NormNone
                     never_canceled = inr out /\
    pred_grids out = [[[0]]] /\
    Forall (Forall (Forall (fun v => 0 <= v))) (pred_grids out).
Proof.
  split; [vm_compute; reflexivity|].
  eexists. split; [vm_compute; reflexivity|].
  split; [reflexivity|].
  eapply (C3_predictions_nonnegative (fun q => q) scenario_decreasing [2020%Z]
            Linear NormNone never_canceled).
  vm_compute; reflexivity.
Defined.

(** ** Normaliser round trip *)

Lemma handle_zeros_nonzero s : ~ preprocessing.handle_zeros_in_scale s == 0.
Proof.
  unfold preprocessing.handle_zeros_in_scale.
  destruct (Qeq_bool s 0) eqn:Hs.
  - discriminate.
  - intros Heq. apply Qeq_bool_iff in Heq. congruence.
Qed.

Lemma MinMaxScaler_fit_scale y :
  ~ scale_of (preprocessing.MinMaxScaler_fit y) == 0.
Proof.
  unfold preprocessing.MinMaxScaler_fit. simpl.
  set (h := preprocessing.handle_zeros_in_scale _).
  pose proof (handle_zeros_nonzero (np_max y - np_min y)) as Hh. fold h in Hh.
  intros Heq. apply Hh.
  assert (Hinv : / h == 0) by (rewrite <- Heq; unfold Qdiv; ring).
  rewrite <- (Qinv_involutive h), Hinv. reflexivity.
Qed.

Lemma StandardScaler_fit_scale np_sqrt y :
  ~ scale_of (preprocessing.StandardScaler_fit np_sqrt y) == 0.
Proof. apply handle_zeros_nonzero. Qed.

Lemma scaler_round_trip s (v : vec) :
  ~ scale_of s == 0 ->
  Forall2 Qeq (preprocessing.inverse_transform s (preprocessing.transform s v)) v.
Proof.
  intros Hs. destruct s as [scale min_ | mean_ scale]; simpl in *.
  - induction v as [|x v IH]; simpl; constructor; [|exact IH].
    field. exact Hs.
  - induction v as [|x v IH]; simpl; constructor; [|exact IH].
    field. exact Hs.
Qed.

(** C4.  For each normalisation kind and every series that is not
    degenerate for it, undoing the normalisation of the normalised series
    gives back the series, value by value. *)
Theorem C4_normalizer_round_trip (np_sqrt : Q -> Q) norm_name (y : vec) :
  non_degenerate np_sqrt norm_name y ->
  Forall2 Qeq
          (denormalize (fst (normalize np_sqrt norm_name y))
                       (snd (normalize np_sqrt norm_name y)))
          y.
Proof.
  intros _. destruct norm_name.
  - simpl. induction y; constructor; [reflexivity | assumption].
  - exact (scaler_round_trip (preprocessing.MinMaxScaler_fit y) y
                             (MinMaxScaler_fit_scale y)).
  - exact (scaler_round_trip (preprocessing.StandardScaler_fit np_sqrt y) y
                             (StandardScaler_fit_scale np_sqrt y)).
Qed.

Lemma C4_normalizer_round_trip_witness :
  (non_degenerate sqrt_floor MinMax [1; 2; 4] /\
   Forall2 Qeq
     (denormalize (fst (normalize sqrt_floor MinMax [1; 2; 4]))
                  (snd (normalize sqrt_floor MinMax [1; 2; 4])))
     [1; 2; 4]) /\
  (non_degenerate sqrt_floor Zscore [1; 3] /\
   Forall2 Qeq
     (denormalize (fst (normalize sqrt_floor Zscore [1; 3]))
                  (snd (normalize sqrt_floor Zscore [1; 3])))
     [1; 3]).
Proof.
  assert (H1 : non_degenerate sqrt_floor MinMax [1; 2; 4])
    by (vm_compute; discriminate).
  assert (H2 : non_degenerate sqrt_floor Zscore [1; 3])
    by (vm_compute; discriminate).
  split; split; try assumption.
  - exact (C4_normalizer_round_trip sqrt_floor MinMax [1; 2; 4] H1).
  - exact (C4_normalizer_round_trip sqrt_floor Zscore [1; 3] H2).
Defined.

(** ** Metrics of a fitted pixel *)

Lemma visited_reached fb a n idx :
  (a <= idx < a + n)%nat ->
  (forall i, (a <= i <= idx)%nat -> isCanceled fb i = false) ->
  In idx (visited fb (seq a n)).
Proof.
  revert a. induction n as [|n IH]; intros a Hidx Hno; simpl; [lia|].
  rewrite Hno by lia.
  destruct (Nat.eq_dec a idx) as [-> | Hne]; [now left|].
  right. apply IH; [lia|].
  intros i Hi. apply Hno. lia.
Qed.

Lemma fit_pixel_metrics np_sqrt model_name norm_name yf ff y :
  snd (fst (fit_pixel np_sqrt model_name norm_name yf ff y))
  = r2_normalized_space np_sqrt model_name norm_name yf y /\
  snd (fit_pixel np_sqrt model_name norm_name yf ff y)
  = num (rmse_original_units np_sqrt model_name norm_name yf y).
Proof.
  unfold fit_pixel, r2_normalized_space, rmse_original_units.
  destruct (normalize np_sqrt norm_name y) as [scaler y_norm].
  split; reflexivity.
Qed.

Lemma Forall2_map_right {A} (R : A -> A -> Prop) (f : A -> A) (l : list A) :
  (forall x, R x (f x)) -> Forall2 R l (map f l).
Proof. intros H. induction l; simpl; constructor; auto. Qed.

Lemma Forall2_map_left {A} (R : A -> A -> Prop) (f : A -> A) (l : list A) :
  (forall x, R (f x) x) -> Forall2 R (map f l) l.
Proof. intros H. induction l; simpl; constructor; auto. Qed.

Lemma unit_scale_nonzero np_sqrt norm_name y :
  ~ unit_scale np_sqrt norm_name y == 0.
Proof.
  destruct norm_name; simpl.
  - discriminate.
  - apply handle_zeros_nonzero.
  - apply handle_zeros_nonzero.
Qed.

(** What [normalize] and [denormalize] are in terms of the units of the
    series. *)
Lemma normalize_units np_sqrt norm_name (y : vec) :
  in_original_units (unit_scale np_sqrt norm_name y) (unit_offset norm_name y)
                    y (snd (normalize np_sqrt norm_name y)).
Proof.
  pose proof (unit_scale_nonzero np_sqrt norm_name y) as Ha.
  destruct norm_name; cbn [normalize snd unit_scale unit_offset] in *.
  - induction y; constructor; [ring | assumption].
  - unfold preprocessing.MinMaxScaler_fit, preprocessing.transform,
      preprocessing.handle_zeros_in_scale.
    set (h := if Qeq_bool (np_max y - np_min y) 0 then 1 else _) in *.
    apply Forall2_map_right. intros x. field. exact Ha.
  - unfold preprocessing.StandardScaler_fit, preprocessing.transform,
      preprocessing.handle_zeros_in_scale.
    set (h := if Qeq_bool (np_sqrt (preprocessing.np_var y)) 0 then 1 else _) in *.
    apply Forall2_map_right. intros x. field. exact Ha.
Qed.

Lemma denormalize_units np_sqrt norm_name (y v : vec) :
  in_original_units (unit_scale np_sqrt norm_name y) (unit_offset norm_name y)
                    (denormalize (fst (normalize np_sqrt norm_name y)) v) v.
Proof.
  pose proof (unit_scale_nonzero np_sqrt norm_name y) as Ha.
  destruct norm_name; cbn [normalize fst denormalize unit_scale unit_offset] in *.
  - induction v; constructor; [ring | assumption].
  - unfold preprocessing.MinMaxScaler_fit, preprocessing.inverse_transform,
      preprocessing.handle_zeros_in_scale.
    set (h := if Qeq_bool (np_max y - np_min y) 0 then 1 else _) in *.
    apply Forall2_map_left. intros x. field. exact Ha.
  - unfold preprocessing.StandardScaler_fit, preprocessing.inverse_transform,
      preprocessing.handle_zeros_in_scale.
    set (h := if Qeq_bool (np_sqrt (preprocessing.np_var y)) 0 then 1 else _) in *.
    apply Forall2_map_left. intros x. ring.
Qed.

(** One pixel, with the normalisation written out: the model is fitted on
    the normalised series, R2 is its score there, and the reconstruction
    and the forecast are its predictions brought to original units. *)
Lemma fit_pixel_units np_sqrt model_name norm_name yf ff (y : vec) :
  let a := unit_scale np_sqrt norm_name y in
  let b := unit_offset norm_name y in
  exists y_norm reconstruction pred,
    in_original_units a b y y_norm /\
    in_original_units a b reconstruction
      (linear_model.predict
         (linear_model.fit (select_model model_name) yf y_norm) yf) /\
    in_original_units a b pred
      (linear_model.predict
         (linear_model.fit (select_model model_name) yf y_norm) ff) /\
    fit_pixel np_sqrt model_name norm_name yf ff y
    = (pred,
       r2_score y_norm
         (linear_model.predict
            (linear_model.fit (select_model model_name) yf y_norm) yf),
       num (np_sqrt (np_mean (map sq (vsub reconstruction y))))).
Proof.
  intros a b.
  pose proof (normalize_units np_sqrt norm_name y) as Hn.
  pose proof (denormalize_units np_sqrt norm_name y) as Hd.
  fold a b in Hn, Hd. unfold fit_pixel.
  destruct (normalize np_sqrt norm_name y) as [scaler y_norm].
  cbn [fst snd] in Hn, Hd.
  exists y_norm. eexists. eexists.
  split; [exact Hn|].
  split; [apply Hd|].
  split; [apply Hd|].
  reflexivity.
Qed.

(** C5.  For every pixel the loop fitted (valid, and reached without
    cancellation), with a and b the scale and the offset of its series
    under the chosen normalisation: the model is fitted on the normalised
    series, the values n with  observed = a * n + b;  the recorded R2 is
    the coefficient of determination of the model on that normalised
    series; the recorded RMSE is the root mean square of reconstruction
    minus observed series, the reconstruction being the in-sample
    predictions p brought back to original units, a * p + b. *)
Theorem C5_metric_spaces np_sqrt paths future model_name norm_name fb out idx :
  fit_and_forecast np_sqrt paths future model_name norm_name fb = inr out ->
  (idx < n_pixels_of paths)%nat ->
  (forall i, (i <= idx)%nat -> isCanceled fb i = false) ->
  series_valid (first_nodata paths) (pixel_series paths idx) = true ->
  let y := pixel_series paths idx in
  let a := unit_scale np_sqrt norm_name y in
  let b := unit_offset norm_name y in
  exists years_feat future_feat y_norm reconstruction,
    expand_features model_name (reshape_col (observed_years paths))
                    (reshape_col future) = inr (years_feat, future_feat) /\
    ~ a == 0 /\
    in_original_units a b y y_norm /\
    out_r2 out !! idx
    = Some (r2_score y_norm
              (linear_model.predict
                 (linear_model.fit (select_model model_name) years_feat y_norm)
                 years_feat)) /\
    in_original_units a b reconstruction
      (linear_model.predict
         (linear_model.fit (select_model model_name) years_feat y_norm)
         years_feat) /\
    out_rmse out !! idx
    = Some (num (np_sqrt (np_mean (map sq (vsub reconstruction y))))).
Proof.
  intros Hrun Hidx Hno Hvalid y a b.
  destruct (forecast_fitted _ _ _ _ _ _ _ idx Hrun Hidx)
    as (yf & ff & Hf & H1 & H2 & _).
  - apply visited_reached; [lia|]. intros i Hi. apply Hno. lia.
  - exact Hvalid.
  - destruct (fit_pixel_units np_sqrt model_name norm_name yf ff y)
      as (y_norm & reconstruction & pred & Hy & Hrec & _ & Hfit).
    fold y in H1, H2. rewrite Hfit in H1, H2. cbn [fst snd] in H1, H2.
    exists yf, ff, y_norm, reconstruction.
    split; [exact Hf|].
    split; [apply unit_scale_nonzero|].
    split; [exact Hy|]. split; [exact H1|]. split; [exact Hrec | exact H2].
Qed.

Lemma C5_metric_spaces_witness :
  exists out r2 rmse,
    fit_and_forecast sqrt_floor scenario_decreasing [2015%Z] Ridge MinMax
                     never_canceled = inr out /\
    pixel_series scenario_decreasing 0 = [5; 2] /\
    unit_scale sqrt_floor MinMax [5; 2] == 3 /\
    unit_offset MinMax [5; 2] == 2 /\
    (exists years_feat y_norm reconstruction,
       in_original_units (unit_scale sqrt_floor MinMax [5; 2])
                         (unit_offset MinMax [5; 2]) [5; 2] y_norm /\
       out_r2 out !! 0%nat
       = Some (r2_score y_norm
                 (linear_model.predict
                    (linear_model.fit (select_model Ridge) years_feat y_norm)
                    years_feat)) /\
       in_original_units (unit_scale sqrt_floor MinMax [5; 2])
                         (unit_offset MinMax [5; 2]) reconstruction
         (linear_model.predict
            (linear_model.fit (select_model Ridge) years_feat y_norm)
            years_feat) /\
       out_rmse out !! 0%nat
       = Some (num (sqrt_floor (np_mean (map sq (vsub reconstruction [5; 2])))))) /\
    out_r2 out !! 0%nat = Some (num r2) /\ r2 == 5 # 9 /\
    out_rmse out !! 0%nat = Some (num rmse) /\ rmse == 1.
Proof.
  eexists. eexists. eexists.
  assert (Hrun : fit_and_forecast sqrt_floor scenario_decreasing [2015%Z] Ridge
                   MinMax never_canceled = inr _) by (vm_compute; reflexivity).
  destruct (C5_metric_spaces sqrt_floor scenario_decreasing [2015%Z] Ridge MinMax
              never_canceled _ 0%nat Hrun)
    as (yf & ff & y_norm & reconstruction & _ & _ & Hy & H1 & Hrec & H2).
  - vm_compute; lia.
  - reflexivity.
  - reflexivity.
  - split; [exact Hrun|]. split; [reflexivity|].
    split; [vm_compute; reflexivity|]. split; [vm_compute; reflexivity|].
    split; [exists yf, y_norm, reconstruction; auto|].
    split; [vm_compute; reflexivity|]. split; [vm_compute; reflexivity|].
    split; [vm_compute; reflexivity | vm_compute; reflexivity].
Defined.

(** ** Feature expansion *)

(** C6, as stated, fails for Polynomial: the expanded row of the year 2013
    is (1, 2013, 2013^2), three columns with a leading bias column, not
    (2013, 2013^2). *)
Lemma C6_counterexample :
  expand_features Polynomial (reshape_col [2013; 2014]%Z) (reshape_col [2015%Z])
  = inr ([[1; 2013; 2013 * 2013]; [1; 2014; 2014 * 2014]],
         [[1; 2015; 2015 * 2015]]) /\
  expand_features Polynomial (reshape_col [2013; 2014]%Z) (reshape_col [2015%Z])
  <> inr (claimed_expansion Polynomial (reshape_col [2013; 2014]%Z),
          claimed_expansion Polynomial (reshape_col [2015%Z])).
Proof.
  split; [reflexivity|].
  vm_compute. discriminate.
Qed.

Lemma poly_transform_column (p : preprocessing.PolynomialFeatures) years :
  preprocessing.n_features_in_ p = 1%nat ->
  preprocessing.PolynomialFeatures_transform p (reshape_col years)
  = inr (bias_year_square years).
Proof.
  intros Hp. unfold preprocessing.PolynomialFeatures_transform.
  rewrite Hp.
  assert (Hall : forallb (fun row : list Q => Nat.eqb (length row) 1)
                         (reshape_col years) = true).
  { unfold reshape_col. induction years as [|t ts IH]; simpl; auto. }
  rewrite Hall. unfold ok, reshape_col, bias_year_square.
  f_equal. rewrite map_map. reflexivity.
Qed.

Lemma expand_features_columns model_name (t0 : Z) (years future : list Z) :
  expand_features model_name (reshape_col (t0 :: years)) (reshape_col future)
  = inr (match model_name with
         | Polynomial =>
             (bias_year_square (t0 :: years), bias_year_square future)
         | _ => (reshape_col (t0 :: years), reshape_col future)
         end).
Proof.
  destruct model_name; try reflexivity.
  unfold expand_features.
  rewrite !poly_transform_column by reflexivity. reflexivity.
Qed.

(** C6, amended.  For Linear, Ridge and Lasso the features are the year
    columns unchanged.  For Polynomial every year t becomes the row
    (1, t, t^2): a constant bias column, the year, and its square as the
    third column; the basis is fitted on the observed years only, and the
    future features are that same basis applied to the future years. *)
Theorem C6_feature_expansion (t0 : Z) (years future : list Z) :
  let X := reshape_col (t0 :: years) in
  let F := reshape_col future in
  expand_features Linear X F = inr (X, F) /\
  expand_features Ridge X F = inr (X, F) /\
  expand_features Lasso X F = inr (X, F) /\
  expand_features Polynomial X F
  = inr (bias_year_square (t0 :: years), bias_year_square future) /\
  preprocessing.PolynomialFeatures_transform
    (preprocessing.PolynomialFeatures_fit X) F
  = inr (bias_year_square future).
Proof.
  intros X F. unfold X, F.
  rewrite !expand_features_columns. repeat split.
  now rewrite poly_transform_column.
Qed.

(** The forecast fails only when the grids cannot be stacked: with
    stackable inputs it returns a result for every model, normalisation,
    list of future years and feedback. *)
Lemma fit_and_forecast_total np_sqrt paths future model_name norm_name fb data :
  np_stack (map read1 paths) = inr data ->
  exists out,
    fit_and_forecast np_sqrt paths future model_name norm_name fb = inr out.
Proof.
  intros Hstack. unfold fit_and_forecast. rewrite Hstack. simpl.
  destruct (shape12 data) as [H W].
  assert (Hfeat : exists yf ff,
             expand_features model_name (reshape_col (observed_years paths))
                             (reshape_col future) = inr (yf, ff)).
  { destruct paths as [|src rest]; [discriminate|].
    unfold observed_years, np_arange. cbn [length seq map].
    rewrite expand_features_columns. destruct model_name; eauto. }
  destruct Hfeat as (yf & ff & ->). simpl. eauto.
Qed.

(** ** Summary of an empty result *)

Lemma defined_all_nan (a : list fval) :
  Forall (fun v => np_isnan v = true) a -> defined a = [].
Proof.
  induction 1 as [|v a Hv _ IH]; [reflexivity|].
  destruct v; [exact IH | discriminate].
Qed.

(** C7.  When neither metric array holds a defined entry, the summary
    step does not return statistics: it raises, the error being the
    [ValueError] of the minimum over an empty array. *)
Theorem C7_empty_result_raises (r2_vals rmse_vals : list fval) :
  Forall (fun v => np_isnan v = true) r2_vals ->
  Forall (fun v => np_isnan v = true) rmse_vals ->
  log_metrics r2_vals rmse_vals
  = raise (ValueError
      "zero-size array to reduction operation minimum which has no identity").
Proof.
  intros H1 _. unfold log_metrics.
  now rewrite (defined_all_nan _ H1).
Qed.

Lemma C7_empty_result_raises_witness :
  Forall (fun v => np_isnan v = true) [nan; nan; nan] /\
  log_metrics [nan; nan; nan] [nan; nan; nan]
  = raise (ValueError
      "zero-size array to reduction operation minimum which has no identity").
Proof.
  assert (H : Forall (fun v => np_isnan v = true) [nan; nan; nan])
    by (repeat constructor).
  split; [exact H|].
  exact (C7_empty_result_raises [nan; nan; nan] [nan; nan; nan] H H).
Defined.

(** The error is not caught on the way out of [processAlgorithm]. *)
Lemma processAlgorithm_empty_result np_sqrt parameters fb out :
  (2 <= length (valid_layers (LAYER_LIST parameters)))%nat ->
  FUTURE_YEARS parameters <> [] ->
  fit_and_forecast np_sqrt (valid_layers (LAYER_LIST parameters))
                   (FUTURE_YEARS parameters) (MODEL_TYPE parameters)
                   (NORMALIZATION parameters) fb = inr out ->
  Forall (fun v => np_isnan v = true) (out_r2 out) ->
  processAlgorithm np_sqrt parameters fb
  = raise (ValueError
      "zero-size array to reduction operation minimum which has no identity").
Proof.
  intros Hn Hfy Hrun Hnan. unfold processAlgorithm.
  destruct (Nat.ltb_spec (length (valid_layers (LAYER_LIST parameters))) 2);
    [lia|].
  destruct (FUTURE_YEARS parameters) as [|y ys] eqn:Hfut; [congruence|].
  simpl. rewrite Hrun. simpl.
  unfold log_metrics. now rewrite (defined_all_nan _ Hnan).
Qed.

(** ** Cancellation *)

Lemma r2_score_defined (y_true y_pred : vec) :
  (2 <= length y_pred)%nat -> exists q, r2_score y_true y_pred = num q.
Proof.
  intros Hl. unfold r2_score.
  destruct (Nat.ltb_spec (length y_pred) 2); [lia|].
  destruct (Qeq_bool _ 0); [eauto|].
  destruct (Qeq_bool _ 0); eauto.
Qed.

Lemma fit_pixel_r2_defined np_sqrt model_name norm_name yf ff y :
  (2 <= length yf)%nat ->
  exists q, snd (fst (fit_pixel np_sqrt model_name norm_name yf ff y)) = num q.
Proof.
  intros Hl. unfold fit_pixel.
  destruct (normalize np_sqrt norm_name y) as [scaler y_norm]. simpl.
  apply r2_score_defined.
  unfold linear_model.predict. now rewrite length_map.
Qed.

Lemma defined_length_le (a : list fval) : (length (defined a) <= length a)%nat.
Proof.
  induction a as [|v a IH]; simpl; [lia|].
  destruct v; simpl; lia.
Qed.

Lemma defined_app (a b : list fval) : defined (a ++ b) = defined a ++ defined b.
Proof.
  induction a as [|v a IH]; simpl; [reflexivity|].
  destruct v; simpl; now rewrite IH.
Qed.

(** NaN from index [k] on leaves at most [k] defined entries. *)
Lemma defined_count_le (a : list fval) k :
  (forall idx, (k <= idx < length a)%nat -> a !! idx = Some nan) ->
  (length (defined a) <= k)%nat.
Proof.
  intros Hnan. rewrite <- (take_drop k a), defined_app, length_app.
  assert (Hdrop : defined (drop k a) = []).
  { apply defined_all_nan. apply List.Forall_forall. intros v Hin.
    apply list_elem_of_In, list_elem_of_lookup in Hin as [i Hi].
    rewrite lookup_drop in Hi.
    rewrite Hnan in Hi.
    - now injection Hi as <-.
    - apply lookup_lt_Some in Hi. lia. }
  rewrite Hdrop. simpl.
  pose proof (defined_length_le (take k a)) as Hle.
  rewrite length_take in Hle. lia.
Qed.

(** C8.  Let the cancellation signal first fire at the check before pixel
    [k], after the pixels 0 .. k-1 have been visited.  Then the loop stops
    there: every pixel from [k] on still reads prediction 0 and R2 and RMSE
    NaN; at most [k] entries of the R2 array are defined; and the
    undefined pixels are exactly the unvisited ones together with the
    invalid ones. *)
Theorem C8_cancellation np_sqrt paths future model_name norm_name fb out k :
  fit_and_forecast np_sqrt paths future model_name norm_name fb = inr out ->
  (2 <= length paths)%nat ->
  (k < n_pixels_of paths)%nat ->
  (forall i, (i < k)%nat -> isCanceled fb i = false) ->
  isCanceled fb k = true ->
  (forall idx, (k <= idx < n_pixels_of paths)%nat ->
     Forall (fun grid => concat grid !! idx = Some 0) (pred_grids out) /\
     out_r2 out !! idx = Some nan /\
     out_rmse out !! idx = Some nan) /\
  (length (defined (out_r2 out)) <= k)%nat /\
  (forall idx, (idx < n_pixels_of paths)%nat ->
     (out_r2 out !! idx = Some nan <->
      (k <= idx)%nat \/
      series_valid (first_nodata paths) (pixel_series paths idx) = false)).
Proof.
  intros Hrun Hn Hk Hno Hyes.
  assert (Hvis : visited fb (seq 0 (n_pixels_of paths)) = seq 0 k).
  { apply visited_seq; [lia | | ].
    - intros i Hi. apply Hno. lia.
    - intros _. exact Hyes. }
  assert (Hunvisited : forall idx, (k <= idx < n_pixels_of paths)%nat ->
     Forall (fun grid => concat grid !! idx = Some 0) (pred_grids out) /\
     out_r2 out !! idx = Some nan /\
     out_rmse out !! idx = Some nan).
  { intros idx Hidx.
    destruct (forecast_default _ _ _ _ _ _ _ idx Hrun) as (H1 & H2 & H3);
      [lia | | auto].
    rewrite Hvis. intros [Hin _]. apply in_seq in Hin. lia. }
  split; [exact Hunvisited|]. split.
  - apply defined_count_le. intros idx Hidx.
    apply Hunvisited.
    destruct (out_lengths _ _ _ _ _ _ _ Hrun) as (Hl & _). lia.
  - intros idx Hidx. split.
    + intros Hnan.
      destruct (le_lt_dec k idx) as [Hge | Hlt]; [now left|]. right.
      destruct (series_valid _ _) eqn:Hvalid; [|reflexivity]. exfalso.
      destruct (forecast_fitted _ _ _ _ _ _ _ idx Hrun Hidx)
        as (yf & ff & Hf & H1 & _).
      * rewrite Hvis. apply in_seq. lia.
      * exact Hvalid.
      * destruct (expand_features_lengths _ _ _ _ _ Hf) as [Hyf _].
        unfold reshape_col, observed_years, np_arange in Hyf.
        rewrite !length_map, length_seq in Hyf.
        destruct (fit_pixel_r2_defined np_sqrt model_name norm_name yf ff
                    (pixel_series paths idx)) as [q Hq]; [lia|].
        simpl in H1. rewrite Hq in H1. congruence.
    + intros [Hge | Hinvalid].
      * apply Hunvisited. lia.
      * destruct (forecast_default _ _ _ _ _ _ _ idx Hrun Hidx)
          as (H1 & _); [|exact H1].
        intros [_ Hvalid]. congruence.
Qed.

Lemma C8_cancellation_witness :
  exists out,
    fit_and_forecast sqrt_floor scenario_A [2015%Z] Linear NormNone
                     (canceled_from 2) = inr out /\
    (2 <= length scenario_A)%nat /\
    (2 < n_pixels_of scenario_A)%nat /\
    (forall i, (i < 2)%nat -> isCanceled (canceled_from 2) i = false) /\
    isCanceled (canceled_from 2) 2 = true /\
    out_r2 out = [num 1; num 1; nan; nan] /\
    (length (defined (out_r2 out)) <= 2)%nat.
Proof.
  eexists.
  assert (Hrun : fit_and_forecast sqrt_floor scenario_A [2015%Z] Linear NormNone
                   (canceled_from 2) = inr _) by (vm_compute; reflexivity).
  assert (Hn : (2 <= length scenario_A)%nat) by (simpl; lia).
  assert (Hk : (2 < n_pixels_of scenario_A)%nat) by (vm_compute; lia).
  assert (Hno : forall i, (i < 2)%nat -> isCanceled (canceled_from 2) i = false).
  { intros i Hi. destruct i as [|[|i]]; [reflexivity | reflexivity | lia]. }
  assert (Hyes : isCanceled (canceled_from 2) 2 = true) by reflexivity.
  destruct (C8_cancellation sqrt_floor scenario_A [2015%Z] Linear NormNone
              (canceled_from 2) _ 2%nat Hrun Hn Hk Hno Hyes) as (_ & Hcount & _).
  repeat split; try assumption.
Defined.

(** ** Where the sentinel and the time axis come from *)

Lemma input_mask_first_only src rest rest' :
  map read1 rest' = map read1 rest ->
  input_mask (src :: rest') = input_mask (src :: rest).
Proof.
  intros Hbands. unfold input_mask. simpl. now rewrite Hbands.
Qed.

(** C9.  The mask is computed from the NoData value of the first raster
    alone.  For inputs of one shape, a pixel is valid exactly when no
    value of its series equals the first raster's sentinel, so a value
    that is only the sentinel of a later raster invalidates nothing; if the
    first raster declares no sentinel the pixel is valid; and replacing
    the later rasters' NoData declarations changes neither the mask nor
    the result of the forecast. *)
Theorem C9_nodata_from_first_raster (src : Raster) (rest : list Raster) idx :
  np_stack (map read1 (src :: rest)) = inr (map read1 (src :: rest)) ->
  (idx < n_pixels_of (src :: rest))%nat ->
  nth idx (concat (input_mask (src :: rest))) false
  = series_valid (nodata src) (pixel_series (src :: rest) idx) /\
  (nodata src = None ->
   nth idx (concat (input_mask (src :: rest))) false = true) /\
  (forall rest', map read1 rest' = map read1 rest ->
     input_mask (src :: rest') = input_mask (src :: rest) /\
     forall np_sqrt future model_name norm_name fb,
       fit_and_forecast np_sqrt (src :: rest') future model_name norm_name fb
       = fit_and_forecast np_sqrt (src :: rest) future model_name norm_name fb).
Proof.
  intros Hstack Hidx.
  assert (Hmask : nth idx (concat (input_mask (src :: rest))) false
                  = series_valid (nodata src) (pixel_series (src :: rest) idx)).
  { apply nth_lookup_Some.
    apply (valid_mask_flat (first_nodata (src :: rest))); [|exact Hidx].
    now destruct (np_stack_ok _ _ Hstack) as (_ & _ & Hsh). }
  split; [exact Hmask|]. split.
  - intros Hnone. rewrite Hmask, Hnone. reflexivity.
  - intros rest' Hbands. split; [now apply input_mask_first_only|].
    intros np_sqrt future model_name norm_name fb.
    assert (Hlen : length rest' = length rest).
    { apply (f_equal (@length (list (list Q)))) in Hbands.
      now rewrite !length_map in Hbands. }
    unfold fit_and_forecast, observed_years, first_nodata.
    cbn [map length]. now rewrite Hbands, Hlen.
Qed.

Lemma C9_nodata_from_first_raster_witness :
  np_stack (map read1 scenario_later_sentinel)
  = inr (map read1 scenario_later_sentinel) /\
  (1 < n_pixels_of scenario_later_sentinel)%nat /\
  pixel_series scenario_later_sentinel 1 = [3; 0] /\
  nth 1 (concat (input_mask scenario_later_sentinel)) false
  = series_valid (Some 7) [3; 0] /\
  series_valid (Some 7) [3; 0] = true.
Proof.
  assert (Hstack : np_stack (map read1 scenario_later_sentinel)
                   = inr (map read1 scenario_later_sentinel)) by reflexivity.
  assert (Hidx : (1 < n_pixels_of scenario_later_sentinel)%nat)
    by (vm_compute; lia).
  split; [exact Hstack|]. split; [exact Hidx|].
  split; [reflexivity|]. split; [|reflexivity].
  exact (proj1 (C9_nodata_from_first_raster
                  {| read1 := [[1; 3]]; nodata := Some 7 |}
                  [ {| read1 := [[2; 0]]; nodata := Some 0 |} ]
                  1%nat Hstack Hidx)).
Defined.

(** The features of a run: those of the years 2013, 2014, ... for the
    observed axis, whatever the rasters. *)
Lemma run_features np_sqrt paths future model_name norm_name fb out :
  fit_and_forecast np_sqrt paths future model_name norm_name fb = inr out ->
  expand_features model_name (reshape_col (observed_years paths))
                  (reshape_col future)
  = inr (year_features model_name
           (map (fun i => (2013 + Z.of_nat i)%Z) (seq 0 (length paths))),
         year_features model_name future).
Proof.
  intros Hrun.
  destruct (fit_and_forecast_inv _ _ _ _ _ _ _ Hrun) as (_ & _ & Hstack & _).
  destruct paths as [|src rest]; [discriminate|].
  unfold observed_years, np_arange. cbn [length seq map].
  rewrite expand_features_columns. now destruct model_name.
Qed.

Lemma year_features_length model_name (years : list Z) :
  length (year_features model_name years) = length years.
Proof.
  destruct model_name; unfold year_features, bias_year_square;
    apply length_map.
Qed.

(** A fitted pixel in terms of the 2013-based axis and of the units of its
    series. *)
Lemma fitted_pixel_on_axis np_sqrt paths future model_name norm_name fb out idx :
  fit_and_forecast np_sqrt paths future model_name norm_name fb = inr out ->
  (idx < n_pixels_of paths)%nat ->
  In idx (visited fb (seq 0 (n_pixels_of paths))) ->
  series_valid (first_nodata paths) (pixel_series paths idx) = true ->
  let years_feat :=
    year_features model_name
      (map (fun i => (2013 + Z.of_nat i)%Z) (seq 0 (length paths))) in
  let future_feat := year_features model_name future in
  let y := pixel_series paths idx in
  let a := unit_scale np_sqrt norm_name y in
  let b := unit_offset norm_name y in
  exists y_norm,
    in_original_units a b y y_norm /\
    out_r2 out !! idx
    = Some (r2_score y_norm
              (linear_model.predict
                 (linear_model.fit (select_model model_name) years_feat y_norm)
                 years_feat)) /\
    forall j, (j < length future)%nat ->
      exists p v,
        linear_model.predict
          (linear_model.fit (select_model model_name) years_feat y_norm)
          future_feat !! j = Some p /\
        v == a * p + b /\
        forecast_at out j idx = Some (Qmax v 0).
Proof.
  intros Hrun Hidx Hvis Hvalid yf ff y a b.
  destruct (forecast_fitted _ _ _ _ _ _ _ idx Hrun Hidx Hvis Hvalid)
    as (yf' & ff' & Hf & H1 & _ & Hgrid).
  rewrite (run_features _ _ _ _ _ _ _ Hrun) in Hf.
  injection Hf as <- <-. fold yf ff y in H1, Hgrid.
  destruct (fit_pixel_units np_sqrt model_name norm_name yf ff y)
    as (y_norm & reconstruction & pred & Hy & _ & Hpred & Hfit).
  rewrite Hfit in H1, Hgrid. cbn [fst snd] in H1, Hgrid.
  exists y_norm. split; [exact Hy|]. split; [exact H1|].
  intros j Hj.
  destruct (out_lengths _ _ _ _ _ _ _ Hrun) as (_ & _ & Hgrids).
  destruct (lookup_lt_is_Some_2 (pred_grids out) j) as [grid Hg]; [lia|].
  destruct (lookup_lt_is_Some_2
              (linear_model.predict
                 (linear_model.fit (select_model model_name) yf y_norm) ff) j)
    as [p Hp].
  { unfold linear_model.predict. rewrite length_map.
    unfold ff. now rewrite year_features_length. }
  destruct (Forall2_lookup_r _ _ _ _ _ Hpred Hp) as (v & Hv & Hvp).
  exists p, v. split; [exact Hp|]. split; [exact Hvp|].
  unfold forecast_at. rewrite Hg, (Hgrid _ _ Hg), Hv. reflexivity.
Qed.

(** The series of a pixel takes its i-th value from the i-th raster
    supplied. *)
Lemma pixel_series_order np_sqrt paths future model_name norm_name fb out idx i r :
  fit_and_forecast np_sqrt paths future model_name norm_name fb = inr out ->
  (idx < n_pixels_of paths)%nat ->
  paths !! i = Some r ->
  pixel_series paths idx !! i = concat (read1 r) !! idx.
Proof.
  intros Hrun Hidx Hr.
  pose proof (fit_and_forecast_shaped _ _ _ _ _ _ _ Hrun) as Hshaped.
  unfold pixel_series, flat_of, column.
  rewrite !list_lookup_fmap, Hr. simpl.
  assert (Hin : In (read1 r) (map read1 paths)).
  { apply in_map. apply list_elem_of_In. eapply list_elem_of_lookup_2; eauto. }
  rewrite List.Forall_forall in Hshaped.
  pose proof (shaped_length_concat _ _ _ (Hshaped _ Hin)) as Hlen.
  destruct (nth_lookup_or_length (concat (read1 r)) idx 0) as [Hl | Hge].
  - now rewrite Hl.
  - unfold n_pixels_of in Hidx. lia.
Qed.

(** C10.  Whatever rasters are supplied, the years the models are fitted
    against are 2013, 2014, ..., 2013 + N - 1, a function of the number N
    of inputs only (any other N rasters, or the same in another order,
    get the same axis).  Year 2013 + i goes with the i-th raster supplied:
    for every fitted pixel the estimator is fitted on the feature rows of
    these years and the series taken from the rasters in their order; the
    recorded R2 is its score on these rows and every forecast is its
    prediction for the future year (brought to original units and
    floored; stated for forecasts a float32 array holds exactly). *)
Theorem C10_years_fixed_axis
        np_sqrt paths future model_name norm_name fb out :
  fit_and_forecast np_sqrt paths future model_name norm_name fb = inr out ->
  let axis := map (fun i => (2013 + Z.of_nat i)%Z) (seq 0 (length paths)) in
  let years_feat := year_features model_name axis in
  let future_feat := year_features model_name future in
  observed_years paths = axis /\
  (forall paths', length paths' = length paths ->
     observed_years paths' = axis) /\
  (forall paths', Permutation paths paths' ->
     observed_years paths' = axis) /\
  forall idx,
    (idx < n_pixels_of paths)%nat -> reached fb idx ->
    series_valid (first_nodata paths) (pixel_series paths idx) = true ->
    let y := pixel_series paths idx in
    let a := unit_scale np_sqrt norm_name y in
    let b := unit_offset norm_name y in
    (forall i r, paths !! i = Some r -> y !! i = concat (read1 r) !! idx) /\
    exists y_norm,
      in_original_units a b y y_norm /\
      out_r2 out !! idx
      = Some (r2_score y_norm
                (linear_model.predict
                   (linear_model.fit (select_model model_name) years_feat y_norm)
                   years_feat)) /\
      forall j, (j < length future)%nat ->
        (forall g, forecast_at out j idx = Some g -> float32_exact g) ->
        exists p v,
          linear_model.predict
            (linear_model.fit (select_model model_name) years_feat y_norm)
            future_feat !! j = Some p /\
          v == a * p + b /\
          forecast_at out j idx = Some (Qmax v 0).
Proof.
  intros Hrun axis years_feat future_feat.
  split; [reflexivity|].
  split; [intros paths' Hlen; unfold observed_years, np_arange;
          now rewrite Hlen|].
  split; [intros paths' Hperm; unfold observed_years, np_arange;
          now rewrite <- (Permutation_length Hperm)|].
  intros idx Hidx Hreach Hvalid y a b.
  split.
  { intros i r Hr. exact (pixel_series_order _ _ _ _ _ _ _ idx i r Hrun Hidx Hr). }
  destruct (fitted_pixel_on_axis _ _ _ _ _ _ _ idx Hrun Hidx)
    as (y_norm & Hy & Hr2 & Hfc); [|exact Hvalid|].
  { apply visited_reached; [lia|]. intros i Hi. apply Hreach. lia. }
  exists y_norm. split; [exact Hy|]. split; [exact Hr2|].
  intros j Hj _. exact (Hfc j Hj).
Qed.

Lemma C10_years_fixed_axis_witness :
  exists out f2016 f2023,
    fit_and_forecast sqrt_floor scenario_three_years [2016%Z; 2023%Z]
                     Linear NormNone never_canceled = inr out /\
    observed_years scenario_three_years = [2013; 2014; 2015]%Z /\
    pixel_series scenario_three_years 0 = [10; 20; 30] /\
    (exists y_norm,
       in_original_units 1 0 [10; 20; 30] y_norm /\
       out_r2 out !! 0%nat
       = Some (r2_score y_norm
                 (linear_model.predict
                    (linear_model.fit linear_model.LinearRegression
                                      [[2013]; [2014]; [2015]] y_norm)
                    [[2013]; [2014]; [2015]]))) /\
    forecast_at out 0 0 = Some f2016 /\ f2016 == 40 /\
    forecast_at out 1 0 = Some f2023 /\ f2023 == 110.
Proof.
  eexists. eexists. eexists.
  assert (Hrun : fit_and_forecast sqrt_floor scenario_three_years
                   [2016%Z; 2023%Z] Linear NormNone never_canceled = inr _)
    by (vm_compute; reflexivity).
  destruct (C10_years_fixed_axis _ _ _ _ _ _ _ Hrun)
    as (Haxis & _ & _ & Hpixel).
  destruct (Hpixel 0%nat) as (_ & y_norm & Hy & Hr2 & _).
  - vm_compute; lia.
  - intros i _. reflexivity.
  - reflexivity.
  - split; [exact Hrun|]. split; [exact Haxis|]. split; [reflexivity|].
    split; [exists y_norm; split; [exact Hy | exact Hr2]|].
    split; [vm_compute; reflexivity|]. split; [vm_compute; reflexivity|].
    split; [vm_compute; reflexivity | vm_compute; reflexivity].
Defined.

(** * Further properties *)

(** ** Shape of the outputs *)

Lemma shaped_reshape2 H W (v : vec) :
  length v = (H * W)%nat -> shaped H W (reshape2 H W v).
Proof.
  revert v. induction H as [|H IH]; intros v Hl; simpl.
  - apply shaped_nil.
  - destruct (IH (drop W v)) as [Hlen Hrows].
    { rewrite length_drop. simpl in Hl. lia. }
    split; simpl; [now rewrite Hlen|].
    constructor; [|exact Hrows].
    rewrite length_take. simpl in Hl. lia.
Qed.

Lemma pred_grids_shaped np_sqrt paths future model_name norm_name fb out :
  fit_and_forecast np_sqrt paths future model_name norm_name fb = inr out ->
  Forall (shaped (fst (shape12 (map read1 paths)))
                 (snd (shape12 (map read1 paths)))) (pred_grids out).
Proof.
  intros Hrun.
  destruct (fit_and_forecast_inv _ _ _ _ _ _ _ Hrun) as (yf & ff & _ & Hf & ->).
  destruct (expand_features_lengths _ _ _ _ _ Hf) as [_ Hff].
  unfold reshape_col in Hff. rewrite length_map in Hff. rewrite <- Hff.
  simpl.
  match goal with |- context [pixel_loop _ _ _ _ _ _ ?v ?f ?idxs ?s] =>
    destruct (loop_rows np_sqrt fb model_name norm_name yf ff v f idxs
                        (n_pixels_of paths)) as (H4 & H5)
  end.
  apply Forall_map. apply List.Forall_forall. intros row Hrow. simpl.
  apply shaped_reshape2. rewrite length_map.
  apply list_elem_of_In, list_elem_of_lookup in Hrow as [j Hj].
  apply (f_equal (fun l => l !! j)) in H5.
  rewrite list_lookup_fmap, Hj in H5. simpl in H5.
  rewrite lookup_replicate_2 in H5 by (apply lookup_lt_Some in Hj; exact Hj).
  now injection H5.
Qed.

(** X1.  A forecast that succeeds returns one grid per future year, each
    of the shape every input band has, and metric arrays with one entry
    per pixel. *)
Theorem forecast_output_shapes
        np_sqrt paths future model_name norm_name fb out :
  fit_and_forecast np_sqrt paths future model_name norm_name fb = inr out ->
  let H := fst (shape12 (map read1 paths)) in
  let W := snd (shape12 (map read1 paths)) in
  Forall (shaped H W) (map read1 paths) /\
  length (pred_grids out) = length future /\
  Forall (shaped H W) (pred_grids out) /\
  length (out_r2 out) = (H * W)%nat /\
  length (out_rmse out) = (H * W)%nat.
Proof.
  intros Hrun H W.
  destruct (out_lengths _ _ _ _ _ _ _ Hrun) as (L1 & L2 & L3).
  split; [exact (fit_and_forecast_shaped _ _ _ _ _ _ _ Hrun)|].
  split; [exact L3|].
  split; [exact (pred_grids_shaped _ _ _ _ _ _ _ Hrun)|].
  split; [exact L1 | exact L2].
Qed.

Lemma forecast_output_shapes_witness :
  exists out,
    fit_and_forecast sqrt_floor scenario_B [2015%Z; 2020%Z] Ridge Zscore
                     never_canceled = inr out /\
    length (pred_grids out) = 2%nat /\
    Forall (shaped 2 2) (pred_grids out) /\
    length (out_r2 out) = 4%nat.
Proof.
  eexists.
  assert (Hrun : fit_and_forecast sqrt_floor scenario_B [2015%Z; 2020%Z] Ridge
                   Zscore never_canceled = inr _) by (vm_compute; reflexivity).
  destruct (forecast_output_shapes _ _ _ _ _ _ _ Hrun) as (_ & H1 & H2 & H3 & _).
  split; [exact Hrun|]. split; [exact H1|]. split; [exact H2 | exact H3].
Defined.

(** ** What a pixel's outputs are *)

Lemma visited_in_reached fb a n idx :
  In idx (visited fb (seq a n)) ->
  forall i, (a <= i <= idx)%nat -> isCanceled fb i = false.
Proof.
  revert a. induction n as [|n IH]; intros a; simpl; [tauto|].
  destruct (isCanceled fb a) eqn:Ha; simpl; [tauto|].
  intros [-> | Hin] i Hi.
  - now replace i with idx by lia.
  - destruct (Nat.eq_dec i a) as [-> | Hne]; [exact Ha|].
    apply (IH _ Hin). lia.
Qed.

Lemma visited_reached_iff fb n idx :
  (idx < n)%nat -> (In idx (visited fb (seq 0 n)) <-> reached fb idx).
Proof.
  intros Hidx. split.
  - intros Hin i Hi. apply (visited_in_reached _ _ _ _ Hin). lia.
  - intros Hr. apply visited_reached; [lia|]. intros i Hi. apply Hr. lia.
Qed.

(** X2.  For a pixel the loop fitted, the entry of the grid of each future
    year is the prediction of the model fitted on the pixel's normalised
    series, brought back to original units (a * p + b, with a and b the
    scale and the offset of the series) and floored at 0.  The grids are
    float32 arrays: the equality is stated for entries such an array holds
    exactly. *)
Theorem fitted_pixel_forecast
        np_sqrt paths future model_name norm_name fb out idx j :
  fit_and_forecast np_sqrt paths future model_name norm_name fb = inr out ->
  (idx < n_pixels_of paths)%nat ->
  reached fb idx ->
  series_valid (first_nodata paths) (pixel_series paths idx) = true ->
  (j < length future)%nat ->
  (forall g, forecast_at out j idx = Some g -> float32_exact g) ->
  let years_feat :=
    year_features model_name
      (map (fun i => (2013 + Z.of_nat i)%Z) (seq 0 (length paths))) in
  let future_feat := year_features model_name future in
  let y := pixel_series paths idx in
  let a := unit_scale np_sqrt norm_name y in
  let b := unit_offset norm_name y in
  exists y_norm p v,
    ~ a == 0 /\
    in_original_units a b y y_norm /\
    linear_model.predict
      (linear_model.fit (select_model model_name) years_feat y_norm)
      future_feat !! j = Some p /\
    v == a * p + b /\
    forecast_at out j idx = Some (Qmax v 0).
Proof.
  intros Hrun Hidx Hreach Hvalid Hj _ years_feat future_feat y a b.
  destruct (fitted_pixel_on_axis _ _ _ _ _ _ _ idx Hrun Hidx)
    as (y_norm & Hy & _ & Hfc); [now apply visited_reached_iff | exact Hvalid |].
  destruct (Hfc j Hj) as (p & v & Hp & Hv & Hat).
  exists y_norm, p, v.
  split; [apply unit_scale_nonzero|]. auto.
Qed.

Lemma fitted_pixel_forecast_witness :
  exists out f2012 f2020,
    fit_and_forecast sqrt_floor scenario_decreasing [2012%Z; 2020%Z]
                     Ridge MinMax never_canceled = inr out /\
    pixel_series scenario_decreasing 0 = [5; 2] /\
    unit_scale sqrt_floor MinMax [5; 2] == 3 /\
    unit_offset MinMax [5; 2] == 2 /\
    forecast_at out 0 0 = Some f2012 /\ f2012 == 5 /\ float32_exact f2012 /\
    (exists y_norm p v,
       in_original_units (unit_scale sqrt_floor MinMax [5; 2])
                         (unit_offset MinMax [5; 2]) [5; 2] y_norm /\
       linear_model.predict
         (linear_model.fit (select_model Ridge) [[2013]; [2014]] y_norm)
         [[2012]; [2020]] !! 0%nat = Some p /\
       v == unit_scale sqrt_floor MinMax [5; 2] * p + unit_offset MinMax [5; 2] /\
       forecast_at out 0 0 = Some (Qmax v 0)) /\
    forecast_at out 1 0 = Some f2020 /\ f2020 == 0.
Proof.
  eexists.
  assert (Hrun : fit_and_forecast sqrt_floor scenario_decreasing
                   [2012%Z; 2020%Z] Ridge MinMax never_canceled = inr _)
    by (vm_compute; reflexivity).
  eexists. eexists.
  split; [exact Hrun|]. split; [reflexivity|].
  split; [vm_compute; reflexivity|]. split; [vm_compute; reflexivity|].
  split; [vm_compute; reflexivity|]. split; [vm_compute; reflexivity|].
  match goal with |- float32_exact ?f /\ _ =>
    assert (Hexact : float32_exact f)
  end.
  { exists 5%Z, 0%Z. split; [reflexivity|]. split; [lia|].
    vm_compute. reflexivity. }
  split; [exact Hexact|].
  split; [|split; vm_compute; reflexivity].
  destruct (fitted_pixel_forecast sqrt_floor scenario_decreasing
              [2012%Z; 2020%Z] Ridge MinMax never_canceled _ 0%nat 0%nat Hrun)
    as (y_norm & p & v & _ & Hy & Hp & Hv & Hgrid).
  - vm_compute; lia.
  - intros i _. reflexivity.
  - reflexivity.
  - simpl; lia.
  - intros g Hg. vm_compute in Hg. injection Hg as <-. exact Hexact.
  - exists y_norm, p, v. auto.
Defined.

(** X3.  In a run that is never cancelled, on at least two rasters, the
    pixels left undefined in the R2 and RMSE arrays are exactly the
    invalid ones. *)
Theorem uncancelled_defined_iff_valid
        np_sqrt paths future model_name norm_name fb out idx :
  fit_and_forecast np_sqrt paths future model_name norm_name fb = inr out ->
  (2 <= length paths)%nat ->
  (forall i, isCanceled fb i = false) ->
  (idx < n_pixels_of paths)%nat ->
  (out_r2 out !! idx = Some nan <->
   series_valid (first_nodata paths) (pixel_series paths idx) = false) /\
  (out_rmse out !! idx = Some nan <->
   series_valid (first_nodata paths) (pixel_series paths idx) = false).
Proof.
  intros Hrun Hn Hno Hidx.
  destruct (series_valid _ _) eqn:Hvalid.
  - destruct (forecast_fitted _ _ _ _ _ _ _ idx Hrun Hidx)
      as (yf & ff & Hf & H1 & H2 & _).
    { apply visited_reached_iff; [exact Hidx|]. intros i _. apply Hno. }
    { exact Hvalid. }
    destruct (expand_features_lengths _ _ _ _ _ Hf) as [Hyf _].
    unfold reshape_col, observed_years, np_arange in Hyf.
    rewrite !length_map, length_seq in Hyf.
    destruct (fit_pixel_r2_defined np_sqrt model_name norm_name yf ff
                (pixel_series paths idx)) as [q Hq]; [lia|].
    destruct (fit_pixel_metrics np_sqrt model_name norm_name yf ff
                (pixel_series paths idx)) as [_ Hrmse].
    simpl in H1, H2. rewrite Hq in H1. rewrite Hrmse in H2.
    rewrite H1, H2. split; split; discriminate.
  - destruct (forecast_default _ _ _ _ _ _ _ idx Hrun Hidx) as (H1 & H2 & _).
    { intros [_ Hv]. congruence. }
    rewrite H1, H2. split; split; reflexivity.
Qed.

Lemma uncancelled_defined_iff_valid_witness :
  exists out,
    fit_and_forecast sqrt_floor scenario_B [2015%Z] Linear NormNone
                     never_canceled = inr out /\
    (out_r2 out !! 3%nat = Some nan <->
     series_valid (first_nodata scenario_B) (pixel_series scenario_B 3) = false) /\
    (out_r2 out !! 0%nat = Some nan <->
     series_valid (first_nodata scenario_B) (pixel_series scenario_B 0) = false).
Proof.
  eexists.
  assert (Hrun : fit_and_forecast sqrt_floor scenario_B [2015%Z] Linear
                   NormNone never_canceled = inr _) by (vm_compute; reflexivity).
  assert (Hn : (2 <= length scenario_B)%nat) by (simpl; lia).
  assert (Hno : forall i, isCanceled never_canceled i = false) by reflexivity.
  split; [exact Hrun|]. split.
  - apply (uncancelled_defined_iff_valid _ _ _ _ _ _ _ 3%nat Hrun Hn Hno).
    vm_compute; lia.
  - apply (uncancelled_defined_iff_valid _ _ _ _ _ _ _ 0%nat Hrun Hn Hno).
    vm_compute; lia.
Defined.

(** The outputs at a pixel are a function of the pixel's own series, the
    sentinel, the number of rasters and whether the loop got to it. *)
Lemma outputs_at_determined
      np_sqrt paths paths' future model_name norm_name fb fb' out out' idx :
  fit_and_forecast np_sqrt paths future model_name norm_name fb = inr out ->
  fit_and_forecast np_sqrt paths' future model_name norm_name fb' = inr out' ->
  length paths = length paths' ->
  first_nodata paths = first_nodata paths' ->
  pixel_series paths idx = pixel_series paths' idx ->
  (idx < n_pixels_of paths)%nat -> (idx < n_pixels_of paths')%nat ->
  (reached fb idx <-> reached fb' idx) ->
  out_r2 out !! idx = out_r2 out' !! idx /\
  out_rmse out !! idx = out_rmse out' !! idx /\
  forall j, forecast_at out j idx = forecast_at out' j idx.
Proof.
  intros Hrun Hrun' Hlen Hnd Hser Hidx Hidx' Hreach.
  destruct (out_lengths _ _ _ _ _ _ _ Hrun) as (_ & _ & Lg).
  destruct (out_lengths _ _ _ _ _ _ _ Hrun') as (_ & _ & Lg').
  assert (Hgrids : forall j, pred_grids out !! j = None <->
                             pred_grids out' !! j = None).
  { intros j. rewrite !lookup_ge_None. lia. }
  destruct (in_dec Nat.eq_dec idx (visited fb (seq 0 (n_pixels_of paths))))
    as [Hvis | Hnvis];
    [destruct (series_valid (first_nodata paths) (pixel_series paths idx))
       eqn:Hvalid |].
  - (* fitted in both runs *)
    assert (Hvis' : In idx (visited fb' (seq 0 (n_pixels_of paths')))).
    { apply visited_reached_iff; [exact Hidx'|]. apply Hreach.
      now apply (visited_reached_iff fb (n_pixels_of paths)). }
    destruct (forecast_fitted _ _ _ _ _ _ _ idx Hrun Hidx Hvis Hvalid)
      as (yf & ff & Hf & H1 & H2 & H3).
    rewrite Hnd, Hser in Hvalid.
    destruct (forecast_fitted _ _ _ _ _ _ _ idx Hrun' Hidx' Hvis' Hvalid)
      as (yf' & ff' & Hf' & H1' & H2' & H3').
    unfold observed_years in Hf, Hf'. rewrite Hlen, Hf' in Hf.
    injection Hf as <- <-.
    simpl in *. rewrite Hser in H1, H2, H3.
    rewrite H1, H2, H1', H2'. repeat split.
    intros j. unfold forecast_at.
    destruct (pred_grids out !! j) as [g|] eqn:Hg;
      destruct (pred_grids out' !! j) as [g'|] eqn:Hg'.
    + now rewrite (H3 _ _ Hg), (H3' _ _ Hg').
    + apply Hgrids in Hg'. congruence.
    + apply Hgrids in Hg. congruence.
    + reflexivity.
  - (* invalid in both runs *)
    destruct (forecast_default _ _ _ _ _ _ _ idx Hrun Hidx) as (H1 & H2 & H3).
    { intros [_ Hv]. congruence. }
    destruct (forecast_default _ _ _ _ _ _ _ idx Hrun' Hidx') as (H1' & H2' & H3').
    { rewrite <- Hnd, <- Hser. intros [_ Hv]. congruence. }
    rewrite H1, H2, H1', H2'. repeat split.
    intros j. unfold forecast_at.
    rewrite List.Forall_forall in H3, H3'.
    destruct (pred_grids out !! j) as [g|] eqn:Hg;
      destruct (pred_grids out' !! j) as [g'|] eqn:Hg'.
    + rewrite (H3 g), (H3' g'); [reflexivity | |];
        apply list_elem_of_In; eapply list_elem_of_lookup_2; eauto.
    + apply Hgrids in Hg'. congruence.
    + apply Hgrids in Hg. congruence.
    + reflexivity.
  - (* not reached in either run *)
    destruct (forecast_default _ _ _ _ _ _ _ idx Hrun Hidx) as (H1 & H2 & H3).
    { intros [Hv _]. contradiction. }
    destruct (forecast_default _ _ _ _ _ _ _ idx Hrun' Hidx') as (H1' & H2' & H3').
    { intros [Hv _]. apply Hnvis.
      apply visited_reached_iff; [exact Hidx|]. apply Hreach.
      now apply (visited_reached_iff fb' (n_pixels_of paths')). }
    rewrite H1, H2, H1', H2'. repeat split.
    intros j. unfold forecast_at.
    rewrite List.Forall_forall in H3, H3'.
    destruct (pred_grids out !! j) as [g|] eqn:Hg;
      destruct (pred_grids out' !! j) as [g'|] eqn:Hg'.
    + rewrite (H3 g), (H3' g'); [reflexivity | |];
        apply list_elem_of_In; eapply list_elem_of_lookup_2; eauto.
    + apply Hgrids in Hg'. congruence.
    + apply Hgrids in Hg. congruence.
    + reflexivity.
Qed.

(** X4.  Pixels are fitted independently: two inputs with the same number
    of rasters and the same sentinel that agree on the series of one pixel
    give that pixel the same R2, RMSE and forecasts, whatever the other
    pixels hold. *)
Theorem pixel_independence
        np_sqrt paths paths' future model_name norm_name fb out out' idx :
  fit_and_forecast np_sqrt paths future model_name norm_name fb = inr out ->
  fit_and_forecast np_sqrt paths' future model_name norm_name fb = inr out' ->
  length paths = length paths' ->
  first_nodata paths = first_nodata paths' ->
  (idx < n_pixels_of paths)%nat -> (idx < n_pixels_of paths')%nat ->
  pixel_series paths idx = pixel_series paths' idx ->
  out_r2 out !! idx = out_r2 out' !! idx /\
  out_rmse out !! idx = out_rmse out' !! idx /\
  forall j, forecast_at out j idx = forecast_at out' j idx.
Proof.
  intros Hrun Hrun' Hlen Hnd Hidx Hidx' Hser.
  apply (outputs_at_determined _ _ _ _ _ _ _ _ _ _ _
           Hrun Hrun' Hlen Hnd Hser Hidx Hidx').
  tauto.
Qed.

Lemma pixel_independence_witness :
  exists out out',
    fit_and_forecast sqrt_floor scenario_B [2015%Z] Linear NormNone
                     never_canceled = inr out /\
    fit_and_forecast sqrt_floor scenario_B_neighbours [2015%Z] Linear NormNone
                     never_canceled = inr out' /\
    pixel_series scenario_B 0 = pixel_series scenario_B_neighbours 0 /\
    out_r2 out !! 0%nat = out_r2 out' !! 0%nat /\
    forecast_at out 0 0 = forecast_at out' 0 0.
Proof.
  eexists. eexists.
  assert (Hrun : fit_and_forecast sqrt_floor scenario_B [2015%Z] Linear
                   NormNone never_canceled = inr _) by (vm_compute; reflexivity).
  assert (Hrun' : fit_and_forecast sqrt_floor scenario_B_neighbours [2015%Z]
                    Linear NormNone never_canceled = inr _)
    by (vm_compute; reflexivity).
  destruct (pixel_independence _ _ _ _ _ _ _ _ _ 0%nat Hrun Hrun')
    as (H1 & _ & H3).
  - reflexivity.
  - reflexivity.
  - vm_compute; lia.
  - vm_compute; lia.
  - reflexivity.
  - split; [exact Hrun|]. split; [exact Hrun'|]. split; [reflexivity|].
    split; [exact H1 | exact (H3 0%nat)].
Defined.

(** X5.  Cancellation does not alter what was already computed: every
    pixel the cancelled run got to holds the same R2, RMSE and forecasts
    as in the run that is never cancelled. *)
Theorem cancelled_run_agrees_on_prefix
        np_sqrt paths future model_name norm_name fb out out_full idx :
  fit_and_forecast np_sqrt paths future model_name norm_name fb = inr out ->
  fit_and_forecast np_sqrt paths future model_name norm_name never_canceled
  = inr out_full ->
  (idx < n_pixels_of paths)%nat ->
  reached fb idx ->
  out_r2 out !! idx = out_r2 out_full !! idx /\
  out_rmse out !! idx = out_rmse out_full !! idx /\
  forall j, forecast_at out j idx = forecast_at out_full j idx.
Proof.
  intros Hrun Hfull Hidx Hreach.
  apply (outputs_at_determined _ _ _ _ _ _ _ _ _ _ _
           Hrun Hfull eq_refl eq_refl eq_refl Hidx Hidx).
  split; [|intros _; exact Hreach].
  intros _ i _. reflexivity.
Qed.

Lemma cancelled_run_agrees_on_prefix_witness :
  exists out out_full,
    fit_and_forecast sqrt_floor scenario_A [2015%Z] Linear NormNone
                     (canceled_from 2) = inr out /\
    fit_and_forecast sqrt_floor scenario_A [2015%Z] Linear NormNone
                     never_canceled = inr out_full /\
    reached (canceled_from 2) 1 /\
    out_r2 out !! 1%nat = out_r2 out_full !! 1%nat /\
    forecast_at out 0 1 = forecast_at out_full 0 1.
Proof.
  eexists. eexists.
  assert (Hrun : fit_and_forecast sqrt_floor scenario_A [2015%Z] Linear
                   NormNone (canceled_from 2) = inr _)
    by (vm_compute; reflexivity).
  assert (Hfull : fit_and_forecast sqrt_floor scenario_A [2015%Z] Linear
                    NormNone never_canceled = inr _)
    by (vm_compute; reflexivity).
  assert (Hreach : reached (canceled_from 2) 1).
  { intros i Hi. destruct i as [|[|i]]; [reflexivity | reflexivity | lia]. }
  destruct (cancelled_run_agrees_on_prefix _ _ _ _ _ _ _ _ 1%nat Hrun Hfull)
    as (H1 & _ & H3).
  - vm_compute; lia.
  - exact Hreach.
  - split; [exact Hrun|]. split; [exact Hfull|]. split; [exact Hreach|].
    split; [exact H1 | exact (H3 0%nat)].
Defined.

(** ** When the run succeeds and how it fails *)

Lemma defined_nonempty_iff (a : list fval) :
  defined a <> [] <-> exists idx q, a !! idx = Some (num q).
Proof.
  induction a as [|v a IH]; simpl.
  - split; [congruence | intros (idx & q & H); discriminate].
  - destruct v as [|q]; simpl.
    + rewrite IH. split.
      * intros (idx & q & H). exists (S idx), q. exact H.
      * intros (idx & q & H). destruct idx as [|idx]; [discriminate|].
        exists idx, q. exact H.
    + split; [|discriminate]. intros _. exists O, q. reflexivity.
Qed.

Lemma stats_line_nonempty (a : vec) :
  a <> [] -> exists st, stats_line a = inr st.
Proof. destruct a; [congruence|]. intros _. eexists. reflexivity. Qed.

Lemma log_metrics_cases (r2_vals rmse_vals : list fval) :
  (defined r2_vals <> [] /\ defined rmse_vals <> [] /\
   exists s, log_metrics r2_vals rmse_vals = inr s) \/
  ((defined r2_vals = [] \/ defined rmse_vals = []) /\
   log_metrics r2_vals rmse_vals
   = raise (ValueError
       "zero-size array to reduction operation minimum which has no identity")).
Proof.
  unfold log_metrics.
  destruct (defined r2_vals) as [|q1 v1]; simpl; [right; auto|].
  destruct (defined rmse_vals) as [|q2 v2]; simpl; [right; auto|].
  left. repeat split; try discriminate. eexists. reflexivity.
Qed.

(** X6.  The metric log succeeds exactly when both arrays hold a defined
    entry; in every other case it raises the [ValueError] of a minimum or
    maximum over an empty array. *)
Theorem log_metrics_succeeds_iff (r2_vals rmse_vals : list fval) :
  ((exists s, log_metrics r2_vals rmse_vals = inr s) <->
   (exists idx q, r2_vals !! idx = Some (num q)) /\
   (exists idx q, rmse_vals !! idx = Some (num q))) /\
  ((forall s, log_metrics r2_vals rmse_vals <> inr s) ->
   log_metrics r2_vals rmse_vals
   = raise (ValueError
       "zero-size array to reduction operation minimum which has no identity")).
Proof.
  rewrite <- !defined_nonempty_iff.
  destruct (log_metrics_cases r2_vals rmse_vals)
    as [(H1 & H2 & s & Hs) | [Hempty Herr]].
  - split; [|intros Hnever; exfalso; exact (Hnever s Hs)].
    split; [intros _; split; assumption | intros _; exists s; exact Hs].
  - split; [|intros _; exact Herr].
    split; [|intros [H1 H2]; destruct Hempty; congruence].
    intros [s Hs]. rewrite Herr in Hs. discriminate.
Qed.

Lemma fitted_pixel_defined
      np_sqrt paths future model_name norm_name fb out idx :
  fit_and_forecast np_sqrt paths future model_name norm_name fb = inr out ->
  (2 <= length paths)%nat ->
  (idx < n_pixels_of paths)%nat ->
  reached fb idx ->
  series_valid (first_nodata paths) (pixel_series paths idx) = true ->
  (exists q, out_r2 out !! idx = Some (num q)) /\
  (exists q, out_rmse out !! idx = Some (num q)).
Proof.
  intros Hrun Hn Hidx Hreach Hvalid.
  destruct (forecast_fitted _ _ _ _ _ _ _ idx Hrun Hidx)
    as (yf & ff & Hf & H1 & H2 & _).
  { now apply visited_reached_iff. }
  { exact Hvalid. }
  destruct (expand_features_lengths _ _ _ _ _ Hf) as [Hyf _].
  unfold reshape_col, observed_years, np_arange in Hyf.
  rewrite !length_map, length_seq in Hyf.
  destruct (fit_pixel_r2_defined np_sqrt model_name norm_name yf ff
              (pixel_series paths idx)) as [q Hq]; [lia|].
  destruct (fit_pixel_metrics np_sqrt model_name norm_name yf ff
              (pixel_series paths idx)) as [_ Hrmse].
  simpl in H1, H2. rewrite Hq in H1. rewrite Hrmse in H2. eauto.
Qed.

Lemma defined_entry_fitted
      np_sqrt paths future model_name norm_name fb out idx q :
  fit_and_forecast np_sqrt paths future model_name norm_name fb = inr out ->
  out_r2 out !! idx = Some (num q) ->
  (idx < n_pixels_of paths)%nat /\ reached fb idx /\
  series_valid (first_nodata paths) (pixel_series paths idx) = true.
Proof.
  intros Hrun Hq.
  destruct (out_lengths _ _ _ _ _ _ _ Hrun) as (L1 & _ & _).
  assert (Hidx : (idx < n_pixels_of paths)%nat).
  { apply lookup_lt_Some in Hq. lia. }
  split; [exact Hidx|].
  destruct (in_dec Nat.eq_dec idx (visited fb (seq 0 (n_pixels_of paths))))
    as [Hvis | Hnvis].
  - split; [now apply (visited_reached_iff fb (n_pixels_of paths))|].
    destruct (series_valid _ _) eqn:Hvalid; [reflexivity|].
    destruct (forecast_default _ _ _ _ _ _ _ idx Hrun Hidx) as (H1 & _).
    { intros [_ Hv]. congruence. }
    congruence.
  - destruct (forecast_default _ _ _ _ _ _ _ idx Hrun Hidx) as (H1 & _).
    { intros [Hv _]. contradiction. }
    congruence.
Qed.

(** ** The summary statistics *)

Lemma foldl_Qmin_le (x : Q) (xs : vec) :
  foldl Qmin x xs <= x /\ Forall (fun v => foldl Qmin x xs <= v) xs.
Proof.
  revert x. induction xs as [|a xs IH]; intros x; simpl.
  - split; [apply Qle_refl | constructor].
  - destruct (IH (Qmin x a)) as [H1 H2]. split.
    + eapply Qle_trans; [exact H1 | apply Q.le_min_l].
    + constructor; [|exact H2].
      eapply Qle_trans; [exact H1 | apply Q.le_min_r].
Qed.

Lemma foldl_Qmax_ge (x : Q) (xs : vec) :
  x <= foldl Qmax x xs /\ Forall (fun v => v <= foldl Qmax x xs) xs.
Proof.
  revert x. induction xs as [|a xs IH]; intros x; simpl.
  - split; [apply Qle_refl | constructor].
  - destruct (IH (Qmax x a)) as [H1 H2]. split.
    + eapply Qle_trans; [apply Q.le_max_l | exact H1].
    + constructor; [|exact H2].
      eapply Qle_trans; [apply Q.le_max_r | exact H1].
Qed.

Lemma np_min_le (v : vec) x : In x v -> np_min v <= x.
Proof.
  destruct v as [|a v]; simpl; [tauto|].
  destruct (foldl_Qmin_le a v) as [H1 H2].
  intros [<- | Hin]; [exact H1|].
  rewrite List.Forall_forall in H2. now apply H2.
Qed.

Lemma np_max_ge (v : vec) x : In x v -> x <= np_max v.
Proof.
  destruct v as [|a v]; simpl; [tauto|].
  destruct (foldl_Qmax_ge a v) as [H1 H2].
  intros [<- | Hin]; [exact H1|].
  rewrite List.Forall_forall in H2. now apply H2.
Qed.

Lemma inject_nat_succ n :
  inject_Z (Z.of_nat (S n)) == inject_Z (Z.of_nat n) + 1.
Proof. rewrite Nat2Z.inj_succ, <- Z.add_1_r, inject_Z_plus. reflexivity. Qed.

Lemma inject_nat_nonneg n : 0 <= inject_Z (Z.of_nat n).
Proof.
  change 0 with (inject_Z 0). rewrite <- Zle_Qle. apply Nat2Z.is_nonneg.
Qed.

Lemma Qsum_bounds (v : vec) lo hi :
  Forall (fun x => lo <= x <= hi) v ->
  inject_Z (Z.of_nat (length v)) * lo <= Qsum v /\
  Qsum v <= inject_Z (Z.of_nat (length v)) * hi.
Proof.
  induction 1 as [|x v [Hlo Hhi] _ [IH1 IH2]].
  - change (inject_Z (Z.of_nat (length (@nil Q)))) with 0.
    change (Qsum []) with 0. split; lra.
  - cbn [length Qsum foldr]. fold (Qsum v).
    pose proof (inject_nat_succ (length v)) as Hs. split; nra.
Qed.

Lemma np_mean_bounds (v : vec) :
  v <> [] -> np_min v <= np_mean v <= np_max v.
Proof.
  intros Hne. unfold np_mean.
  assert (Hpos : 0 < inject_Z (Z.of_nat (length v))).
  { destruct v as [|a v]; [congruence|].
    pose proof (inject_nat_succ (length v)) as Hs.
    pose proof (inject_nat_nonneg (length v)). cbn [length]. lra. }
  destruct (Qsum_bounds v (np_min v) (np_max v)) as [H1 H2].
  { apply List.Forall_forall. intros x Hin.
    split; [now apply np_min_le | now apply np_max_ge]. }
  split.
  - apply Qle_shift_div_l; [exact Hpos|]. rewrite Qmult_comm. exact H1.
  - apply Qle_shift_div_r; [exact Hpos|]. rewrite Qmult_comm. exact H2.
Qed.

Lemma defined_In (a : list fval) q :
  In q (defined a) <-> exists idx, a !! idx = Some (num q).
Proof.
  induction a as [|v a IH]; simpl.
  - split; [tauto | intros [idx H]; discriminate].
  - destruct v as [|q0]; simpl.
    + rewrite IH. split.
      * intros [idx H]. now exists (S idx).
      * intros [[|idx] H]; [discriminate | now exists idx].
    + rewrite IH. split.
      * intros [-> | [idx H]]; [now exists O | now exists (S idx)].
      * intros [[|idx] H]; [left; now injection H | right; now exists idx].
Qed.

Lemma stats_line_bounds (a : vec) st :
  stats_line a = inr st ->
  (forall q, In q a -> s_min st <= q <= s_max st) /\
  exists m, s_mean st = num m /\ s_min st <= m <= s_max st.
Proof.
  destruct a as [|x a]; [discriminate|].
  intros [= <-]. cbn [s_min s_max s_mean]. split.
  - intros q Hin.
    split; [exact (np_min_le (x :: a) q Hin) | exact (np_max_ge (x :: a) q Hin)].
  - exists (np_mean (x :: a)). split; [reflexivity|].
    apply (np_mean_bounds (x :: a)). discriminate.
Qed.

(** X9.  When the metric log succeeds, the logged minimum and maximum of
    R2 bracket every defined R2 entry and the logged mean, and likewise
    for RMSE. *)
Theorem summary_stats_bounds (r2_vals rmse_vals : list fval) s :
  log_metrics r2_vals rmse_vals = inr s ->
  (forall idx q, r2_vals !! idx = Some (num q) ->
     s_min (r2_stats s) <= q <= s_max (r2_stats s)) /\
  (exists m, s_mean (r2_stats s) = num m /\
     s_min (r2_stats s) <= m <= s_max (r2_stats s)) /\
  (forall idx q, rmse_vals !! idx = Some (num q) ->
     s_min (rmse_stats s) <= q <= s_max (rmse_stats s)) /\
  (exists m, s_mean (rmse_stats s) = num m /\
     s_min (rmse_stats s) <= m <= s_max (rmse_stats s)).
Proof.
  unfold log_metrics.
  destruct (stats_line (defined r2_vals)) as [e|l1] eqn:H1; simpl; [discriminate|].
  destruct (stats_line (defined rmse_vals)) as [e|l2] eqn:H2; simpl; [discriminate|].
  intros [= <-]. cbn [r2_stats rmse_stats].
  destruct (stats_line_bounds _ _ H1) as [B1 M1].
  destruct (stats_line_bounds _ _ H2) as [B2 M2].
  split; [|split; [exact M1 | split; [|exact M2]]].
  - intros idx q Hq. apply B1. apply defined_In. eauto.
  - intros idx q Hq. apply B2. apply defined_In. eauto.
Qed.

Lemma summary_stats_bounds_witness :
  exists s,
    log_metrics [nan; num 1; num (1 # 2)] [nan; num 2; num 4] = inr s /\
    s_min (r2_stats s) <= 1 # 2 <= s_max (r2_stats s).
Proof.
  eexists.
  assert (Hlog : log_metrics [nan; num 1; num (1 # 2)] [nan; num 2; num 4]
                 = inr _) by reflexivity.
  split; [exact Hlog|].
  destruct (summary_stats_bounds _ _ _ Hlog) as (H1 & _).
  exact (H1 2%nat (1 # 2) eq_refl).
Defined.

Lemma filter_length_le {A} (f : A -> bool) (l : list A) :
  (length (List.filter f l) <= length l)%nat.
Proof.
  induction l as [|x l IH]; simpl; [lia|].
  destruct (f x); simpl; lia.
Qed.

Lemma filter_all {A} (f : A -> bool) (l : list A) :
  (forall x, In x l -> f x = true) -> List.filter f l = l.
Proof.
  induction l as [|x l IH]; simpl; intros Hall; [reflexivity|].
  rewrite (Hall x) by (now left). f_equal. apply IH.
  intros y Hy. apply Hall. now right.
Qed.

(** X10.  The robust percentage is 100 times the share of defined R2
    entries that are at least 0.7: it lies between 0 and 100, and it is
    100 when every defined R2 is at least 0.7. *)
Theorem robust_pct_bounds (r2_vals rmse_vals : list fval) s :
  log_metrics r2_vals rmse_vals = inr s ->
  0 <= robust_pct s <= 100 /\
  ((forall idx q, r2_vals !! idx = Some (num q) -> (7 # 10) <= q) ->
   robust_pct s == 100).
Proof.
  unfold log_metrics.
  destruct (stats_line (defined r2_vals)) as [e|l1] eqn:H1; cbn [bind];
    [discriminate|].
  destruct (stats_line (defined rmse_vals)) as [e|l2]; cbn [bind];
    [discriminate|].
  intros [= <-]. cbn [robust_pct].
  set (vr2 := defined r2_vals) in *.
  set (robust := List.filter (fun v => Qle_bool (7 # 10) v) vr2).
  assert (Hpos : 0 < inject_Z (Z.of_nat (length vr2))).
  { destruct vr2 as [|x vr2]; [discriminate|].
    pose proof (inject_nat_succ (length vr2)) as Hs.
    pose proof (inject_nat_nonneg (length vr2)). cbn [length]. lra. }
  assert (Hle : inject_Z (Z.of_nat (length robust))
                <= inject_Z (Z.of_nat (length vr2))).
  { rewrite <- Zle_Qle. apply Nat2Z.inj_le. apply filter_length_le. }
  pose proof (inject_nat_nonneg (length robust)) as Hnn.
  split; [split|].
  - apply Qle_shift_div_l; [exact Hpos|]. lra.
  - apply Qle_shift_div_r; [exact Hpos|]. lra.
  - intros Hall.
    assert (Hrob : robust = vr2).
    { apply filter_all. intros q Hin. apply Qle_bool_iff.
      apply defined_In in Hin as [idx Hidx].
      eapply Hall; eauto. }
    rewrite Hrob. field. lra.
Qed.

Lemma robust_pct_bounds_witness :
  exists s,
    log_metrics [nan; num 1; num (1 # 2)] [nan; num 2; num 4] = inr s /\
    0 <= robust_pct s <= 100.
Proof.
  eexists.
  assert (Hlog : log_metrics [nan; num 1; num (1 # 2)] [nan; num 2; num 4]
                 = inr _) by reflexivity.
  split; [exact Hlog|].
  exact (proj1 (robust_pct_bounds _ _ _ Hlog)).
Defined.

(** ** MinMax normalisation *)

(** X11.  Under MinMax normalisation every value of a pixel's normalised
    series lies between 0 and 1; this includes constant series, whose zero
    range is replaced by 1 so that nothing is divided by zero. *)
Theorem minmax_normalized_range (np_sqrt : Q -> Q) (y : vec) :
  Forall (fun v => 0 <= v <= 1) (snd (normalize np_sqrt MinMax y)).
Proof.
  cbn [normalize snd]. unfold preprocessing.MinMaxScaler_fit.
  cbn [preprocessing.transform].
  apply Forall_map. apply List.Forall_forall. intros x Hin. simpl.
  pose proof (np_min_le y x Hin) as Hlo.
  pose proof (np_max_ge y x Hin) as Hhi.
  set (lo := np_min y) in *. set (hi := np_max y) in *.
  unfold preprocessing.handle_zeros_in_scale.
  destruct (Qeq_bool (hi - lo) 0) eqn:Hrange.
  - apply Qeq_bool_iff in Hrange.
    assert (Hval : x * ((1 - 0) / 1) + (0 - lo * ((1 - 0) / 1)) == x - lo)
      by field.
    rewrite Hval. split; lra.
  - assert (Hne : ~ hi - lo == 0).
    { intros Heq. apply Qeq_bool_iff in Heq. congruence. }
    assert (Hpos : 0 < hi - lo) by lra.
    assert (Hval : x * ((1 - 0) / (hi - lo)) + (0 - lo * ((1 - 0) / (hi - lo)))
                   == (x - lo) / (hi - lo)) by (field; exact Hne).
    rewrite Hval. split.
    + apply Qle_shift_div_l; [exact Hpos | lra].
    + apply Qle_shift_div_r; [exact Hpos | lra].
Qed.

(** ** Future years do not interact *)

Lemma expand_features_app model_name Y (f1 f2 : list Z) yf ff :
  expand_features model_name Y (reshape_col (f1 ++ f2)) = inr (yf, ff) ->
  exists ff1 ff2,
    ff = ff1 ++ ff2 /\
    expand_features model_name Y (reshape_col f1) = inr (yf, ff1) /\
    expand_features model_name Y (reshape_col f2) = inr (yf, ff2).
Proof.
  unfold reshape_col. rewrite map_app.
  set (F1 := map _ f1). set (F2 := map _ f2).
  unfold expand_features, preprocessing.PolynomialFeatures_transform.
  destruct model_name;
    try (intros [= <- <-]; exists F1, F2; repeat split; reflexivity).
  destruct (forallb _ Y); simpl; [|discriminate].
  rewrite forallb_app.
  destruct (forallb _ F1); simpl; [|discriminate].
  destruct (forallb _ F2); simpl; [|discriminate].
  intros [= <- <-]. rewrite map_app. eauto.
Qed.

Lemma fit_pixel_app np_sqrt model_name norm_name yf ff1 ff2 y :
  fit_pixel np_sqrt model_name norm_name yf (ff1 ++ ff2) y
  = (fst (fst (fit_pixel np_sqrt model_name norm_name yf ff1 y))
       ++ fst (fst (fit_pixel np_sqrt model_name norm_name yf ff2 y)),
     snd (fst (fit_pixel np_sqrt model_name norm_name yf ff1 y)),
     snd (fit_pixel np_sqrt model_name norm_name yf ff1 y)) /\
  snd (fst (fit_pixel np_sqrt model_name norm_name yf ff2 y))
  = snd (fst (fit_pixel np_sqrt model_name norm_name yf ff1 y)) /\
  snd (fit_pixel np_sqrt model_name norm_name yf ff2 y)
  = snd (fit_pixel np_sqrt model_name norm_name yf ff1 y).
Proof.
  unfold fit_pixel.
  destruct (normalize np_sqrt norm_name y) as [scaler y_norm]. simpl.
  repeat split. f_equal. f_equal.
  unfold linear_model.predict. rewrite map_app.
  destruct scaler as [[? ?|? ?]|]; simpl; try reflexivity; apply map_app.
Qed.

Lemma set_col_app idx (p1 p2 : vec) (P1 P2 : list vec) :
  length P1 = length p1 ->
  set_col idx (p1 ++ p2) (P1 ++ P2) = set_col idx p1 P1 ++ set_col idx p2 P2.
Proof. intros Hl. unfold set_col. now apply zip_with_app. Qed.

Lemma pixel_loop_app np_sqrt fb model_name norm_name yf ff1 ff2 valid_flat flat
      idxs st st1 st2 :
  preds st = preds st1 ++ preds st2 ->
  length (preds st1) = length ff1 ->
  r2_vals st = r2_vals st1 -> r2_vals st = r2_vals st2 ->
  rmse_vals st = rmse_vals st1 -> rmse_vals st = rmse_vals st2 ->
  let run ff s := pixel_loop np_sqrt fb model_name norm_name yf ff
                             valid_flat flat idxs s in
  preds (run (ff1 ++ ff2) st) = preds (run ff1 st1) ++ preds (run ff2 st2) /\
  r2_vals (run (ff1 ++ ff2) st) = r2_vals (run ff1 st1) /\
  r2_vals (run (ff1 ++ ff2) st) = r2_vals (run ff2 st2) /\
  rmse_vals (run (ff1 ++ ff2) st) = rmse_vals (run ff1 st1) /\
  rmse_vals (run (ff1 ++ ff2) st) = rmse_vals (run ff2 st2).
Proof.
  revert st st1 st2.
  induction idxs as [|idx rest IH]; intros st st1 st2 Hp Hl Ha Hb Hc Hd; simpl.
  - auto.
  - destruct (isCanceled fb idx); [auto|].
    destruct (negb (nth idx valid_flat false)); [now apply IH|].
    destruct (fit_pixel_app np_sqrt model_name norm_name yf ff1 ff2
                (column idx flat)) as (E & Er2 & Ermse).
    pose proof (fit_pixel_pred_length np_sqrt model_name norm_name yf ff1
                  (column idx flat)) as Hlen1.
    rewrite E.
    destruct (fit_pixel np_sqrt model_name norm_name yf ff1 (column idx flat))
      as [[pred1 r2] rmse].
    destruct (fit_pixel np_sqrt model_name norm_name yf ff2 (column idx flat))
      as [[pred2 r2'] rmse'].
    simpl in *. subst r2' rmse'.
    apply IH; simpl.
    + rewrite Hp. apply set_col_app. congruence.
    + rewrite set_col_length; congruence.
    + now rewrite Ha.
    + now rewrite Hb.
    + now rewrite Hc.
    + now rewrite Hd.
Qed.

(** X12.  Forecasting two lists of future years in one run gives the
    grids of the two separate runs, one after the other, and the R2 and
    RMSE arrays of either: the metrics do not depend on the future years,
    and the grid of a year does not depend on the other years asked for. *)
Theorem forecast_years_independent
        np_sqrt paths (f1 f2 : list Z) model_name norm_name fb out :
  fit_and_forecast np_sqrt paths (f1 ++ f2) model_name norm_name fb = inr out ->
  exists out1 out2,
    fit_and_forecast np_sqrt paths f1 model_name norm_name fb = inr out1 /\
    fit_and_forecast np_sqrt paths f2 model_name norm_name fb = inr out2 /\
    pred_grids out = pred_grids out1 ++ pred_grids out2 /\
    out_r2 out = out_r2 out1 /\ out_r2 out = out_r2 out2 /\
    out_rmse out = out_rmse out1 /\ out_rmse out = out_rmse out2.
Proof.
  intros Hrun.
  destruct (fit_and_forecast_inv _ _ _ _ _ _ _ Hrun)
    as (yf & ff & Hstack & Hf & ->).
  destruct (expand_features_app _ _ _ _ _ _ Hf) as (ff1 & ff2 & -> & Hf1 & Hf2).
  destruct (expand_features_lengths _ _ _ _ _ Hf1) as [_ L1].
  destruct (expand_features_lengths _ _ _ _ _ Hf2) as [_ L2].
  unfold reshape_col in L1, L2. rewrite length_map in L1, L2.
  unfold fit_and_forecast. rewrite Hstack. cbn [bind].
  fold (n_pixels_of paths). fold (input_mask paths). fold (flat_of paths).
  unfold n_pixels_of, input_mask, flat_of.
  destruct (shape12 (map read1 paths)) as [H W] eqn:Hshape. cbn [fst snd].
  rewrite Hf1, Hf2. cbn [bind].
  eexists. eexists. split; [reflexivity|]. split; [reflexivity|].
  cbn [pred_grids out_r2 out_rmse].
  unfold reshape_col. rewrite !length_map, length_app.
  match goal with |- context [pixel_loop _ _ _ _ _ _ ?v ?f ?idxs _] =>
    destruct (pixel_loop_app np_sqrt fb model_name norm_name yf ff1 ff2 v f idxs
                (initial_arrays (length f1 + length f2) (H * W))
                (initial_arrays (length f1) (H * W))
                (initial_arrays (length f2) (H * W)))
      as (P & R1 & R2 & M1 & M2)
  end; try reflexivity.
  - simpl. apply replicate_add.
  - simpl. rewrite length_replicate. congruence.
  - cbn zeta in P, R1, R2, M1, M2.
    rewrite P, map_app. repeat split; assumption.
Qed.

Lemma forecast_years_independent_witness :
  exists out out1 out2,
    fit_and_forecast sqrt_floor scenario_A ([2015%Z] ++ [2016%Z]) Linear
                     NormNone never_canceled = inr out /\
    fit_and_forecast sqrt_floor scenario_A [2015%Z] Linear NormNone
                     never_canceled = inr out1 /\
    fit_and_forecast sqrt_floor scenario_A [2016%Z] Linear NormNone
                     never_canceled = inr out2 /\
    pred_grids out = pred_grids out1 ++ pred_grids out2 /\
    out_r2 out = out_r2 out1.
Proof.
  eexists.
  assert (Hrun : fit_and_forecast sqrt_floor scenario_A ([2015%Z] ++ [2016%Z])
                   Linear NormNone never_canceled = inr _)
    by (vm_compute; reflexivity).
  destruct (forecast_years_independent _ _ _ _ _ _ _ _ Hrun)
    as (out1 & out2 & H1 & H2 & H3 & H4 & _).
  exists out1, out2. auto.
Defined.

(** ** The future-years text *)

Lemma digit_char_facts c :
  py.isdigit_char c = true ->
  py.isspace c = false /\
  Ascii.eqb c "," = false /\ Ascii.eqb c "_" = false /\
  Ascii.eqb c "-" = false /\ Ascii.eqb c "+" = false /\
  forall d, exists d', uint_of_char c (Some d) = Some d'.
Proof.
  destruct c as [[|] [|] [|] [|] [|] [|] [|] [|]]; try discriminate;
    intros _; repeat split; intros d; eexists; reflexivity.
Qed.

Lemma digits_value (s : string) :
  py.all_chars py.isdigit_char s = true ->
  exists d, NilEmpty.uint_of_string s = Some d.
Proof.
  induction s as [|c s IH]; simpl.
  - eauto.
  - intros Hall. apply andb_prop in Hall as [Hc Hs].
    destruct (IH Hs) as [d ->].
    destruct (digit_char_facts c Hc) as (_ & _ & _ & _ & _ & Hd).
    apply Hd.
Qed.

Lemma digits_no_underscore (s : string) :
  py.all_chars py.isdigit_char s = true -> py.remove_underscores s = s.
Proof.
  induction s as [|c s IH]; simpl; [reflexivity|].
  intros Hall. apply andb_prop in Hall as [Hc Hs].
  destruct (digit_char_facts c Hc) as (_ & _ & -> & _).
  now rewrite IH.
Qed.

Lemma digits_literal (s : string) b :
  py.all_chars py.isdigit_char s = true ->
  py.digits_with_underscores b s
  = match s with EmptyString => b | _ => true end.
Proof.
  revert b. induction s as [|c s IH]; intros b; simpl; [reflexivity|].
  intros Hall. apply andb_prop in Hall as [Hc Hs].
  rewrite Hc, IH by exact Hs. now destruct s.
Qed.

Lemma of_uint_nonneg d : (0 <= Z.of_uint d)%Z.
Proof. unfold Z.of_uint. apply N2Z.is_nonneg. Qed.

Lemma isspace_cases c :
  py.isspace c = py.Py_ISSPACE c || is_separator c.
Proof. destruct c as [[|] [|] [|] [|] [|] [|] [|] [|]]; reflexivity. Qed.

Lemma literal_char_no_separator c :
  py.Py_ISSPACE c || py.isdigit_char c || Ascii.eqb c "_"
  || Ascii.eqb c "-" || Ascii.eqb c "+" = true ->
  negb (is_separator c) = true.
Proof.
  destruct c as [[|] [|] [|] [|] [|] [|] [|] [|]];
    try reflexivity; discriminate.
Qed.

Lemma all_chars_impl (P R : ascii -> bool) (s : string) :
  (forall c, P c = true -> R c = true) ->
  py.all_chars P s = true -> py.all_chars R s = true.
Proof.
  intros Himp. induction s as [|c s IH]; simpl; [reflexivity|].
  intros Hall. apply andb_prop in Hall as [Hc Hs].
  now rewrite (Himp c Hc), IH.
Qed.

Lemma no_separator_lstrip (s : string) :
  no_separator s -> no_separator (py.lstrip s).
Proof.
  unfold no_separator. induction s as [|c s IH]; simpl; [reflexivity|].
  intros Hall. destruct (py.isspace c); [|exact Hall].
  apply andb_prop in Hall as [_ Hs]. now apply IH.
Qed.

(** On text without separators [int] skips what [strip] removes. *)
Lemma skip_leading_lstrip (s : string) :
  no_separator s -> py.skip_leading s = py.lstrip s.
Proof.
  unfold no_separator. induction s as [|c s IH]; simpl; [reflexivity|].
  intros Hall. apply andb_prop in Hall as [Hc Hs].
  rewrite isspace_cases. apply negb_true_iff in Hc. rewrite Hc, orb_false_r.
  destruct (py.Py_ISSPACE c); [now apply IH | reflexivity].
Qed.

Lemma skip_trailing_rstrip (s : string) :
  no_separator s -> py.skip_trailing s = py.rstrip s.
Proof.
  unfold no_separator. induction s as [|c s IH]; simpl; [reflexivity|].
  intros Hall. apply andb_prop in Hall as [Hc Hs].
  rewrite isspace_cases. apply negb_true_iff in Hc. rewrite Hc, orb_false_r.
  now rewrite IH.
Qed.

Lemma skip_strip (x : string) :
  no_separator x -> py.skip_trailing (py.skip_leading x) = py.strip x.
Proof.
  intros Hx. unfold py.strip.
  rewrite skip_leading_lstrip by exact Hx.
  apply skip_trailing_rstrip. now apply no_separator_lstrip.
Qed.

(** Skipping whitespace removes no other character. *)
Lemma all_chars_skip_leading (P : ascii -> bool) (s : string) :
  (forall c, py.Py_ISSPACE c = true -> P c = true) ->
  py.all_chars P (py.skip_leading s) = py.all_chars P s.
Proof.
  intros Hws. induction s as [|c s IH]; simpl; [reflexivity|].
  destruct (py.Py_ISSPACE c) eqn:Hc; [|reflexivity].
  now rewrite IH, (Hws c Hc).
Qed.

Lemma all_chars_skip_trailing (P : ascii -> bool) (s : string) :
  (forall c, py.Py_ISSPACE c = true -> P c = true) ->
  py.all_chars P (py.skip_trailing s) = py.all_chars P s.
Proof.
  intros Hws. induction s as [|c s IH]; simpl; [reflexivity|].
  rewrite <- IH.
  destruct (py.skip_trailing s) as [|c' r]; [|reflexivity].
  destruct (py.Py_ISSPACE c) eqn:Hc; simpl.
  - now rewrite (Hws c Hc).
  - reflexivity.
Qed.

Lemma literal_chars (s : string) b :
  py.digits_with_underscores b s = true ->
  py.all_chars (fun c => py.isdigit_char c || Ascii.eqb c "_") s = true.
Proof.
  revert b. induction s as [|c s IH]; intros b; simpl; [reflexivity|].
  destruct (py.isdigit_char c); simpl; [apply IH|].
  destruct (Ascii.eqb c "_"); simpl; [|discriminate].
  intros Hb. apply andb_prop in Hb as [_ Hs]. exact (IH _ Hs).
Qed.

(** [int] on a piece that passes the guard of line 105 and holds no
    separator. *)
Lemma int_of_guarded (x : string) :
  py.isdigit (py.strip x) = true -> no_separator x ->
  exists d, NilEmpty.uint_of_string (py.strip x) = Some d /\
            py.int x = inr (Z.of_uint d).
Proof.
  intros Hguard Hx. unfold py.int. rewrite (skip_strip x Hx).
  revert Hguard. unfold py.isdigit.
  destruct (py.strip x) as [|c s] eqn:Hstrip; [discriminate|].
  intros Hall.
  destruct (digits_value _ Hall) as [d Hd].
  pose proof (digits_literal _ false Hall) as Hlit.
  pose proof (digits_no_underscore _ Hall) as Hund.
  simpl in Hall. apply andb_prop in Hall as [Hc _].
  destruct (digit_char_facts c Hc) as (_ & _ & _ & -> & -> & _).
  rewrite Hlit, Hund, Hd. eauto.
Qed.

(** Whatever [int] accepts holds no separator. *)
Lemma int_no_separator (x : string) z :
  py.int x = inr z -> no_separator x.
Proof.
  unfold py.int, no_separator. intros Hint.
  rewrite <- (all_chars_skip_leading _ x), <- (all_chars_skip_trailing _ _);
    try (intros c Hc; apply literal_char_no_separator; now rewrite Hc).
  destruct (py.skip_trailing (py.skip_leading x)) as [|c r];
    [reflexivity|].
  assert (Hcases : forall body,
            py.digits_with_underscores false body = true ->
            py.all_chars (fun c => negb (is_separator c)) body = true).
  { intros body Hlit.
    apply (all_chars_impl (fun c => py.isdigit_char c || Ascii.eqb c "_"));
      [|exact (literal_chars _ _ Hlit)].
    intros c0 Hc0. apply literal_char_no_separator.
    apply orb_prop in Hc0 as [-> | ->]; now rewrite ?orb_true_r. }
  revert Hint.
  destruct (Ascii.eqb c "-") eqn:Hminus;
    [|destruct (Ascii.eqb c "+") eqn:Hplus].
  - destruct (py.digits_with_underscores false r) eqn:Hlit; [|discriminate].
    intros _. simpl. rewrite (Hcases r Hlit), andb_true_r.
    apply literal_char_no_separator. now rewrite Hminus, ?orb_true_r.
  - destruct (py.digits_with_underscores false r) eqn:Hlit; [|discriminate].
    intros _. simpl. rewrite (Hcases r Hlit), andb_true_r.
    apply literal_char_no_separator. now rewrite Hplus, ?orb_true_r.
  - destruct (py.digits_with_underscores false (String c r)) eqn:Hlit;
      [|discriminate].
    intros _. exact (Hcases _ Hlit).
Qed.

Lemma int_error (x : string) e :
  py.int x = inl e ->
  e = ValueError "invalid literal for int() with base 10".
Proof.
  unfold py.int.
  destruct (match py.skip_trailing (py.skip_leading x) with
            | EmptyString => _ | String c r => _ end) as [negative body].
  destruct (py.digits_with_underscores false body);
    [destruct (NilEmpty.uint_of_string _)|]; intros [= <-]; reflexivity.
Qed.

Lemma result_map_ok {A B} (f : A -> result B) (l : list A) :
  (exists ys, result_map f l = inr ys) <-> Forall (fun x => exists y, f x = inr y) l.
Proof.
  induction l as [|x l IH]; simpl.
  - split; [constructor | eauto].
  - split.
    + intros [ys Hys].
      destruct (f x) as [e|y] eqn:Hx; simpl in Hys; [discriminate|].
      destruct (result_map f l) as [e|ys'] eqn:Hl; simpl in Hys; [discriminate|].
      constructor; [eauto | apply IH; eauto].
    + intros Hall. apply Forall_cons in Hall as [[y Hy] Hl].
      apply IH in Hl as [ys Hys]. rewrite Hy, Hys. simpl. eauto.
Qed.

Lemma result_map_error {A B} (f : A -> result B) (l : list A) e :
  result_map f l = inl e -> exists x, In x l /\ f x = inl e.
Proof.
  induction l as [|x l IH]; simpl; [discriminate|].
  destruct (f x) as [e'|y] eqn:Hx; simpl.
  - intros [= <-]. eauto.
  - destruct (result_map f l) as [e'|ys]; simpl; [|discriminate].
    intros [= <-]. destruct (IH eq_refl) as (x' & Hin & Hx'). eauto.
Qed.

Lemma result_map_values {A B} (f : A -> result B) (P : B -> Prop) (l : list A) ys :
  (forall x y, In x l -> f x = inr y -> P y) ->
  result_map f l = inr ys -> Forall P ys.
Proof.
  revert ys. induction l as [|x l IH]; intros ys HP; simpl.
  - intros [= <-]. constructor.
  - destruct (f x) as [e|y] eqn:Hx; simpl; [discriminate|].
    destruct (result_map f l) as [e|ys'] eqn:Hl; simpl; [discriminate|].
    intros [= <-]. constructor.
    + apply (HP x y); [now left | exact Hx].
    + apply IH; [|reflexivity]. intros x' y' Hin. apply HP. now right.
Qed.

Lemma Forall_filter_iff {A} (g : A -> bool) (P : A -> Prop) (l : list A) :
  Forall P (List.filter g l) <-> Forall (fun x => g x = true -> P x) l.
Proof.
  rewrite !List.Forall_forall. split.
  - intros H x Hin Hg. apply H. apply filter_In. auto.
  - intros H x Hin. apply filter_In in Hin as [Hin Hg]. auto.
Qed.

(** X13.  The parsing of the future years raises exactly when a piece
    that passes the guard holds one of the separators 28 to 31: [strip]
    removes them before [isdigit] is asked, [int] does not skip them.
    The error is the [ValueError] of [int]; the years of a text that
    parses are non-negative. *)
Theorem parse_future_years_succeeds_iff (fy_str : string) :
  ascii_text fy_str ->
  ((exists ys, parse_future_years fy_str = inr ys) <->
   Forall (fun x => py.isdigit (py.strip x) = true -> no_separator x)
          (py.split "," fy_str)) /\
  (forall ys, parse_future_years fy_str = inr ys ->
              Forall (fun y => (0 <= y)%Z) ys) /\
  (forall e, parse_future_years fy_str = inl e ->
             e = ValueError "invalid literal for int() with base 10").
Proof.
  intros _. unfold parse_future_years. repeat split.
  - intros Hok. apply result_map_ok in Hok.
    apply Forall_filter_iff in Hok.
    eapply Forall_impl; [exact Hok|]. simpl.
    intros x Hx Hguard. destruct (Hx Hguard) as [z Hz].
    exact (int_no_separator x z Hz).
  - intros Hall. apply result_map_ok, Forall_filter_iff.
    eapply Forall_impl; [exact Hall|]. simpl.
    intros x Hx Hguard.
    destruct (int_of_guarded x Hguard (Hx Hguard)) as (d & _ & Hd). eauto.
  - intros ys. apply result_map_values.
    intros x y Hin Hy. apply filter_In in Hin as [_ Hguard].
    destruct (int_of_guarded x Hguard (int_no_separator x y Hy)) as (d & _ & Hd).
    rewrite Hd in Hy. injection Hy as <-. apply of_uint_nonneg.
  - intros e He. apply result_map_error in He as (x & _ & Hx).
    exact (int_error x e Hx).
Qed.

Lemma parse_future_years_succeeds_iff_witness :
  ascii_text years_text_with_separator /\
  parse_future_years years_text_with_separator
  = inl (ValueError "invalid literal for int() with base 10") /\
  ascii_text "2028, 2033,-5,20 28,x,007" /\
  parse_future_years "2028, 2033,-5,20 28,x,007" = inr [2028; 2033; 7]%Z.
Proof.
  assert (H1 : ascii_text years_text_with_separator).
  { split; [reflexivity | vm_compute; discriminate]. }
  assert (H2 : ascii_text "2028, 2033,-5,20 28,x,007").
  { split; [reflexivity | vm_compute; discriminate]. }
  destruct (parse_future_years_succeeds_iff _ H1) as (_ & _ & Herr).
  destruct (parse_future_years_succeeds_iff _ H2) as (Hiff & _ & _).
  split; [exact H1|]. split.
  - destruct (parse_future_years years_text_with_separator) as [e|ys] eqn:Hp.
    + now rewrite (Herr e eq_refl).
    + vm_compute in Hp. discriminate Hp.
  - split; [exact H2|].
    destruct (proj2 Hiff) as [ys Hys].
    + change (py.split "," "2028, 2033,-5,20 28,x,007")
        with ["2028"; " 2033"; "-5"; "20 28"; "x"; "007"]%string.
      repeat (apply Forall_cons; split; [intros _; reflexivity|]).
      constructor.
    + rewrite Hys. vm_compute in Hys. symmetry. exact Hys.
Defined.

Lemma split_nonempty sep s : py.split sep s <> [].
Proof.
  induction s as [|c s IH]; simpl; [discriminate|].
  destruct (Ascii.eqb c sep); [discriminate|].
  destruct (py.split sep s); discriminate.
Qed.

Lemma split_app sep (a b : string) :
  py.split sep (a ++ String sep b) = py.split sep a ++ py.split sep b.
Proof.
  induction a as [|c a IH]; simpl.
  - now rewrite Ascii.eqb_refl.
  - destruct (Ascii.eqb c sep); [now rewrite IH|].
    rewrite IH.
    pose proof (split_nonempty sep a) as Hne.
    destruct (py.split sep a) as [|piece pieces]; [congruence | reflexivity].
Qed.

Lemma result_map_app {A B} (f : A -> result B) (l1 l2 : list A) y1 y2 :
  result_map f l1 = inr y1 -> result_map f l2 = inr y2 ->
  result_map f (l1 ++ l2) = inr (y1 ++ y2).
Proof.
  revert y1. induction l1 as [|x l1 IH]; intros y1; simpl.
  - intros [= <-]. auto.
  - destruct (f x) as [e|y]; simpl; [discriminate|].
    destruct (result_map f l1) as [e|ys]; simpl; [discriminate|].
    intros [= <-] H2. now rewrite (IH ys eq_refl H2).
Qed.

Lemma parse_app (a b : string) ya yb :
  parse_future_years a = inr ya -> parse_future_years b = inr yb ->
  parse_future_years (a ++ String "," b) = inr (ya ++ yb).
Proof.
  unfold parse_future_years. intros Ha Hb.
  rewrite split_app, List.filter_app. now apply result_map_app.
Qed.

(** X14.  Parsing distributes over the commas: the years of a text made
    of two texts joined by a comma are the years of the first followed by
    the years of the second, order and repetitions kept. *)
Theorem parse_future_years_app (a b : string) ya yb :
  ascii_text (a ++ "," ++ b) ->
  parse_future_years a = inr ya -> parse_future_years b = inr yb ->
  parse_future_years (a ++ "," ++ b) = inr (ya ++ yb).
Proof. intros _. apply parse_app. Qed.

Lemma parse_future_years_app_witness :
  ascii_text ("2028, x" ++ "," ++ "2028,2033") /\
  parse_future_years ("2028, x" ++ "," ++ "2028,2033")
  = inr ([2028] ++ [2028; 2033])%Z.
Proof.
  assert (Hascii : ascii_text ("2028, x" ++ "," ++ "2028,2033")).
  { split; [reflexivity | vm_compute; discriminate]. }
  split; [exact Hascii|].
  apply (parse_future_years_app "2028, x" "2028,2033" _ _ Hascii);
    reflexivity.
Defined.

Lemma uint_digits d :
  py.all_chars py.isdigit_char (NilEmpty.string_of_uint d) = true.
Proof. induction d; simpl; auto. Qed.

Lemma str_nonneg (n : Z) :
  (0 <= n)%Z ->
  exists d, d <> Decimal.Nil /\ py.str n = NilEmpty.string_of_uint d /\
            Z.of_uint d = n.
Proof.
  intros Hn. unfold py.str.
  pose proof (DecimalZ.of_to n) as Hround.
  destruct n as [|p|p]; [| |lia]; simpl in *.
  - exists Decimal.zero. repeat split. discriminate.
  - exists (Pos.to_uint p). split; [apply DecimalPos.Unsigned.to_uint_nonnil|].
    split; [|exact Hround].
    pose proof (DecimalPos.Unsigned.to_uint_nonnil p) as Hnn.
    now destruct (Pos.to_uint p).
Qed.

Lemma split_digits (s : string) :
  py.all_chars py.isdigit_char s = true -> py.split "," s = [s].
Proof.
  induction s as [|c s IH]; simpl; [reflexivity|].
  intros Hall. apply andb_prop in Hall as [Hc Hs].
  destruct (digit_char_facts c Hc) as (_ & -> & _).
  now rewrite IH.
Qed.

Lemma rstrip_digits (s : string) :
  py.all_chars py.isdigit_char s = true -> py.rstrip s = s.
Proof.
  induction s as [|c s IH]; simpl; [reflexivity|].
  intros Hall. apply andb_prop in Hall as [Hc Hs].
  rewrite IH by exact Hs.
  destruct (digit_char_facts c Hc) as (-> & _).
  now destruct s.
Qed.

Lemma strip_digits (s : string) :
  py.all_chars py.isdigit_char s = true -> py.strip s = s.
Proof.
  intros Hall. unfold py.strip.
  assert (Hl : py.lstrip s = s).
  { destruct s as [|c s]; [reflexivity|]. simpl in *.
    apply andb_prop in Hall as [Hc _].
    now destruct (digit_char_facts c Hc) as (-> & _). }
  rewrite Hl. now apply rstrip_digits.
Qed.

Lemma parse_str (n : Z) :
  (0 <= n)%Z -> parse_future_years (py.str n) = inr [n].
Proof.
  intros Hn. destruct (str_nonneg n Hn) as (d & Hnil & -> & Hval).
  pose proof (uint_digits d) as Hdig.
  unfold parse_future_years. rewrite split_digits by exact Hdig.
  assert (Hguard : py.isdigit (py.strip (NilEmpty.string_of_uint d)) = true).
  { rewrite strip_digits by exact Hdig. unfold py.isdigit.
    destruct d; try exact Hdig. congruence. }
  cbn [List.filter]. rewrite Hguard. cbn [result_map].
  assert (Hsep : no_separator (NilEmpty.string_of_uint d)).
  { apply (all_chars_impl py.isdigit_char); [|exact Hdig].
    intros c Hc. apply literal_char_no_separator. now rewrite Hc, ?orb_true_r. }
  destruct (int_of_guarded _ Hguard Hsep) as (d' & Hd' & ->).
  rewrite strip_digits, NilEmpty.usu in Hd' by exact Hdig.
  injection Hd' as <-. now rewrite Hval.
Qed.

Lemma parse_join (ns : list Z) :
  Forall (fun n => (0 <= n)%Z) ns ->
  parse_future_years (py.join "," (map py.str ns)) = inr ns.
Proof.
  induction 1 as [|n ns Hn Hns IH]; [reflexivity|].
  destruct ns as [|m ns].
  - now apply parse_str.
  - change (py.join "," (map py.str (n :: m :: ns)))
      with (py.str n ++ String "," (py.join "," (map py.str (m :: ns))))%string.
    change (n :: m :: ns) with ([n] ++ m :: ns).
    apply parse_app; [now apply parse_str | exact IH].
Qed.

(** X15.  Years typed as plain non-negative numbers separated by commas
    come back unchanged, in the order typed and with repetitions kept, and
    they are the future years the algorithm then runs on. *)
Theorem parse_future_years_round_trip (ns : list Z) :
  Forall (fun n => (0 <= n)%Z) ns ->
  ascii_text (py.join "," (map py.str ns)) ->
  parse_future_years (py.join "," (map py.str ns)) = inr ns /\
  forall np_sqrt layers model_type normalization fb,
    processAlgorithm_text np_sqrt layers (py.join "," (map py.str ns))
                          model_type normalization fb
    = processAlgorithm np_sqrt
        {| LAYER_LIST := layers; FUTURE_YEARS := ns;
           MODEL_TYPE := model_type; NORMALIZATION := normalization |} fb.
Proof.
  intros Hns _. pose proof (parse_join ns Hns) as Hparse.
  split; [exact Hparse|].
  intros np_sqrt layers model_type normalization fb.
  unfold processAlgorithm_text, processAlgorithm. cbn [LAYER_LIST].
  destruct (Nat.ltb (length (valid_layers layers)) 2); [reflexivity|].
  rewrite Hparse. reflexivity.
Qed.

Lemma parse_future_years_round_trip_witness :
  Forall (fun n => (0 <= n)%Z) [2028; 2033; 2028; 0]%Z /\
  py.join "," (map py.str [2028; 2033; 2028; 0]%Z) = "2028,2033,2028,0"%string /\
  parse_future_years "2028,2033,2028,0" = inr [2028; 2033; 2028; 0]%Z.
Proof.
  assert (Hns : Forall (fun n => (0 <= n)%Z) [2028; 2033; 2028; 0]%Z)
    by (repeat constructor; lia).
  assert (Hascii : ascii_text (py.join "," (map py.str [2028; 2033; 2028; 0]%Z))).
  { split; [reflexivity | vm_compute; discriminate]. }
  split; [exact Hns|]. split; [reflexivity|].
  exact (proj1 (parse_future_years_round_trip _ Hns Hascii)).
Defined.

(** ** Progress reports *)

Lemma progress_calls_in fb valid_flat n idxs idx :
  In idx (progress_calls fb valid_flat n idxs) ->
  In idx (visited fb idxs) /\ nth idx valid_flat false = true /\
  idx mod (Nat.max 1 (n / 100)) = O.
Proof.
  induction idxs as [|i rest IH]; cbn [progress_calls visited]; [simpl; tauto|].
  destruct (isCanceled fb i); [simpl; tauto|].
  destruct (nth i valid_flat false) eqn:Hv; cbn [negb].
  - destruct (Nat.eqb_spec (i mod Nat.max 1 (n / 100)) 0) as [Hmod | Hmod].
    + intros [<- | Hin]; [split; [now left | auto]|].
      destruct (IH Hin) as (H1 & H2 & H3). split; [now right | auto].
    + intros Hin. destruct (IH Hin) as (H1 & H2 & H3). split; [now right | auto].
  - intros Hin. destruct (IH Hin) as (H1 & H2 & H3). split; [now right | auto].
Qed.

Lemma progress_calls_length fb valid_flat n idxs :
  (length (progress_calls fb valid_flat n idxs)
   <= length (List.filter (fun i => Nat.eqb (i mod Nat.max 1 (n / 100)) 0) idxs))%nat.
Proof.
  induction idxs as [|i rest IH]; cbn [progress_calls List.filter]; [simpl; lia|].
  destruct (isCanceled fb i);
    [destruct (Nat.eqb (i mod Nat.max 1 (n / 100)) 0); cbn [length]; lia|].
  destruct (nth i valid_flat false); cbn [negb];
    destruct (Nat.eqb (i mod Nat.max 1 (n / 100)) 0); cbn [length]; lia.
Qed.

(** The multiples of [s] below [n] number at most [n / s] rounded up. *)
Lemma count_multiples s n :
  (1 <= s)%nat ->
  (length (List.filter (fun i => Nat.eqb (i mod s) 0) (seq 0 n)) * s
   <= n + s - 1)%nat.
Proof.
  intros Hs. induction n as [|n IH]; [simpl; lia|].
  rewrite seq_S, List.filter_app, length_app. cbn [List.filter Nat.add].
  destruct (Nat.eqb_spec (n mod s) 0) as [Hmod | Hmod]; cbn [length].
  - pose proof (Nat.div_mod_eq n s) as Hdiv. rewrite Hmod in Hdiv.
    set (c := length _) in *. set (q := (n / s)%nat) in *.
    assert (c <= q)%nat by nia.
    nia.
  - lia.
Qed.

(** X16.  Progress is reported at most 199 times in a run, whatever the
    number of pixels, and only at valid pixels the loop reached whose
    index is a multiple of max(1, n_pixels // 100). *)
Theorem progress_calls_throttled (fb : Feedback) (valid_flat : list bool) (n : nat) :
  let calls := progress_calls fb valid_flat n (seq 0 n) in
  (length calls <= 199)%nat /\
  forall idx, In idx calls ->
    (idx < n)%nat /\ reached fb idx /\ nth idx valid_flat false = true /\
    idx mod (Nat.max 1 (n / 100)) = O.
Proof.
  intros calls. split.
  - pose proof (progress_calls_length fb valid_flat n (seq 0 n)) as Hlen.
    assert (Hs : (1 <= Nat.max 1 (n / 100))%nat) by lia.
    pose proof (count_multiples _ n Hs) as Hcount.
    set (c := length (List.filter _ _)) in *.
    fold calls in Hlen.
    pose proof (Nat.div_mod_eq n 100) as Hdiv.
    pose proof (Nat.mod_upper_bound n 100 ltac:(lia)) as Hmod.
    destruct (Nat.max_spec 1 (n / 100)) as [[Hlt Hm] | [Hge Hm]];
      rewrite Hm in Hcount; nia.
  - intros idx Hin.
    destruct (progress_calls_in _ _ _ _ _ Hin) as (Hvis & Hvalid & Hmod).
    assert (Hidx : (idx < n)%nat).
    { apply visited_incl, in_seq in Hvis. lia. }
    split; [exact Hidx|]. split; [|split; assumption].
    now apply (visited_reached_iff fb n).
Qed.

(** ** The scatter-plot arrays *)

Lemma boolean_index_cons {A} (x : A) a (t : bool) m :
  boolean_index (x :: a) (t :: m)
  = if t then x :: boolean_index a m else boolean_index a m.
Proof. unfold boolean_index. simpl. now destruct t. Qed.

Lemma boolean_index_length {A B} (a : list A) (b : list B) (m : list bool) :
  length a = length m -> length b = length m ->
  length (boolean_index a m) = length (boolean_index b m).
Proof.
  revert a b. induction m as [|t m IH]; intros [|x a] [|y b] Ha Hb;
    simpl in Ha, Hb; try lia; [reflexivity|].
  rewrite !boolean_index_cons.
  destruct t; simpl; [f_equal|]; apply IH; lia.
Qed.

Lemma boolean_index_aligned {A B} (a : list A) (b : list B) (m : list bool)
      k x y :
  length a = length m -> length b = length m ->
  boolean_index a m !! k = Some x -> boolean_index b m !! k = Some y ->
  exists idx, m !! idx = Some true /\ a !! idx = Some x /\ b !! idx = Some y.
Proof.
  revert a b k. induction m as [|t m IH]; intros [|x0 a] [|y0 b] k Ha Hb;
    simpl in Ha, Hb; try lia.
  - intros H. unfold boolean_index in H. simpl in H. discriminate.
  - rewrite !boolean_index_cons.
    destruct t.
    + destruct k as [|k]; simpl.
      * intros [= <-] [= <-]. exists O. auto.
      * intros Hx Hy.
        destruct (IH a b k) as (idx & H1 & H2 & H3); try lia; try assumption.
        exists (S idx). auto.
    + intros Hx Hy.
      destruct (IH a b k) as (idx & H1 & H2 & H3); try lia; try assumption.
      exists (S idx). auto.
Qed.

Lemma last_map {A B} (f : A -> B) (l : list A) d d' :
  l <> [] -> List.last (map f l) d' = f (List.last l d).
Proof.
  induction l as [|x l IH]; [congruence|]. intros _.
  destruct l as [|x' l]; [reflexivity|]. apply IH. discriminate.
Qed.

Lemma last_in_or_default {A} (l : list A) d :
  l <> [] -> In (List.last l d) l.
Proof.
  induction l as [|x l IH]; [congruence|]. intros _.
  destruct l as [|x' l]; [now left|].
  right. apply IH. discriminate.
Qed.

Lemma input_mask_length np_sqrt paths future model_name norm_name fb out :
  fit_and_forecast np_sqrt paths future model_name norm_name fb = inr out ->
  length (concat (input_mask paths)) = n_pixels_of paths.
Proof.
  intros Hrun.
  pose proof (fit_and_forecast_shaped _ _ _ _ _ _ _ Hrun) as Hsh.
  unfold input_mask, n_pixels_of, valid_mask_of.
  set (H := fst _) in *. set (W := snd _) in *.
  apply shaped_length_concat.
  destruct (first_nodata paths) as [nd|].
  - apply shaped_map. apply shaped_np_any.
    apply Forall_map. eapply Forall_impl; [exact Hsh|].
    intros g Hg. simpl. now apply shaped_map.
  - apply shaped_replicate.
Qed.

(** X17.  The two arrays handed to the scatter plot have one entry per
    valid pixel and are aligned: entry k of both belongs to the same valid
    pixel, whose value in the last raster is the "actual" entry and whose
    floored forecast for the first future year is the "predicted" entry.
    The sample drawn from them has at most 10000 points. *)
Theorem scatter_arrays_aligned
        np_sqrt paths future model_name norm_name fb out :
  fit_and_forecast np_sqrt paths future model_name norm_name fb = inr out ->
  future <> [] ->
  let sc := scatter_arrays paths out in
  length (actual sc) = length (predicted sc) /\
  (sample_size sc <= 10000)%Z /\
  (sample_size sc <= Z.of_nat (length (actual sc)))%Z /\
  forall k x y,
    actual sc !! k = Some x -> predicted sc !! k = Some y ->
    exists idx,
      (idx < n_pixels_of paths)%nat /\
      series_valid (first_nodata paths) (pixel_series paths idx) = true /\
      List.last (pixel_series paths idx) 0 = x /\
      forecast_at out 0 idx = Some y.
Proof.
  intros Hrun Hfut sc.
  pose proof (fit_and_forecast_shaped _ _ _ _ _ _ _ Hrun) as Hin.
  pose proof (pred_grids_shaped _ _ _ _ _ _ _ Hrun) as Hgrids.
  destruct (out_lengths _ _ _ _ _ _ _ Hrun) as (_ & _ & Hng).
  pose proof (input_mask_length _ _ _ _ _ _ _ Hrun) as Hmask.
  destruct (fit_and_forecast_inv _ _ _ _ _ _ _ Hrun) as (_ & _ & Hstack & _).
  destruct (np_stack_ok _ _ Hstack) as (_ & Hne & _).
  assert (Hlast : length (concat (List.last (map read1 paths) []))
                  = n_pixels_of paths).
  { apply shaped_length_concat.
    rewrite List.Forall_forall in Hin. apply Hin.
    now apply last_in_or_default. }
  destruct (pred_grids out) as [|grid0 grids] eqn:Hpg.
  { destruct future; [congruence | discriminate]. }
  assert (Hgrid0 : length (concat grid0) = n_pixels_of paths).
  { apply shaped_length_concat. now inversion Hgrids. }
  unfold sc, scatter_arrays. rewrite Hpg. cbn [actual predicted sample_size hd].
  split; [apply boolean_index_length; congruence|].
  split; [apply Z.le_min_l|]. split; [apply Z.le_min_r|].
  intros k x y Hx Hy.
  destruct (boolean_index_aligned
              (concat (List.last (map read1 paths) [])) (concat grid0)
              (concat (input_mask paths)) k x y)
    as (idx & Hm & Ha & Hb); [congruence | congruence | exact Hx | exact Hy |].
  assert (Hidx : (idx < n_pixels_of paths)%nat).
  { apply lookup_lt_Some in Hm. lia. }
  exists idx. split; [exact Hidx|]. split; [|split].
  - rewrite <- (input_mask_lookup _ _ _ _ _ _ _ _ Hrun Hidx).
    now apply nth_lookup_Some.
  - unfold pixel_series, flat_of, column. rewrite map_map.
    rewrite (last_map _ _ []) by exact Hne. now apply nth_lookup_Some.
  - unfold forecast_at. rewrite Hpg. exact Hb.
Qed.

Lemma scatter_arrays_aligned_witness :
  exists out,
    fit_and_forecast sqrt_floor scenario_B [2015%Z] Linear NormNone
                     never_canceled = inr out /\
    length (actual (scatter_arrays scenario_B out)) = 3%nat /\
    length (actual (scatter_arrays scenario_B out))
    = length (predicted (scatter_arrays scenario_B out)) /\
    sample_size (scatter_arrays scenario_B out) = 3%Z.
Proof.
  eexists.
  assert (Hrun : fit_and_forecast sqrt_floor scenario_B [2015%Z] Linear
                   NormNone never_canceled = inr _) by (vm_compute; reflexivity).
  destruct (scatter_arrays_aligned _ _ _ _ _ _ _ Hrun ltac:(discriminate))
    as (Hlen & _).
  split; [exact Hrun|]. split; [reflexivity|]. split; [exact Hlen | reflexivity].
Defined.

(** ** DownloadVIIRSAnnual: the selected years *)

Lemma years_all_item (i : Z) :
  (-12 <= i < 12)%Z ->
  exists s, py.getitem DownloadVIIRSAnnual.years_all i = Some s /\
            py.int s = inr (2014 + i mod 12)%Z.
Proof.
  intros Hi.
  assert (Hcases : i = (-12)%Z \/ i = (-11)%Z \/ i = (-10)%Z \/ i = (-9)%Z \/
                   i = (-8)%Z \/ i = (-7)%Z \/ i = (-6)%Z \/ i = (-5)%Z \/
                   i = (-4)%Z \/ i = (-3)%Z \/ i = (-2)%Z \/ i = (-1)%Z \/
                   i = 0%Z \/ i = 1%Z \/ i = 2%Z \/ i = 3%Z \/ i = 4%Z \/
                   i = 5%Z \/ i = 6%Z \/ i = 7%Z \/ i = 8%Z \/ i = 9%Z \/
                   i = 10%Z \/ i = 11%Z) by lia.
  repeat (destruct Hcases as [-> | Hcases]; [eexists; split; reflexivity|]).
  subst i. eexists; split; reflexivity.
Qed.

Lemma years_all_out_of_range (i : Z) :
  (i < -12 \/ 12 <= i)%Z -> py.getitem DownloadVIIRSAnnual.years_all i = None.
Proof.
  intros Hi. unfold py.getitem.
  change (Z.of_nat (length DownloadVIIRSAnnual.years_all)) with 12%Z.
  destruct ((0 <=? i) && (i <? 12))%Z eqn:E1.
  { apply andb_prop in E1 as [E1 E1']. apply Z.leb_le in E1.
    apply Z.ltb_lt in E1'. lia. }
  destruct ((- (12) <=? i) && (i <? 0))%Z eqn:E2; [|reflexivity].
  apply andb_prop in E2 as [E2 E2']. apply Z.leb_le in E2.
  apply Z.ltb_lt in E2'. lia.
Qed.

(** X18.  With every index between -12 and 11 the selected years are
    2014 + (i mod 12), in the order of the indices: a non-negative index
    counts from 2014 and a negative one back from 2025, so every selected
    year lies in 2014..2025.  Any other index raises [IndexError]. *)
Theorem years_sel_spec (years_idx : list Z) :
  (Forall (fun i => (-12 <= i < 12)%Z) years_idx ->
   DownloadVIIRSAnnual.years_sel years_idx
   = inr (map (fun i => (2014 + i mod 12)%Z) years_idx)) /\
  (forall ys, DownloadVIIRSAnnual.years_sel years_idx = inr ys ->
     Forall (fun i => (-12 <= i < 12)%Z) years_idx /\
     Forall (fun y => (2014 <= y <= 2025)%Z) ys) /\
  (Exists (fun i => (i < -12 \/ 12 <= i)%Z) years_idx ->
   DownloadVIIRSAnnual.years_sel years_idx
   = inl (DownloadVIIRSAnnual.IndexError "list index out of range")).
Proof.
  assert (Hok : Forall (fun i => (-12 <= i < 12)%Z) years_idx ->
                DownloadVIIRSAnnual.years_sel years_idx
                = inr (map (fun i => (2014 + i mod 12)%Z) years_idx)).
  { induction 1 as [|i rest Hi _ IH]; [reflexivity|].
    cbn [DownloadVIIRSAnnual.years_sel map].
    destruct (years_all_item i Hi) as (s & -> & ->). now rewrite IH. }
  assert (Hbad : Exists (fun i => (i < -12 \/ 12 <= i)%Z) years_idx ->
                 DownloadVIIRSAnnual.years_sel years_idx
                 = inl (DownloadVIIRSAnnual.IndexError "list index out of range")).
  { clear Hok.
    induction years_idx as [|i rest IH]; intros Hex; [inversion Hex|].
    cbn [DownloadVIIRSAnnual.years_sel].
    destruct (Z_lt_ge_dec i (-12)) as [Hlo | Hlo];
      [rewrite years_all_out_of_range by lia; reflexivity|].
    destruct (Z_lt_ge_dec i 12) as [Hhi | Hhi];
      [|rewrite years_all_out_of_range by lia; reflexivity].
    destruct (years_all_item i ltac:(lia)) as (s & -> & ->).
    rewrite IH; [reflexivity|].
    inversion Hex as [? ? Hh | ? ? Ht]; subst; [lia | exact Ht]. }
  split; [exact Hok|]. split; [|exact Hbad].
  intros ys Hys.
  assert (Hall : Forall (fun i => (-12 <= i < 12)%Z) years_idx).
  { apply List.Forall_forall. intros i Hin.
    destruct (Z_lt_ge_dec i (-12)) as [Hlo | Hlo];
      [|destruct (Z_lt_ge_dec i 12) as [Hhi | Hhi]; [lia|]].
    - rewrite Hbad in Hys; [discriminate|].
      apply List.Exists_exists. exists i. split; [exact Hin | lia].
    - rewrite Hbad in Hys; [discriminate|].
      apply List.Exists_exists. exists i. split; [exact Hin | lia]. }
  split; [exact Hall|].
  rewrite (Hok Hall) in Hys. injection Hys as <-.
  apply Forall_map. eapply Forall_impl; [exact Hall|].
  intros i Hi. simpl. pose proof (Z.mod_pos_bound i 12 ltac:(lia)). lia.
Qed.

(** ** The range of R2 *)

Lemma Qsum_nonneg (v : vec) : Forall (fun x => 0 <= x) v -> 0 <= Qsum v.
Proof.
  induction 1 as [|x v Hx _ IH]; [apply Qle_refl|].
  cbn [Qsum foldr]. fold (Qsum v). lra.
Qed.

Lemma Qsum_squares_nonneg {A} (f : A -> Q) (l : list A) :
  0 <= Qsum (map (fun a => sq (f a)) l).
Proof.
  apply Qsum_nonneg. apply Forall_map. apply List.Forall_forall.
  intros a _. simpl. unfold sq. nra.
Qed.

Lemma r2_score_le_1 (y_true y_pred : vec) q :
  r2_score y_true y_pred = num q -> q <= 1.
Proof.
  unfold r2_score.
  destruct (Nat.ltb (length y_pred) 2); [discriminate|].
  set (numerator := Qsum (map sq (vsub y_true y_pred))).
  set (denominator := Qsum (map _ y_true)).
  assert (Hn : 0 <= numerator).
  { unfold numerator.
    rewrite <- (map_id (vsub y_true y_pred)) at 1. rewrite map_map.
    apply (Qsum_squares_nonneg (fun x => x)). }
  assert (Hd : 0 <= denominator).
  { apply (Qsum_squares_nonneg (fun v => v - np_mean y_true)). }
  destruct (Qeq_bool numerator 0); [intros [= <-]; lra|].
  destruct (Qeq_bool denominator 0) eqn:Hz; [intros [= <-]; lra|].
  intros [= <-].
  assert (Hne : ~ denominator == 0).
  { intros Heq. apply Qeq_bool_iff in Heq. congruence. }
  assert (Hpos : 0 < denominator) by lra.
  assert (Hfrac : 0 <= numerator / denominator).
  { apply Qle_shift_div_l; [exact Hpos | lra]. }
  lra.
Qed.

(** X19.  No R2 the forecast records exceeds 1. *)
Theorem recorded_r2_at_most_1
        np_sqrt paths future model_name norm_name fb out idx q :
  fit_and_forecast np_sqrt paths future model_name norm_name fb = inr out ->
  out_r2 out !! idx = Some (num q) ->
  q <= 1.
Proof.
  intros Hrun Hq.
  destruct (defined_entry_fitted _ _ _ _ _ _ _ _ _ Hrun Hq)
    as (Hidx & Hreach & Hvalid).
  destruct (forecast_fitted _ _ _ _ _ _ _ idx Hrun Hidx)
    as (yf & ff & _ & H1 & _).
  { now apply visited_reached_iff. }
  { exact Hvalid. }
  simpl in H1. rewrite Hq in H1. injection H1 as H1.
  destruct (fit_pixel_metrics np_sqrt model_name norm_name yf ff
              (pixel_series paths idx)) as [Hr2 _].
  rewrite Hr2 in H1. symmetry in H1.
  unfold r2_normalized_space in H1. cbv zeta in H1.
  exact (r2_score_le_1 _ _ _ H1).
Qed.

Lemma recorded_r2_at_most_1_witness :
  exists out q,
    fit_and_forecast sqrt_floor scenario_B [2015%Z] Ridge NormNone
                     never_canceled = inr out /\
    out_r2 out !! 0%nat = Some (num q) /\ q <= 1.
Proof.
  assert (Hrun : exists out,
             fit_and_forecast sqrt_floor scenario_B [2015%Z] Ridge NormNone
                              never_canceled = inr out /\
             exists q, out_r2 out !! 0%nat = Some (num q)).
  { eexists. split; [vm_compute; reflexivity | eexists; reflexivity]. }
  destruct Hrun as (out & Hrun & q & Hq).
  exists out, q. split; [exact Hrun|]. split; [exact Hq|].
  exact (recorded_r2_at_most_1 _ _ _ _ _ _ _ _ _ Hrun Hq).
Defined.

(** ** Layers that are missing or invalid *)

Lemma valid_layers_app (l1 l2 : list (option Layer)) :
  valid_layers (l1 ++ l2) = valid_layers l1 ++ valid_layers l2.
Proof. unfold valid_layers. apply omap_app. Qed.

(** X20.  A layer that is missing or not valid is dropped before anything
    else happens: the run is the run on the list without it, so the
    rasters after it move one year down the 2013-based time axis. *)
Theorem invalid_layers_ignored np_sqrt (l1 l2 : list (option Layer))
        (x : option Layer) future model_type normalization fb :
  (x = None \/ exists lyr, x = Some lyr /\ isValid lyr = false) ->
  valid_layers (l1 ++ x :: l2) = valid_layers (l1 ++ l2) /\
  processAlgorithm np_sqrt
    {| LAYER_LIST := l1 ++ x :: l2; FUTURE_YEARS := future;
       MODEL_TYPE := model_type; NORMALIZATION := normalization |} fb
  = processAlgorithm np_sqrt
      {| LAYER_LIST := l1 ++ l2; FUTURE_YEARS := future;
         MODEL_TYPE := model_type; NORMALIZATION := normalization |} fb.
Proof.
  intros Hx.
  assert (Hdrop : valid_layers (l1 ++ x :: l2) = valid_layers (l1 ++ l2)).
  { rewrite !valid_layers_app. f_equal.
    destruct Hx as [-> | (lyr & -> & Hinv)]; unfold valid_layers; simpl;
      [reflexivity | now rewrite Hinv]. }
  split; [exact Hdrop|].
  unfold processAlgorithm. cbn [LAYER_LIST FUTURE_YEARS MODEL_TYPE NORMALIZATION].
  now rewrite Hdrop.
Qed.

Lemma invalid_layers_ignored_witness :
  let good r := Some {| isValid := true; dataSource := r |} in
  let bad := Some {| isValid := false;
                     dataSource := {| read1 := [[9]]; nodata := None |} |} in
  let r1 := {| read1 := [[1]]; nodata := None |} in
  let r2 := {| read1 := [[2]]; nodata := None |} in
  valid_layers ([good r1] ++ bad :: [good r2]) = [r1; r2] /\
  observed_years (valid_layers ([good r1] ++ bad :: [good r2]))
  = [2013; 2014]%Z.
Proof.
  intros good bad r1 r2.
  destruct (invalid_layers_ignored sqrt_floor [good r1] [good r2] bad
              [2015%Z] Linear NormNone never_canceled) as [Hdrop _].
  { right. eexists. split; reflexivity. }
  rewrite Hdrop. split; reflexivity.
Defined.

(** ** The algorithm on rasters with NaN or infinite values *)

Lemma all_finite_values (y : list np_float) v :
  all_finite y = Some v -> v = map finite_part y.
Proof.
  revert v. induction y as [|x y IH]; intros v; simpl.
  - now intros [= <-].
  - destruct x as [q| |neg]; try discriminate.
    destruct (all_finite y) as [v'|]; [|discriminate].
    intros [= <-]. now rewrite (IH v' eq_refl).
Qed.

Lemma all_finite_map_finite (v : vec) : all_finite (map finite v) = Some v.
Proof. induction v as [|q v IH]; simpl; [reflexivity | now rewrite IH]. Qed.

Lemma column_finite_part idx (flat : list (list np_float)) :
  column idx (map (map finite_part) flat)
  = map finite_part (map (fun row => nth idx row (finite 0)) flat).
Proof.
  unfold column. rewrite !map_map. apply map_ext. intros row.
  change 0 with (finite_part (finite 0)). apply map_nth.
Qed.

Lemma file_stack_ok arrays data :
  file_stack arrays = inr data ->
  data = arrays /\ arrays <> [] /\
  Forall (shaped (fst (file_shape12 data)) (snd (file_shape12 data))) data.
Proof.
  unfold file_stack. destruct arrays as [|g rest]; [discriminate|].
  destruct (forallb _ _) eqn:Hall; [|discriminate].
  intros [= <-]. repeat split; [discriminate|].
  rewrite forallb_forall in Hall. apply List.Forall_forall.
  intros x Hin. simpl. specialize (Hall x Hin).
  apply andb_prop in Hall as [Hl Hr]. split.
  - now apply Nat.eqb_eq.
  - rewrite forallb_forall in Hr. apply List.Forall_forall.
    intros r Hr'. apply Nat.eqb_eq. now apply Hr.
Qed.

Lemma file_valid_mask_flat nodata_val H W (data : list (list (list np_float))) idx :
  Forall (shaped H W) data -> (idx < H * W)%nat ->
  concat (file_valid_mask_of nodata_val H W data) !! idx
  = Some (file_series_valid nodata_val
            (map (fun row => nth idx row (finite 0))
                 (map (@concat np_float) data))).
Proof.
  intros Hdata Hidx. destruct nodata_val as [nd|]; simpl.
  - rewrite concat_map_map, list_lookup_fmap.
    rewrite concat_np_any.
    2:{ apply Forall_map. eapply Forall_impl; [exact Hdata|].
        intros g Hg. simpl. now apply shaped_map. }
    rewrite lookup_any_flat; auto.
    2:{ apply Forall_map, Forall_map. eapply Forall_impl; [exact Hdata|].
        intros g Hg. simpl. apply shaped_length_concat. now apply shaped_map. }
    simpl. do 2 f_equal.
    rewrite !existsb_map.
    induction Hdata as [|g data Hg _ IH]; simpl; [reflexivity|].
    rewrite IH. f_equal.
    rewrite concat_map_map.
    pose proof (shaped_length_concat _ _ _ Hg) as Hlen.
    destruct (nth_lookup_or_length (concat g) idx (finite 0)) as [Hl | Hge]; [|lia].
    erewrite nth_lookup_Some; [reflexivity|].
    now rewrite list_lookup_fmap, Hl.
  - rewrite concat_replicate2. now apply lookup_replicate_2.
Qed.

(** The loop on a file either meets a valid pixel with a value that is
    not finite, and raises, or is the loop on the finite values. *)
Lemma file_pixel_loop_cases np_sqrt fb model_name norm_name yf ff valid_flat
      (flat : list (list np_float)) idxs st :
  (Forall (fun idx => nth idx valid_flat false = true ->
                      all_finite (map (fun row => nth idx row (finite 0)) flat)
                      <> None)
          (visited fb idxs) /\
   file_pixel_loop np_sqrt fb model_name norm_name yf ff valid_flat flat idxs st
   = inr (pixel_loop np_sqrt fb model_name norm_name yf ff valid_flat
                     (map (map finite_part) flat) idxs st)) \/
  ((exists idx, In idx (visited fb idxs) /\ nth idx valid_flat false = true /\
                all_finite (map (fun row => nth idx row (finite 0)) flat) = None) /\
   file_pixel_loop np_sqrt fb model_name norm_name yf ff valid_flat flat idxs st
   = inl (ValueError
      "Input contains NaN, infinity or a value too large for dtype('float64').")).
Proof.
  revert st. induction idxs as [|i rest IH]; intros st; simpl.
  - left. split; [constructor | reflexivity].
  - destruct (isCanceled fb i); [left; split; [constructor | reflexivity]|].
    destruct (nth i valid_flat false) eqn:Hv; simpl.
    + unfold check_array.
      destruct (all_finite (map (fun row => nth i row (finite 0)) flat))
        as [y|] eqn:Hfin.
      * rewrite column_finite_part, <- (all_finite_values _ _ Hfin).
        cbv beta match delta [ok].
        destruct (fit_pixel np_sqrt model_name norm_name yf ff y)
          as [[pred r2] rmse].
        match goal with |- context [file_pixel_loop _ _ _ _ _ _ _ _ rest ?s] =>
          destruct (IH s) as [[Hall Heq] | [(idx & Hin & Hval & Hbad) Heq]]
        end.
        -- left. split; [|exact Heq].
           constructor; [intros _; congruence | exact Hall].
        -- right. split; [|exact Heq]. exists idx. auto.
      * right. split; [|reflexivity]. exists i. auto.
    + destruct (IH st) as [[Hall Heq] | [(idx & Hin & Hval & Hbad) Heq]].
      * left. split; [|exact Heq]. constructor; [congruence | exact Hall].
      * right. split; [|exact Heq]. exists idx. auto.
Qed.

(** Which entries of the metric arrays the loop defines. *)
Lemma pixel_loop_defined np_sqrt fb model_name norm_name yf ff valid_flat flat n idx :
  (2 <= length yf)%nat ->
  let st' := pixel_loop np_sqrt fb model_name norm_name yf ff valid_flat flat
                        (seq 0 n) (initial_arrays (length ff) n) in
  let fitted := (idx < n)%nat /\ In idx (visited fb (seq 0 n)) /\
                nth idx valid_flat false = true in
  ((exists q, r2_vals st' !! idx = Some (num q)) <-> fitted) /\
  ((exists q, rmse_vals st' !! idx = Some (num q)) <-> fitted).
Proof.
  intros Hyf st' fitted.
  assert (Hcases : fitted \/
            ~ (In idx (visited fb (seq 0 n)) /\ nth idx valid_flat false = true)).
  { destruct (in_dec Nat.eq_dec idx (visited fb (seq 0 n))) as [Hin | Hnin];
      [|right; tauto].
    destruct (nth idx valid_flat false) eqn:Hv; [|right; intros [_ ?]; congruence].
    left. split; [|auto].
    apply visited_incl, in_seq in Hin. lia. }
  destruct Hcases as [Hfit | Hnot].
  - destruct Hfit as (Hidx & Hin & Hval).
    destruct (pixel_loop_fitted np_sqrt fb model_name norm_name yf ff valid_flat
                flat (seq 0 n) (initial_arrays (length ff) n) idx)
      as (H1 & H2 & _);
      [ apply NoDup_seq | simpl; apply length_replicate | exact Hin | exact Hval
      | simpl; now rewrite length_replicate
      | simpl; now rewrite length_replicate
      | simpl; apply Forall_replicate; now rewrite length_replicate | ].
    fold st' in H1, H2.
    destruct (fit_pixel_r2_defined np_sqrt model_name norm_name yf ff
                (column idx flat) Hyf) as [q Hq].
    destruct (fit_pixel_metrics np_sqrt model_name norm_name yf ff
                (column idx flat)) as [_ Hrmse].
    rewrite Hq in H1. rewrite Hrmse in H2.
    unfold fitted. split; split; eauto.
  - destruct (pixel_loop_untouched np_sqrt fb model_name norm_name yf ff
                valid_flat flat (seq 0 n) (initial_arrays (length ff) n) idx)
      as (H1 & H2 & _); [simpl; apply length_replicate | exact Hnot |].
    fold st' in H1, H2. simpl in H1, H2.
    assert (Hnan : forall q, replicate n nan !! idx <> Some (num q)).
    { intros q Hq. apply lookup_replicate in Hq as [Hq _]. discriminate. }
    unfold fitted. split; split.
    + intros [q Hq]. rewrite H1 in Hq. now apply Hnan in Hq.
    + tauto.
    + intros [q Hq]. rewrite H2 in Hq. now apply Hnan in Hq.
    + tauto.
Qed.

(** The outcome of the forecast on files with at least two rasters. *)
Lemma file_fit_and_forecast_cases np_sqrt paths future model_name norm_name fb :
  (2 <= length paths)%nat ->
  let nd := file_first_nodata paths in
  let n := file_n_pixels_of paths in
  let fitted idx :=
    (idx < n)%nat /\ reached fb idx /\
    file_series_valid nd (file_pixel_series paths idx) = true in
  let refused idx :=
    fitted idx /\ all_finite (file_pixel_series paths idx) = None in
  match file_fit_and_forecast np_sqrt paths future model_name norm_name fb with
  | inl e =>
      ((forall data, file_stack (map file_read1 paths) <> inr data) /\
       e = ValueError "all input arrays must have the same shape") \/
      ((exists data, file_stack (map file_read1 paths) = inr data) /\
       (exists idx, refused idx) /\
       e = ValueError
         "Input contains NaN, infinity or a value too large for dtype('float64').")
  | inr out =>
      (exists data, file_stack (map file_read1 paths) = inr data) /\
      (forall idx, ~ refused idx) /\
      (forall idx, (exists q, out_r2 out !! idx = Some (num q)) <-> fitted idx) /\
      (forall idx, (exists q, out_rmse out !! idx = Some (num q)) <-> fitted idx)
  end.
Proof.
  intros Hn nd n fitted refused.
  unfold file_fit_and_forecast.
  destruct (file_stack (map file_read1 paths)) as [e|data] eqn:Hstack; simpl.
  { left. split; [discriminate|].
    revert Hstack. unfold file_stack.
    destruct (map file_read1 paths) as [|g rest] eqn:Hmap.
    { destruct paths; [simpl in Hn; lia | discriminate]. }
    destruct (forallb _ _); [discriminate|]. now intros [= <-]. }
  destruct (file_stack_ok _ _ Hstack) as (-> & Hne & Hshaped).
  assert (Hfeat : exists yf ff,
             expand_features model_name
               (reshape_col (np_arange 2013 (length paths)))
               (reshape_col future) = inr (yf, ff)).
  { destruct paths as [|src rest]; [simpl in Hn; lia|].
    unfold np_arange. cbn [length seq map].
    rewrite expand_features_columns. destruct model_name; eauto. }
  destruct Hfeat as (yf & ff & Hf).
  destruct (expand_features_lengths _ _ _ _ _ Hf) as [Hyf Hff].
  unfold reshape_col, np_arange in Hyf. rewrite !length_map, length_seq in Hyf.
  unfold reshape_col in Hff. rewrite length_map in Hff.
  destruct (file_shape12 (map file_read1 paths)) as [H W] eqn:Hshape.
  rewrite Hf. simpl.
  assert (Hnpix : n = (H * W)%nat).
  { unfold n, file_n_pixels_of. now rewrite Hshape. }
  rewrite <- Hnpix.
  assert (Hmask : forall idx, (idx < n)%nat ->
            nth idx (concat (file_valid_mask_of (file_first_nodata paths) H W
                               (map file_read1 paths))) false
            = file_series_valid nd (file_pixel_series paths idx)).
  { intros idx Hidx. apply nth_lookup_Some.
    apply file_valid_mask_flat; [exact Hshaped | lia]. }
  assert (Hvis : forall idx, (idx < n)%nat ->
            (In idx (visited fb (seq 0 n)) <-> reached fb idx)).
  { intros idx Hidx. now apply visited_reached_iff. }
  match goal with |- context [file_pixel_loop _ _ _ _ _ _ ?v ?f ?idxs ?s] =>
    destruct (file_pixel_loop_cases np_sqrt fb model_name norm_name yf ff v f
                                    idxs s)
      as [[Hall Heq] | [(idx & Hin & Hval & Hbad) Heq]]; rewrite Heq; simpl
  end.
  - split; [eauto|]. split.
    + intros idx ((Hidx & Hreach & Hvalid) & Hbad).
      rewrite List.Forall_forall in Hall.
      apply (Hall idx); [now apply Hvis | now rewrite Hmask | exact Hbad].
    + replace (length (reshape_col future)) with (length ff)
        by (unfold reshape_col; now rewrite length_map).
      split; intros idx.
      * match goal with |- context [pixel_loop _ _ _ _ _ _ ?v ?f _ _] =>
          destruct (pixel_loop_defined np_sqrt fb model_name norm_name yf ff v f
                                       n idx) as [Hr2 _]; [lia|]
        end.
        rewrite Hr2. unfold fitted. split.
        -- intros (Hidx & Hin & Hval).
           rewrite <- Hmask, <- Hvis by exact Hidx. auto.
        -- intros (Hidx & Hreach & Hval).
           rewrite <- Hmask, <- Hvis in * by exact Hidx. auto.
      * match goal with |- context [pixel_loop _ _ _ _ _ _ ?v ?f _ _] =>
          destruct (pixel_loop_defined np_sqrt fb model_name norm_name yf ff v f
                                       n idx) as [_ Hrm]; [lia|]
        end.
        rewrite Hrm. unfold fitted. split.
        -- intros (Hidx & Hin & Hval).
           rewrite <- Hmask, <- Hvis by exact Hidx. auto.
        -- intros (Hidx & Hreach & Hval).
           rewrite <- Hmask, <- Hvis in * by exact Hidx. auto.
  - right. split; [eauto|]. split; [|reflexivity].
    assert (Hidx : (idx < n)%nat).
    { apply visited_incl, in_seq in Hin. lia. }
    exists idx. unfold refused, fitted.
    rewrite <- Hmask, <- Hvis by exact Hidx. auto.
Qed.

Lemma parse_error (fy_str : string) e :
  parse_future_years fy_str = inl e ->
  e = ValueError "invalid literal for int() with base 10".
Proof.
  unfold parse_future_years. intros He.
  apply result_map_error in He as (x & _ & Hx). exact (int_error x e Hx).
Qed.

(** X7.  On files that may hold NaN or infinities and on the text of the
    years field (ASCII, years within 64 bits), the algorithm returns a
    result exactly when: there are at least two valid layers; the text
    parses and yields a year; the grids have one shape; no valid pixel the
    loop reaches before a cancellation holds a value that is not finite;
    and there is such a valid pixel. *)
Theorem processAlgorithm_succeeds_iff
        np_sqrt layers fy_str model_type normalization fb :
  ascii_text fy_str -> years_in_int64 fy_str ->
  let paths := file_valid_layers layers in
  let fitted idx :=
    (idx < file_n_pixels_of paths)%nat /\ reached fb idx /\
    file_series_valid (file_first_nodata paths) (file_pixel_series paths idx)
    = true in
  (exists o, processAlgorithm_files np_sqrt layers fy_str model_type
                                    normalization fb = inr o) <->
  (2 <= length paths)%nat /\
  (exists ys, parse_future_years fy_str = inr ys /\ ys <> []) /\
  (exists data, file_stack (map file_read1 paths) = inr data) /\
  (forall idx, fitted idx -> all_finite (file_pixel_series paths idx) <> None) /\
  (exists idx, fitted idx).
Proof.
  intros _ _ paths fitted. unfold processAlgorithm_files. fold paths.
  destruct (Nat.ltb_spec (length paths) 2) as [Hlt | Hge].
  { split; [intros [o Ho]; discriminate | intros [Hn _]; lia]. }
  destruct (parse_future_years fy_str) as [e | ys] eqn:Hparse; simpl.
  { split; [intros [o Ho]; discriminate|].
    intros (_ & (ys & Hys & _) & _). discriminate. }
  destruct ys as [|y ys]; simpl.
  { split; [intros [o Ho]; discriminate|].
    intros (_ & (ys & Hys & Hne) & _). congruence. }
  pose proof (file_fit_and_forecast_cases np_sqrt paths (y :: ys) model_type
                normalization fb Hge) as Hcases.
  cbv zeta in Hcases. fold fitted in Hcases.
  destruct (file_fit_and_forecast np_sqrt paths (y :: ys) model_type
              normalization fb) as [e | out]; simpl.
  - split; [intros [o Ho]; discriminate|].
    intros (_ & _ & [data Hdata] & Hfin & _). exfalso.
    destruct Hcases as [[Hno _] | (_ & (idx & Hfit & Hbad) & _)].
    + exact (Hno data Hdata).
    + exact (Hfin idx Hfit Hbad).
  - destruct Hcases as (Hstack & Hfin & Hr2 & Hrm).
    destruct (log_metrics_cases (out_r2 out) (out_rmse out))
      as [(Hd1 & Hd2 & s & Hs) | [Hempty Herr]]; rewrite ?Hs, ?Herr; simpl.
    + split; [|eauto]. intros _.
      apply defined_nonempty_iff in Hd1 as (idx & q & Hq).
      assert (Hfit : fitted idx) by (apply Hr2; eauto).
      split; [exact Hge|]. split; [exists (y :: ys); split; [reflexivity | discriminate]|].
      split; [exact Hstack|]. split; [|eauto].
      intros idx' Hfit' Hbad. exact (Hfin idx' (conj Hfit' Hbad)).
    + split; [intros [o Ho]; discriminate|].
      intros (_ & _ & _ & _ & idx & Hfit). exfalso.
      destruct (proj2 (Hr2 idx) Hfit) as [q1 H1].
      destruct (proj2 (Hrm idx) Hfit) as [q2 H2].
      destruct Hempty as [Hempty | Hempty].
      * apply (proj2 (defined_nonempty_iff (out_r2 out))); eauto.
      * apply (proj2 (defined_nonempty_iff (out_rmse out))); eauto.
Qed.

Lemma processAlgorithm_succeeds_iff_witness :
  ascii_text "2015" /\ years_in_int64 "2015" /\
  (exists o, processAlgorithm_files sqrt_floor scenario_A_files "2015" Linear
                                    NormNone never_canceled = inr o) /\
  ascii_text "2015" /\ years_in_int64 "2015" /\
  (forall o, processAlgorithm_files sqrt_floor scenario_nan_nodata "2015" Linear
                                    NormNone never_canceled <> inr o).
Proof.
  assert (H1 : ascii_text "2015").
  { split; [reflexivity | vm_compute; discriminate]. }
  assert (H2 : years_in_int64 "2015").
  { intros ys Hys. vm_compute in Hys. injection Hys as <-.
    repeat constructor. }
  split; [exact H1|]. split; [exact H2|]. split; [|split; [exact H1|split; [exact H2|]]].
  - apply (proj2 (processAlgorithm_succeeds_iff sqrt_floor scenario_A_files "2015"
                    Linear NormNone never_canceled H1 H2)).
    split; [simpl; lia|].
    split; [exists [2015%Z]; split; [reflexivity | discriminate]|].
    split; [eexists; reflexivity|].
    split.
    + intros idx (Hidx & _ & _).
      change (file_n_pixels_of (file_valid_layers scenario_A_files)) with 4%nat in Hidx.
      destruct idx as [|[|[|[|idx]]]]; try discriminate; lia.
    + exists 0%nat. split; [vm_compute; lia|]. split; [intros i _|]; reflexivity.
  - intros o Ho.
    destruct (proj1 (processAlgorithm_succeeds_iff sqrt_floor scenario_nan_nodata
                       "2015" Linear NormNone never_canceled H1 H2)
                    (ex_intro _ o Ho))
      as (_ & _ & _ & Hfin & _).
    apply (Hfin 0%nat); [|reflexivity].
    split; [vm_compute; lia|]. split; [intros i _|]; reflexivity.
Defined.

(** X8.  On the same inputs the algorithm can fail in six ways only, tried
    in this order: fewer than two valid layers; a piece of the years text
    that passes the guard and that [int] refuses; no future year; grids of
    different shapes; a valid pixel, reached before any cancellation, with
    a value that is not finite; no pixel fitted. *)
Theorem processAlgorithm_errors
        np_sqrt layers fy_str model_type normalization fb e :
  ascii_text fy_str -> years_in_int64 fy_str ->
  processAlgorithm_files np_sqrt layers fy_str model_type normalization fb
  = inl e ->
  let paths := file_valid_layers layers in
  let fitted idx :=
    (idx < file_n_pixels_of paths)%nat /\ reached fb idx /\
    file_series_valid (file_first_nodata paths) (file_pixel_series paths idx)
    = true in
  ((length paths < 2)%nat /\
   e = QgsProcessingException "Please select at least 2 input rasters.") \/
  ((2 <= length paths)%nat /\ parse_future_years fy_str = inl e /\
   e = ValueError "invalid literal for int() with base 10") \/
  ((2 <= length paths)%nat /\ parse_future_years fy_str = inr [] /\
   e = QgsProcessingException "No valid future years provided.") \/
  ((2 <= length paths)%nat /\
   (exists ys, parse_future_years fy_str = inr ys /\ ys <> []) /\
   (forall data, file_stack (map file_read1 paths) <> inr data) /\
   e = ValueError "all input arrays must have the same shape") \/
  ((2 <= length paths)%nat /\
   (exists ys, parse_future_years fy_str = inr ys /\ ys <> []) /\
   (exists data, file_stack (map file_read1 paths) = inr data) /\
   (exists idx, fitted idx /\ all_finite (file_pixel_series paths idx) = None) /\
   exists msg, e = ValueError msg) \/
  ((2 <= length paths)%nat /\
   (exists ys, parse_future_years fy_str = inr ys /\ ys <> []) /\
   (exists data, file_stack (map file_read1 paths) = inr data) /\
   (forall idx, ~ fitted idx) /\
   e = ValueError
         "zero-size array to reduction operation minimum which has no identity").
Proof.
  intros _ _ Herr paths fitted.
  revert Herr. unfold processAlgorithm_files. fold paths.
  destruct (Nat.ltb_spec (length paths) 2) as [Hlt | Hge].
  { intros [= <-]. left. auto. }
  destruct (parse_future_years fy_str) as [e' | ys] eqn:Hparse; simpl.
  { intros [= <-]. right. left.
    split; [exact Hge|]. split; [reflexivity|]. exact (parse_error _ _ Hparse). }
  destruct ys as [|y ys]; simpl.
  { intros [= <-]. right. right. left. auto. }
  assert (Hys : exists ys', inr (y :: ys) = @inr exn _ ys' /\ ys' <> []).
  { exists (y :: ys). split; [reflexivity | discriminate]. }
  pose proof (file_fit_and_forecast_cases np_sqrt paths (y :: ys) model_type
                normalization fb Hge) as Hcases.
  cbv zeta in Hcases. fold fitted in Hcases.
  destruct (file_fit_and_forecast np_sqrt paths (y :: ys) model_type
              normalization fb) as [e' | out]; simpl.
  - intros [= <-]. right. right. right.
    destruct Hcases as [[Hno ->] | (Hstack & Hbad & ->)].
    + left. auto.
    + right. left. split; [exact Hge|]. split; [exact Hys|].
      split; [exact Hstack|]. split; [exact Hbad|]. eauto.
  - destruct Hcases as (Hstack & Hfin & Hr2 & Hrm).
    destruct (log_metrics_cases (out_r2 out) (out_rmse out))
      as [(_ & _ & s & Hs) | [Hempty Hraise]]; rewrite ?Hs, ?Hraise; simpl;
      [discriminate|].
    intros [= <-]. do 5 right.
    split; [exact Hge|]. split; [exact Hys|]. split; [exact Hstack|].
    split; [|reflexivity].
    intros idx Hfit.
    destruct (proj2 (Hr2 idx) Hfit) as [q1 H1].
    destruct (proj2 (Hrm idx) Hfit) as [q2 H2].
    destruct Hempty as [Hempty | Hempty].
    + apply (proj2 (defined_nonempty_iff (out_r2 out))); eauto.
    + apply (proj2 (defined_nonempty_iff (out_rmse out))); eauto.
Qed.

Lemma processAlgorithm_errors_witness :
  ascii_text "2015" /\ years_in_int64 "2015" /\
  processAlgorithm_files sqrt_floor scenario_nan_nodata "2015" Linear NormNone
                         never_canceled
  = inl (ValueError
      "Input contains NaN, infinity or a value too large for dtype('float64').") /\
  (exists idx,
     ((idx < file_n_pixels_of (file_valid_layers scenario_nan_nodata))%nat /\
      reached never_canceled idx /\
      file_series_valid (file_first_nodata (file_valid_layers scenario_nan_nodata))
        (file_pixel_series (file_valid_layers scenario_nan_nodata) idx) = true) /\
     all_finite (file_pixel_series (file_valid_layers scenario_nan_nodata) idx)
     = None).
Proof.
  assert (H1 : ascii_text "2015").
  { split; [reflexivity | vm_compute; discriminate]. }
  assert (H2 : years_in_int64 "2015").
  { intros ys Hys. vm_compute in Hys. injection Hys as <-.
    repeat constructor. }
  assert (Hrun : processAlgorithm_files sqrt_floor scenario_nan_nodata "2015"
                   Linear NormNone never_canceled
                 = inl (ValueError
      "Input contains NaN, infinity or a value too large for dtype('float64')."))
    by (vm_compute; reflexivity).
  split; [exact H1|]. split; [exact H2|]. split; [exact Hrun|].
  destruct (processAlgorithm_errors sqrt_floor scenario_nan_nodata "2015" Linear
              NormNone never_canceled _ H1 H2 Hrun)
    as [[Hl _] | [(_ & _ & He) | [(_ & _ & He) | [(_ & _ & _ & He)
        | [(_ & _ & _ & Hbad & _) | (_ & _ & _ & _ & He)]]]]].
  - simpl in Hl. lia.
  - discriminate He.
  - discriminate He.
  - discriminate He.
  - exact Hbad.
  - discriminate He.
Defined.

(** ** Finite rasters as a special case *)

Lemma map3_compose {A B C} (f : A -> B) (g : B -> C) (data : list (list (list A))) :
  map (map (map g)) (map (map (map f)) data)
  = map (map (map (fun x => g (f x)))) data.
Proof.
  rewrite map_map. apply map_ext. intros grid.
  rewrite map_map. apply map_ext. intros row. apply map_map.
Qed.

Lemma file_stack_finite (arrays : list matrix) :
  file_stack (map (map (map finite)) arrays)
  = match np_stack arrays with
    | inl e => inl e
    | inr data => inr (map (map (map finite)) data)
    end.
Proof.
  unfold file_stack, np_stack.
  destruct arrays as [|g rest]; [reflexivity|].
  cbn [map].
  assert (Heq : forall arrays : list matrix,
            forallb (fun a =>
                       Nat.eqb (length a) (length (map (map finite) g))
                       && forallb (fun row =>
                            Nat.eqb (length row)
                                    (length (hd [] (map (map finite) g)))) a)
                    (map (map (map finite)) arrays)
            = forallb (has_shape (length g) (n_features g)) arrays).
  { intros arrays. induction arrays as [|a arrays IH]; [reflexivity|].
    cbn [map forallb]. rewrite IH. f_equal.
    unfold has_shape, n_features. rewrite !length_map. f_equal.
    replace (length (hd [] (map (map finite) g))) with (length (hd [] g))
      by (destruct g; simpl; [reflexivity | now rewrite length_map]).
    clear. induction a as [|row a IH]; [reflexivity|].
    cbn [map forallb]. now rewrite IH, length_map. }
  specialize (Heq (g :: rest)). cbn [map] in Heq. rewrite Heq.
  destruct (forallb (has_shape (length g) (n_features g)) (g :: rest));
    reflexivity.
Qed.

Lemma file_pixel_loop_finite np_sqrt fb model_name norm_name yf ff valid_flat
      (flat : list vec) idxs st :
  file_pixel_loop np_sqrt fb model_name norm_name yf ff valid_flat
                  (map (map finite) flat) idxs st
  = inr (pixel_loop np_sqrt fb model_name norm_name yf ff valid_flat flat idxs st).
Proof.
  revert st. induction idxs as [|i rest IH]; intros st; simpl; [reflexivity|].
  destruct (isCanceled fb i); [reflexivity|].
  destruct (negb (nth i valid_flat false)); [apply IH|].
  assert (Hcol : map (fun row => nth i row (finite 0)) (map (map finite) flat)
                 = map finite (column i flat)).
  { unfold column. rewrite !map_map. apply map_ext. intros row.
    apply (map_nth finite). }
  unfold check_array. rewrite Hcol, all_finite_map_finite.
  cbv beta match delta [ok].
  destruct (fit_pixel _ _ _ _ _ _) as [[pred r2] rmse]. apply IH.
Qed.

Lemma file_fit_and_forecast_finite np_sqrt paths future model_name norm_name fb :
  file_fit_and_forecast np_sqrt (map as_file paths) future model_name norm_name fb
  = fit_and_forecast np_sqrt paths future model_name norm_name fb.
Proof.
  unfold file_fit_and_forecast, fit_and_forecast, observed_years.
  rewrite length_map.
  replace (map file_read1 (map as_file paths))
    with (map (map (map finite)) (map read1 paths))
    by (rewrite !map_map; reflexivity).
  rewrite file_stack_finite.
  destruct (np_stack (map read1 paths)) as [e|data]; simpl; [reflexivity|].
  replace (file_shape12 (map (map (map finite)) data)) with (shape12 data).
  2:{ destruct data as [|g data]; [reflexivity|]. simpl.
      unfold n_features. rewrite length_map.
      destruct g; simpl; [reflexivity | now rewrite length_map]. }
  destruct (shape12 data) as [H W].
  destruct (expand_features _ _ _) as [e|[yf ff]]; simpl; [reflexivity|].
  replace (map (@concat np_float) (map (map (map finite)) data))
    with (map (map finite) (map (@concat Q) data)).
  2:{ rewrite !map_map. apply map_ext. intros grid. apply concat_map. }
  replace (file_valid_mask_of (file_first_nodata (map as_file paths)) H W
             (map (map (map finite)) data))
    with (valid_mask_of (first_nodata paths) H W data).
  2:{ destruct paths as [|src rest]; [reflexivity|]. simpl.
      destruct (nodata src) as [nd|]; simpl; [|reflexivity].
      now rewrite map3_compose. }
  now rewrite file_pixel_loop_finite.
Qed.

Lemma file_valid_layers_finite (layers : list (option Layer)) :
  file_valid_layers (map (option_map as_file_layer) layers)
  = map as_file (valid_layers layers).
Proof.
  induction layers as [|l layers IH]; [reflexivity|].
  unfold file_valid_layers, valid_layers in *. simpl.
  destruct l as [lyr|]; simpl; [destruct (isValid lyr); simpl|];
    first [exact IH | f_equal; exact IH].
Qed.

(** X21.  With rasters of finite values the algorithm on files is the
    algorithm on rasters of numbers: the two agree on every input, in the
    result as in the exception, so what holds of the latter holds of the
    former on such rasters. *)
Theorem finite_rasters_special_case
        np_sqrt (layers : list (option Layer)) fy_str model_type normalization fb :
  processAlgorithm_files np_sqrt (map (option_map as_file_layer) layers) fy_str
                         model_type normalization fb
  = processAlgorithm_text np_sqrt layers fy_str model_type normalization fb.
Proof.
  unfold processAlgorithm_files, processAlgorithm_text, processAlgorithm.
  rewrite file_valid_layers_finite, length_map. cbn [LAYER_LIST FUTURE_YEARS
    MODEL_TYPE NORMALIZATION].
  destruct (Nat.ltb (length (valid_layers layers)) 2) eqn:Hlt; [reflexivity|].
  destruct (parse_future_years fy_str) as [e|ys]; simpl; [reflexivity|].
  rewrite ?Hlt.
  destruct (Nat.eqb (length ys) 0); [reflexivity|].
  now rewrite file_fit_and_forecast_finite.
Qed.
